(** * Month normalisation and table operations of the Bayer data-admin backend

    A shallow embedding of [app/utils/months.py], of the table operations of
    [app/services/bigquery_service.py] and of the load-and-merge tail of
    [import_instar] in [app/main.py], with the properties stated about them.

    Python strings are modelled as lists of 8-bit characters, each read as
    the code point of the same number (U+0000 to U+00FF).  Within that range
    the models below follow CPython: [str.strip] and [str.split()] use the
    white space of [str.isspace]; [int] accepts an optional sign, ASCII
    digits and single underscores between digits, and raises [ValueError]
    for more than 4300 digits, the interpreter's default limit, which the
    program leaves in place; the integers themselves are unbounded.
    [str.capitalize] is modelled on the ASCII letters and
    leaves every other character alone: the program only compares its result
    with the ASCII keys of its month tables, and no character of the range
    above U+007F has a case mapping that produces such a key. *)

From Stdlib Require Import List String Ascii ZArith NArith Lia Bool Arith.
From Stdlib Require Import Sorting.Sorted Sorting.Permutation.
Import ListNotations.

(* ================================================================= *)
(** ** Python string primitives *)

Module PyStr.

Local Open Scope Z_scope.

Definition str := list ascii.

(** Literals are written [py "..."]. *)
Definition py (s : string) : str := list_ascii_of_string s.

Definition code (c : ascii) : N := N_of_ascii c.

Definition str_eqb (a b : str) : bool :=
  if list_eq_dec ascii_dec a b then true else false.

(** [str.isspace] on one character, for code points below U+0100. *)
Definition is_space (c : ascii) : bool :=
  let n := code c in
  ((9 <=? n) && (n <=? 13) || (28 <=? n) && (n <=? 32)
   || (n =? 133) || (n =? 160))%N.

Definition is_digit (c : ascii) : bool :=
  let n := code c in ((48 <=? n) && (n <=? 57))%N.

Definition is_upper (c : ascii) : bool :=
  let n := code c in ((65 <=? n) && (n <=? 90))%N.

Definition is_lower (c : ascii) : bool :=
  let n := code c in ((97 <=? n) && (n <=? 122))%N.

Definition to_upper (c : ascii) : ascii :=
  if is_lower c then ascii_of_N (code c - 32) else c.

Definition to_lower (c : ascii) : ascii :=
  if is_upper c then ascii_of_N (code c + 32) else c.

(** [s.capitalize()]: first character upper-cased, the others lower-cased. *)
Definition capitalize (s : str) : str :=
  match s with
  | [] => []
  | c :: t => to_upper c :: map to_lower t
  end.

(** [s.strip()] *)
Fixpoint lstrip (s : str) : str :=
  match s with
  | [] => []
  | c :: t => if is_space c then lstrip t else s
  end.

Definition rstrip (s : str) : str := rev (lstrip (rev s)).

Definition strip (s : str) : str := rstrip (lstrip s).

(** [s.replace(a, b)] for single characters. *)
Definition replace (a b : ascii) (s : str) : str :=
  map (fun c => if Ascii.eqb c a then b else c) s.

(** [a in s] for a single character. *)
Definition contains (a : ascii) (s : str) : bool :=
  existsb (Ascii.eqb a) s.

Definition cons_word (w : str) (ws : list str) : list str :=
  match w with [] => ws | _ :: _ => w :: ws end.

(** [s.split()]: the maximal runs of characters that are not white space.
    [words s] returns the run that starts at the head of [s] (empty when
    [s] starts with white space) and the runs after it. *)
Fixpoint words (s : str) : str * list str :=
  match s with
  | [] => ([], [])
  | c :: t =>
      let (w, ws) := words t in
      if is_space c then ([], cons_word w ws) else (c :: w, ws)
  end.

Definition split_ws (s : str) : list str :=
  let (w, ws) := words s in cons_word w ws.

(** [s.split(sep)] for a single-character separator: the fields between the
    occurrences of [sep], empty ones included. *)
Fixpoint fields (sep : ascii) (s : str) : str * list str :=
  match s with
  | [] => ([], [])
  | c :: t =>
      let (w, ws) := fields sep t in
      if Ascii.eqb c sep then ([], w :: ws) else (c :: w, ws)
  end.

Definition split (sep : ascii) (s : str) : list str :=
  let (w, ws) := fields sep s in w :: ws.

(** [sep.join(l)] for a single-character separator. *)
Fixpoint join (sep : ascii) (l : list str) : str :=
  match l with
  | [] => []
  | [a] => a
  | a :: rest => a ++ sep :: join sep rest
  end.

(** *** [int(s)] *)

Definition digit_val (c : ascii) : Z := Z.of_N (code c) - 48.

Definition digit_step (acc : Z) (c : ascii) : Z := 10 * acc + digit_val c.

(** The digits of a literal, with single underscores allowed between
    digits; [prev_us] records that the previous character was one. *)
Fixpoint int_digits (acc : Z) (prev_us : bool) (s : str) : option Z :=
  match s with
  | [] => if prev_us then None else Some acc
  | c :: t =>
      if Ascii.eqb c "_" then
        if prev_us then None else int_digits acc true t
      else if is_digit c then int_digits (digit_step acc c) false t
      else None
  end.

Definition int_unsigned (s : str) : option Z :=
  match s with
  | [] => None
  | c :: _ => if Ascii.eqb c "_" then None else int_digits 0 false s
  end.

(** White space skipped by [int] around the literal. *)
Definition is_int_space (c : ascii) : bool :=
  let n := code c in
  ((9 <=? n) && (n <=? 13) || (n =? 32) || (n =? 133) || (n =? 160))%N.

Fixpoint int_lskip (s : str) : str :=
  match s with
  | [] => []
  | c :: t => if is_int_space c then int_lskip t else s
  end.

(** The literal that [int] reads: white space around it skipped, a sign,
    digits. *)
Definition int_literal (s : str) : option Z :=
  match rev (int_lskip (rev (int_lskip s))) with
  | c :: r =>
      if Ascii.eqb c "-" then option_map Z.opp (int_unsigned r)
      else if Ascii.eqb c "+" then int_unsigned r
      else int_unsigned (c :: r)
  | [] => None
  end.

(** [sys.int_info.default_max_str_digits]: the most digits that [int]
    converts; the application leaves the default in place. *)
Definition default_max_str_digits : Z := 4300.

(** The digits of a string; in a literal that [int] reads they are the
    digits of the number, leading zeros included, and the underscores, the
    sign and the white space are not counted. *)
Definition str_digits (s : str) : Z :=
  Z.of_nat (List.length (filter is_digit s)).

(** [int(s)]: [None] stands for [ValueError], which is raised for a string
    that is not a literal, and for a literal of more than
    [default_max_str_digits] digits. *)
Definition py_int (s : str) : option Z :=
  if default_max_str_digits <? str_digits s then None else int_literal s.

(** *** [f"{n:02d}"] *)

Definition digit_char (d : Z) : ascii := ascii_of_N (Z.to_N (48 + d)).

Fixpoint digits_fuel (fuel : nat) (n : Z) (tail : str) : str :=
  match fuel with
  | O => tail
  | S f =>
      if n <? 10 then digit_char n :: tail
      else digits_fuel f (n / 10) (digit_char (n mod 10) :: tail)
  end.

(** The decimal digits of a natural number. *)
Definition decimal (n : Z) : str :=
  digits_fuel (S (Z.to_nat (Z.log2 n))) n [].

Definition fmt02d (n : Z) : str :=
  if n <? 0 then "-"%char :: decimal (- n)
  else if n <? 10 then "0"%char :: decimal n
  else decimal n.

End PyStr.

Import PyStr.

Open Scope string_scope.
Open Scope list_scope.
Open Scope Z_scope.

(* ================================================================= *)
(** ** [app/utils/months.py] *)

Module Months.

(** A [dict] read with [.get]: an association list, first binding wins
    (the tables below have no repeated key). *)
Section Dict.
Context {K V : Type} (eqb : K -> K -> bool).

Fixpoint dict_get (d : list (K * V)) (k : K) : option V :=
  match d with
  | [] => None
  | (k', v) :: rest => if eqb k' k then Some v else dict_get rest k
  end.

Definition dict_get_default (d : list (K * V)) (k : K) (dflt : V) : V :=
  match dict_get d k with Some v => v | None => dflt end.
End Dict.

(** [enumerate] *)
Fixpoint enumerate_from {A : Type} (i : Z) (l : list A) : list (Z * A) :=
  match l with
  | [] => []
  | a :: rest => (i, a) :: enumerate_from (i + 1) rest
  end.

Definition MONTHS_FULL : list str :=
  map py ["Enero"; "Febrero"; "Marzo"; "Abril"; "Mayo"; "Junio"; "Julio";
          "Agosto"; "Septiembre"; "Octubre"; "Noviembre"; "Diciembre"].

Definition MONTHS_FULL_INDEX : list (str * Z) :=
  map (fun p => (snd p, fst p + 1)) (enumerate_from 0 MONTHS_FULL).

Definition MONTHS_ABBR : list (str * Z) :=
  [(py "Ene", 1); (py "Feb", 2); (py "Mar", 3); (py "Abr", 4);
   (py "May", 5); (py "Jun", 6); (py "Jul", 7); (py "Ago", 8);
   (py "Sep", 9); (py "Oct", 10); (py "Nov", 11); (py "Dic", 12)].

Definition MONTH_NUM_TO_ABBR : list (Z * str) :=
  map (fun kv => (snd kv, fst kv)) MONTHS_ABBR.

(** The sort key returned for values that cannot be parsed. *)
Definition SENTINEL : Z * Z := (9999, 99).

Definition mem (v : str) (seen : list str) : bool := existsb (str_eqb v) seen.

(** The loop of [dedupe_preserve_order]: its state is the set [seen] and
    the list [ordered]; each value not yet seen is added to both. *)
Definition dedupe_step (st : list str * list str) (value : str)
  : list str * list str :=
  let (seen, ordered) := st in
  if mem value seen then st else (value :: seen, ordered ++ [value]).

Definition dedupe_preserve_order (values : list str) : list str :=
  snd (fold_left dedupe_step values ([], [])).

(** Exceptions caught by the enclosing [try] are [None]. *)
Definition bind {A B : Type} (o : option A) (k : A -> option B) : option B :=
  match o with Some a => k a | None => None end.

Notation "x <- e ;; k" := (bind e (fun x => k))
  (at level 61, e at next level, right associativity).

(** [months.py], lines 48-56.  The [try] catches the [ValueError] of the
    unpacking and of [int]. *)
Definition parse_instar_label (label : str) : Z * Z :=
  match split "/" label with
  | [month_name; year_str] =>
      match dict_get str_eqb MONTHS_FULL_INDEX (capitalize (strip month_name)) with
      | None => SENTINEL
      | Some month_index =>
          match py_int (strip year_str) with
          | Some year => (year, month_index)
          | None => SENTINEL
          end
      end
  | _ => SENTINEL
  end.

(** Python's order on pairs of integers. *)
Definition key_ltb (a b : Z * Z) : bool :=
  (fst a <? fst b) || (fst a =? fst b) && (snd a <? snd b).

(** [sorted(l, key=key)]: a stable sort that compares keys with [<]. *)
Section Sorted.
Variable key : str -> Z * Z.

Fixpoint insert (x : str) (l : list str) : list str :=
  match l with
  | [] => [x]
  | y :: rest =>
      if key_ltb (key y) (key x) then y :: insert x rest else x :: l
  end.

Definition sorted (l : list str) : list str := fold_right insert [] l.
End Sorted.

(** [months.py], lines 59-60 *)
Definition sort_instar_months (months : list str) : list str :=
  sorted parse_instar_label (dedupe_preserve_order months).

Definition is_empty (s : str) : bool := match s with [] => true | _ => false end.

Definition sp : str := [" "%char].

(** [months.py], lines 63-77.  [int(parts[1])] is the one call of the
    [try] that can raise; its [ValueError] returns the value trimmed. *)
Definition format_admedia_stored (value : str) : str :=
  let raw := replace "-" " " (strip value) in
  let parts := filter (fun part => negb (is_empty part)) (split_ws raw) in
  match parts with
  | [] => strip value
  | year :: _ =>
      match (if (1 <? List.length parts)%nat
             then p1 <- nth_error parts 1 ;; py_int p1
             else Some 0) with
      | None => strip value
      | Some month_num =>
          let abbr :=
            if (2 <? List.length parts)%nat then nth_error parts 2
            else dict_get Z.eqb MONTH_NUM_TO_ABBR month_num in
          let abbr :=
            match abbr with
            | Some a => a
            | None => dict_get_default Z.eqb MONTH_NUM_TO_ABBR month_num
                        (fmt02d month_num)
            end in
          year ++ sp ++ fmt02d month_num ++ sp ++ abbr
      end
  end.

(** [months.py], lines 80-88 *)
Definition parse_admedia_stored (value : str) : Z * Z :=
  let formatted := format_admedia_stored value in
  let parts := split_ws formatted in
  match (p0 <- nth_error parts 0 ;; year <- py_int p0 ;;
         p1 <- nth_error parts 1 ;; month_num <- py_int p1 ;;
         Some (year, month_num)) with
  | Some k => k
  | None => SENTINEL
  end.

(** [months.py], lines 91-93 *)
Definition sort_admedia_months (months : list str) : list str :=
  let formatted := map format_admedia_stored months in
  sorted parse_admedia_stored (dedupe_preserve_order formatted).

(** [months.py], lines 96-107 *)
Definition admedia_label_to_stored (label : str) : str :=
  let raw := strip label in
  if negb (contains "/" raw) then format_admedia_stored raw
  else
    match split "/" raw with
    | [month_abbr; year] =>
        match dict_get str_eqb MONTHS_ABBR (capitalize (strip month_abbr)) with
        | None => format_admedia_stored raw
        | Some month_num =>
            strip year ++ sp ++ fmt02d month_num ++ sp
              ++ capitalize (strip month_abbr)
        end
    | _ => format_admedia_stored raw
    end.

(** [months.py], lines 110-119 *)
Definition admedia_stored_to_label (value : str) : str :=
  let formatted := format_admedia_stored value in
  let parts := split_ws formatted in
  match (year <- nth_error parts 0 ;;
         p1 <- nth_error parts 1 ;;
         month_num <- py_int p1 ;;
         abbr <- (if (2 <? List.length parts)%nat then nth_error parts 2
                  else Some (dict_get_default Z.eqb MONTH_NUM_TO_ABBR month_num p1)) ;;
         Some (abbr ++ py "/" ++ year)) with
  | Some label => label
  | None => strip value
  end.

(** [months.py], lines 122-142: the loops of the two [normalize_*]
    functions append to [normalized]. *)
Definition normalize_admedia_step (normalized : list str) (value : str) : list str :=
  let raw := strip value in
  if is_empty raw then normalized
  else if contains "/" raw then normalized ++ [admedia_label_to_stored raw]
  else normalized ++ [format_admedia_stored raw].

Definition normalize_admedia_months (months : list str) : list str :=
  dedupe_preserve_order (fold_left normalize_admedia_step months []).

Definition normalize_instar_step (normalized : list str) (value : str) : list str :=
  let raw := strip value in
  if is_empty raw then normalized else normalized ++ [raw].

Definition normalize_instar_months (months : list str) : list str :=
  dedupe_preserve_order (fold_left normalize_instar_step months []).

End Months.

Import Months.

(* ================================================================= *)
(** ** Regular expressions, as [re.compile(...).match] uses them *)

Module Regex.

Inductive regex :=
| Void                         (* matches nothing *)
| Eps                          (* the empty string *)
| Class (p : ascii -> bool)    (* one character of a class *)
| Seq (r1 r2 : regex)
| Alt (r1 r2 : regex)
| Star (r : regex).

Definition Plus (r : regex) : regex := Seq r (Star r).

Fixpoint nullable (r : regex) : bool :=
  match r with
  | Void => false
  | Eps => true
  | Class _ => false
  | Seq r1 r2 => nullable r1 && nullable r2
  | Alt r1 r2 => nullable r1 || nullable r2
  | Star _ => true
  end.

(** Brzozowski derivative: what remains to be matched after [c]. *)
Fixpoint deriv (c : ascii) (r : regex) : regex :=
  match r with
  | Void => Void
  | Eps => Void
  | Class p => if p c then Eps else Void
  | Seq r1 r2 =>
      if nullable r1 then Alt (Seq (deriv c r1) r2) (deriv c r2)
      else Seq (deriv c r1) r2
  | Alt r1 r2 => Alt (deriv c r1) (deriv c r2)
  | Star r1 => Seq (deriv c r1) (Star r1)
  end.

Fixpoint accepts (r : regex) (s : str) : bool :=
  match s with
  | [] => nullable r
  | c :: t => accepts (deriv c r) t
  end.

(** The end anchor of Python: the end of the string, or just before a
    newline that ends it. *)
Definition Dollar : regex := Alt Eps (Class (Ascii.eqb "010")).

(** [re.compile("^" body "$").match(s) is not None] *)
Definition re_match (body : regex) (s : str) : bool :=
  accepts (Seq body Dollar) s.

End Regex.

(* ================================================================= *)
(** ** [app/services/bigquery_service.py] and the tail of [import_instar] *)

Module Service.

Import Regex.

Record Settings := {
  bigquery_project_id : option str;
  bigquery_location : option str;
  bigquery_credentials_path : option str;
  instar_project_id : option str;
  instar_dataset : str;
  instar_table : str;
  instar_month_column : str;
  admedia_project_id : option str;
  admedia_dataset : str;
  admedia_table : str;
  admedia_month_column : str
}.

Record TableConfig := {
  project_id : str;
  dataset : str;
  table : str;
  month_column : str
}.

Definition dot : str := ["."%char].

Definition fq_table (config : TableConfig) : str :=
  project_id config ++ dot ++ dataset config ++ dot ++ table config.

(** The text of an error, by the place that raises it, with the values
    interpolated into it. *)
Inductive message :=
| ProjectIdNotConfigured
| CredentialsNotLoaded (exc : str)
| InvalidTableReference
| ErrorDeletingMonths (fq : str) (exc : str)
| ErrorAppending (source destination : str) (exc : str)
| ErrorFetchingSchema (candidate : str) (exc : str)
| NoMonthSelected
| InvalidColumns (invalid : list str)
| ErrorExporting (fq : str) (exc : str)
| TableAlreadyExists
| ErrorLoadingFile (exc : str).

(** What a call to the Table Store can raise: a [GoogleAPICallError]
    ([NotFound] is one of them), with its [message] attribute and what
    [str] gives of it, or an exception of another class. *)
Inductive store_exn :=
| GoogleAPICallError (not_found : bool) (exc_message : str) (exc_str : str)
| OtherError (what : str).

(** [getattr(exc, "message", None) or str(exc)]: an empty message gives
    way to [str(exc)]. *)
Definition message_or_str (exc_message exc_str : str) : str :=
  if is_empty exc_message then exc_str else exc_message.

Inductive exn :=
| BigQueryServiceError (m : message)
| HTTPException (status_code : Z) (detail : message)
| StoreError (e : store_exn).

Inductive store_result (A : Type) :=
| Done (a : A)
| Failed (e : store_exn).
Arguments Done {A} a.
Arguments Failed {A} e.

Inductive result (A : Type) :=
| Ok (a : A)
| Raise (e : exn).
Arguments Ok {A} a.
Arguments Raise {A} e.

Record Client := {
  client_project : str;
  client_credentials : option str;
  client_location : option str
}.

Record SchemaField := { field_name : str; field_type : str }.

Record Table := { schema : list SchemaField; num_rows : option Z }.

Definition query_parameter : Type := str * list str.

(** The Table Store: the state of the warehouse and what its client's calls
    return.  Each call returns a value or raises, and leaves a new state. *)
Record TableStore := {
  Store : Type;
  Row : Type;
  DataFrame : Type;
  (* [client.query(q, job_config).result()]: the rows and
     [job.num_dml_affected_rows] *)
  store_query : str -> list query_parameter -> Store ->
                store_result (list Row * option Z) * Store;
  store_get_table : str -> Store -> store_result Table * Store;
  (* [client.load_table_from_dataframe(df, t, job_config).result()] with
     [WRITE_TRUNCATE] *)
  store_load_table : DataFrame -> str -> list SchemaField -> Store ->
                     store_result unit * Store;
  (* [client.delete_table(t, not_found_ok)] *)
  store_delete_table : str -> bool -> Store -> store_result unit * Store;
  store_has_table : Store -> str -> bool;
  (* [service_account.Credentials.from_service_account_file(path)]:
     the project of the credentials, or the text of the [OSError] *)
  credentials_file : str -> option str + str
}.

(** The calls sent to the Table Store. *)
Inductive store_call :=
| Query (query : str) (query_parameters : list query_parameter)
| GetTable (t : str)
| LoadTable (t : str)
| DeleteTable (t : str) (not_found_ok : bool).

Section Facade.

Variable TS : TableStore.
Variable settings : Settings.

(** What an operation can change: the cached client of the service, the
    store, and the trace of the calls the store has received (oldest
    first). *)
Record world := {
  self_client : option Client;
  store : Store TS;
  trace : list store_call
}.

Definition M (A : Type) : Type := world -> result A * world.

Definition ret {A : Type} (a : A) : M A := fun w => (Ok a, w).

Definition raise {A : Type} (e : exn) : M A := fun w => (Raise e, w).

Definition mbind {A B : Type} (m : M A) (k : A -> M B) : M B :=
  fun w => match m w with
           | (Ok a, w') => k a w'
           | (Raise e, w') => (Raise e, w')
           end.

Notation "x <-- m ;; k" := (mbind m (fun x => k))
  (at level 61, m at next level, right associativity).

(** [try: m  except ...: h e]; [h] answers [None] for the exceptions the
    [except] clauses do not name. *)
Definition try_except {A : Type} (m : M A) (h : exn -> option (M A)) : M A :=
  fun w => match m w with
           | (Ok a, w') => (Ok a, w')
           | (Raise e, w') =>
               match h e with
               | Some k => k w'
               | None => (Raise e, w')
               end
           end.

(** [try: m  finally: f] *)
Definition try_finally {A : Type} (m : M A) (f : M unit) : M A :=
  fun w => match m w with
           | (r, w') =>
               match f w' with
               | (Ok _, w'') => (r, w'')
               | (Raise e, w'') => (Raise e, w'')
               end
           end.

(** A call to the store, recorded in the trace. *)
Definition lift {A : Type} (r : store_result A) : result A :=
  match r with
  | Done a => Ok a
  | Failed e => Raise (StoreError e)
  end.

Definition call {A : Type} (c : store_call)
    (f : Store TS -> store_result A * Store TS) : M A :=
  fun w => let (r, s') := f (store w) in
           (lift r, {| self_client := self_client w; store := s';
                       trace := trace w ++ [c] |}).

Definition client_query (q : str) (ps : list query_parameter)
  : M (list (Row TS) * option Z) :=
  call (Query q ps) (store_query TS q ps).

Definition client_get_table (t : str) : M Table :=
  call (GetTable t) (store_get_table TS t).

Definition client_load_table_from_dataframe (df : DataFrame TS) (t : str)
    (sch : list SchemaField) : M unit :=
  call (LoadTable t) (store_load_table TS df t sch).

Definition client_delete_table (t : str) (not_found_ok : bool) : M unit :=
  call (DeleteTable t not_found_ok) (store_delete_table TS t not_found_ok).

(** Truth value of an optional string, and [a or b]. *)
Definition truthy (o : option str) : bool :=
  match o with Some (_ :: _) => true | _ => false end.

Definition py_or (a b : option str) : option str := if truthy a then a else b.

(** [bigquery_service.py], lines 47-69 *)
Definition _resolve_project_id (specific : option str) : M str :=
  match py_or specific (bigquery_project_id settings) with
  | Some (c :: p) => ret (c :: p)
  | _ => raise (BigQueryServiceError ProjectIdNotConfigured)
  end.

Definition _build_table_config (project : option str) (ds tbl col : str)
  : M TableConfig :=
  resolved_project <-- _resolve_project_id project ;;
  ret {| project_id := resolved_project; dataset := ds; table := tbl;
         month_column := col |}.

Definition set_client (c : Client) : M unit :=
  fun w => (Ok tt, {| self_client := Some c; store := store w;
                      trace := trace w |}).

(** [bigquery_service.py], lines 71-101.  The construction of the client
    itself is taken to succeed. *)
Definition _get_client : M Client :=
  fun w =>
    match self_client w with
    | Some c => (Ok c, w)
    | None =>
        (loaded <--
           (match bigquery_credentials_path settings with
            | Some (c :: p) =>
                match credentials_file TS (c :: p) with
                | inl cred_project =>
                    ret (Some (c :: p),
                         py_or (bigquery_project_id settings) cred_project)
                | inr exc =>
                    raise (BigQueryServiceError (CredentialsNotLoaded exc))
                end
            | _ => ret (None, bigquery_project_id settings)
            end) ;;
         match snd loaded with
         | Some (c :: p) =>
             let client :=
               {| client_project := c :: p;
                  client_credentials := fst loaded;
                  client_location :=
                    if truthy (bigquery_location settings)
                    then bigquery_location settings else None |} in
             _ <-- set_client client ;; ret client
         | _ => raise (BigQueryServiceError ProjectIdNotConfigured)
         end) w
    end.

(** [int(job.num_dml_affected_rows or 0)] *)
Definition affected_rows (n : option Z) : Z :=
  match n with Some k => k | None => 0 end.

Definition is_nil {A : Type} (l : list A) : bool :=
  match l with [] => true | _ => false end.

Definition months_parameter (months : list str) : query_parameter :=
  (py "months", months).

(** [bigquery_service.py], lines 141-160 *)
Definition _delete_months (config : TableConfig) (months : list str) : M Z :=
  if is_nil months then ret 0
  else
    client <-- _get_client ;;
    let query :=
      py "DELETE FROM `" ++ fq_table config ++ py "` " ++
      py "WHERE " ++ month_column config ++ py " IN UNNEST(@months)" in
    try_except
      (job <-- client_query query [months_parameter months] ;;
       ret (affected_rows (snd job)))
      (fun e => match e with
                | StoreError (GoogleAPICallError _ msg _) =>
                    Some (raise (BigQueryServiceError
                                   (ErrorDeletingMonths (fq_table config) msg)))
                | _ => None
                end).

Definition instar_config : M TableConfig :=
  _build_table_config (instar_project_id settings) (instar_dataset settings)
    (instar_table settings) (instar_month_column settings).

Definition admedia_config : M TableConfig :=
  _build_table_config (admedia_project_id settings) (admedia_dataset settings)
    (admedia_table settings) (admedia_month_column settings).

(** [bigquery_service.py], lines 162-180 *)
Definition delete_instar_months (months : list str) : M Z :=
  config <-- instar_config ;;
  let normalized := normalize_instar_months months in
  _delete_months config normalized.

Definition delete_admedia_months (months : list str) : M Z :=
  config <-- admedia_config ;;
  let normalized := normalize_admedia_months months in
  _delete_months config normalized.

Definition is_alnum (c : ascii) : bool := is_upper c || is_lower c || is_digit c.

(** [bigquery_service.py], line 182:
    [^[A-Za-z0-9\-]+\.[A-Za-z0-9_]+\.[A-Za-z0-9_\$]+$] *)
Definition project_char (c : ascii) : bool := is_alnum c || Ascii.eqb c "-".
Definition dataset_char (c : ascii) : bool := is_alnum c || Ascii.eqb c "_".
Definition table_char (c : ascii) : bool :=
  is_alnum c || Ascii.eqb c "_" || Ascii.eqb c "$".

Definition _TABLE_PATTERN : regex :=
  Seq (Plus (Class project_char))
    (Seq (Class (Ascii.eqb "."))
       (Seq (Plus (Class dataset_char))
          (Seq (Class (Ascii.eqb "."))
             (Plus (Class table_char))))).

(** [bigquery_service.py], lines 184-190 *)
Definition _validate_table_reference (tbl : str) : M str :=
  let candidate := strip tbl in
  if negb (re_match _TABLE_PATTERN candidate)
  then raise (BigQueryServiceError InvalidTableReference)
  else ret candidate.

Definition dataset_is_admedia (dataset_type : str) : bool :=
  str_eqb dataset_type (py "admedia").

Definition normalize_for (dataset_type : str) (months : list str) : list str :=
  if dataset_is_admedia dataset_type then normalize_admedia_months months
  else normalize_instar_months months.

(** [bigquery_service.py], lines 192-238 *)
Definition append_rows (source_table destination_table month_col : str)
    (months : option (list str)) (dataset_type : str) : M Z :=
  source <-- _validate_table_reference source_table ;;
  destination <-- _validate_table_reference destination_table ;;
  let normalized_months :=
    match months with
    | Some (m :: ms) => normalize_for dataset_type (m :: ms)
    | _ => []
    end in
  client <-- _get_client ;;
  let where_clause :=
    if is_nil normalized_months then []
    else py " WHERE " ++ month_col ++ py " IN UNNEST(@months)" in
  let query_parameters :=
    if is_nil normalized_months then []
    else [months_parameter normalized_months] in
  let query :=
    py "INSERT INTO `" ++ destination ++ py "` " ++
    py "SELECT * FROM `" ++ source ++ py "`" ++ where_clause in
  try_except
    (job <-- client_query query query_parameters ;;
     ret (affected_rows (snd job)))
    (fun e => match e with
              | StoreError (GoogleAPICallError _ msg text) =>
                  let message := message_or_str msg text in
                  Some (raise (BigQueryServiceError
                                 (ErrorAppending source destination message)))
              | _ => None
              end).

(** [bigquery_service.py], lines 240-250 *)
Definition list_columns (tbl : str) : M (list str) :=
  candidate <-- _validate_table_reference tbl ;;
  client <-- _get_client ;;
  try_except
    (table_obj <-- client_get_table candidate ;;
     ret (map field_name (schema table_obj)))
    (fun e => match e with
              | StoreError (GoogleAPICallError _ msg text) =>
                  let message := message_or_str msg text in
                  Some (raise (BigQueryServiceError
                                 (ErrorFetchingSchema candidate message)))
              | _ => None
              end).

(** [", ".join(f"`{col}`" for col in selected_columns)] *)
Fixpoint column_clause_of (cols : list str) : str :=
  match cols with
  | [] => []
  | [c] => py "`" ++ c ++ py "`"
  | c :: rest => py "`" ++ c ++ py "`" ++ py ", " ++ column_clause_of rest
  end.

(** [bigquery_service.py], lines 282-334 *)
Definition export_rows (config : TableConfig) (months : list str)
    (dataset_type : str) (selected_columns : option (list str))
  : M (list str * list (Row TS)) :=
  if is_nil months then raise (BigQueryServiceError NoMonthSelected)
  else
    client <-- _get_client ;;
    let normalized_months := normalize_for dataset_type months in
    available_columns <-- list_columns (fq_table config) ;;
    cols <--
      (match selected_columns with
       | Some (c :: cs) =>
           let invalid :=
             filter (fun col => negb (mem col available_columns)) (c :: cs) in
           if negb (is_nil invalid)
           then raise (BigQueryServiceError (InvalidColumns invalid))
           else ret (column_clause_of (c :: cs), c :: cs)
       | _ => ret (py "*", available_columns)
       end) ;;
    let column_clause := fst cols in
    let fieldnames := snd cols in
    let query :=
      py "SELECT " ++ column_clause ++ py " FROM `" ++ fq_table config ++ py "` " ++
      py "WHERE " ++ month_column config ++ py " IN UNNEST(@months) " ++
      py "ORDER BY " ++ month_column config in
    try_except
      (job <-- client_query query [months_parameter normalized_months] ;;
       ret (fieldnames, fst job))
      (fun e => match e with
                | StoreError (GoogleAPICallError _ msg _) =>
                    Some (raise (BigQueryServiceError
                                   (ErrorExporting (fq_table config) msg)))
                | _ => None
                end).

(** *** [import_instar], from the point where the upload has been read,
    checked against the schema of the destination and coerced
    ([client = service.get_client()] onwards). *)

Record TableImportResponse := {
  table_name : str;
  temp_table : str;
  rows_imported : Z
}.

Definition HTTP_400_BAD_REQUEST : Z := 400.

Definition temp_table_of (config : TableConfig) (sanitized_name : str) : str :=
  project_id config ++ dot ++ dataset config ++ dot ++ sanitized_name.

(** The body of the last [try]: the merge into the destination. *)
Definition merge_temp_table (config : TableConfig) (temp_table : str) : M Z :=
  try_except
    (append_rows temp_table (fq_table config) (month_column config)
       (Some []) (py "instar"))
    (fun e => match e with
              | BigQueryServiceError m =>
                  Some (raise (HTTPException HTTP_400_BAD_REQUEST m))
              | _ => None
              end).

(** Its [finally] clause: the temporary table is deleted, and a
    [GoogleAPICallError] of the deletion is passed over. *)
Definition drop_temp_table (temp_table : str) : M unit :=
  try_except
    (client_delete_table temp_table true)
    (fun e => match e with
              | StoreError (GoogleAPICallError _ _ _) => Some (ret tt)
              | _ => None
              end).

(** [main.py], lines 275-320 *)
Definition import_instar_load_and_merge (config : TableConfig)
    (sanitized_name : str) (dataframe : DataFrame TS)
    (sch : list SchemaField) : M TableImportResponse :=
  client <-- _get_client ;;
  let temp_table := temp_table_of config sanitized_name in
  _ <-- (fun w =>
           match client_get_table temp_table w with
           | (Raise (StoreError (GoogleAPICallError true _ _)), w') =>
               (Ok tt, w')
           | (Raise e, w') => (Raise e, w')
           | (Ok _, w') =>
               (Raise (HTTPException HTTP_400_BAD_REQUEST TableAlreadyExists),
                w')
           end) ;;
  _ <-- try_except
          (client_load_table_from_dataframe dataframe temp_table sch)
          (fun e => match e with
                    | StoreError (GoogleAPICallError _ msg text) =>
                        let message := message_or_str msg text in
                        Some (raise (HTTPException HTTP_400_BAD_REQUEST
                                       (ErrorLoadingFile message)))
                    | _ => None
                    end) ;;
  rows_appended <--
    try_finally (merge_temp_table config temp_table)
                (drop_temp_table temp_table) ;;
  ret {| table_name := fq_table config; temp_table := temp_table;
         rows_imported := rows_appended |}.

End Facade.

Arguments self_client {TS} w.
Arguments store {TS} w.
Arguments trace {TS} w.

End Service.

Import Service.

(* ================================================================= *)
(** ** Two small Table Stores, to run the operations on *)

Module Sim.

(** The state of the store is the list of the tables that exist. *)
Definition drop (t : str) (tables : list str) : list str :=
  filter (fun u => negb (str_eqb t u)) tables.

Definition sim_query (q : str) (ps : list query_parameter) (tables : list str)
  : store_result (list unit * option Z) * list str :=
  (Done ([], Some 0), tables).

Definition sim_get_table (t : str) (tables : list str)
  : store_result Table * list str :=
  if mem t tables then (Done {| schema := []; num_rows := Some 0 |}, tables)
  else (Failed (GoogleAPICallError true (py "Not found") (py "404 Not found")),
        tables).

Definition sim_load_table (df : unit) (t : str) (sch : list SchemaField)
    (tables : list str) : store_result unit * list str :=
  (Done tt, t :: tables).

Definition sim_delete_table (t : str) (not_found_ok : bool)
    (tables : list str) : store_result unit * list str :=
  if mem t tables || not_found_ok then (Done tt, drop t tables)
  else (Failed (GoogleAPICallError true (py "Not found") (py "404 Not found")),
        tables).

(** A store that answers every call. *)
Definition SimStore : TableStore := {|
  Store := list str;
  Row := unit;
  DataFrame := unit;
  store_query := sim_query;
  store_get_table := sim_get_table;
  store_load_table := sim_load_table;
  store_delete_table := sim_delete_table;
  store_has_table := fun tables t => mem t tables;
  credentials_file := fun _ => inr (py "No such file")
|}.


(** The settings as the application's defaults leave them: no project. *)
Definition default_settings : Settings := {|
  bigquery_project_id := None;
  bigquery_location := None;
  bigquery_credentials_path := None;
  instar_project_id := None;
  instar_dataset := py "bayer";
  instar_table := py "instar_historico";
  instar_month_column := py "Mes_Anio";
  admedia_project_id := None;
  admedia_dataset := py "bayer";
  admedia_table := py "admedia_historico";
  admedia_month_column := py "Mes"
|}.

(** The same with [GCP_PROJECT_ID] set. *)
Definition project_settings : Settings := {|
  bigquery_project_id := Some (py "proj");
  bigquery_location := None;
  bigquery_credentials_path := None;
  instar_project_id := None;
  instar_dataset := py "bayer";
  instar_table := py "instar_historico";
  instar_month_column := py "Mes_Anio";
  admedia_project_id := None;
  admedia_dataset := py "bayer";
  admedia_table := py "admedia_historico";
  admedia_month_column := py "Mes"
|}.

Definition instar_table_config : TableConfig := {|
  project_id := py "proj";
  dataset := py "bayer";
  table := py "instar_historico";
  month_column := py "Mes_Anio"
|}.

(** A world with no client yet, no call sent, and the given tables. *)
Definition start (TS : TableStore) (tables : Store TS) : world TS := {|
  self_client := None;
  store := tables;
  trace := []
|}.

End Sim.

(* ================================================================= *)
(** ** The vocabulary of the properties *)

Module Vocabulary.

Import Regex.

(** *** Strings *)

(** The result of [strip] is empty or has no white space at either end. *)
Inductive trimmed : str -> Prop :=
| trimmed_nil : trimmed []
| trimmed_one c : is_space c = false -> trimmed [c]
| trimmed_more c t d :
    is_space c = false -> is_space d = false -> trimmed (c :: t ++ [d]).

Definition no_space (w : str) : Prop :=
  Forall (fun c => is_space c = false) w.

Definition free_of (sep : ascii) (s : str) : Prop :=
  Forall (fun c => Ascii.eqb c sep = false) s.

Definition all_digits (s : str) : Prop :=
  Forall (fun c => is_digit c = true) s.

Definition all_in (p : ascii -> bool) (s : str) : Prop :=
  Forall (fun c => p c = true) s.

(** Equal up to the case of the ASCII letters. *)
Definition eq_nocase (a b : str) : Prop := map to_lower a = map to_lower b.

(** *** Month values *)

(** The parts [format_admedia_stored] works on: the value trimmed, its
    dashes turned into spaces, split at white space. *)
Definition admedia_parts (value : str) : list str :=
  filter (fun part => negb (is_empty part))
    (split_ws (replace "-" " " (strip value))).

(** The abbreviation chosen for a month number when the value has none. *)
Definition default_abbr (month_num : Z) : str :=
  dict_get_default Z.eqb MONTH_NUM_TO_ABBR month_num (fmt02d month_num).

(** A part: not empty, no white space, no dash. *)
Definition clean (w : str) : Prop :=
  w <> [] /\ no_space w /\ free_of "-" w.

(** The month of a name, in 1..12, whatever the case of its letters. *)
Definition month_of_name (t : str) (month : Z) : Prop :=
  exists name,
    nth_error MONTHS_FULL (Z.to_nat (month - 1)) = Some name /\
    1 <= month <= 12 /\ eq_nocase t name.

(** [label] is a month name, a slash and a year: the name and the year are
    read with the white space around each removed, the name without regard
    to case, the year as [int] reads it. *)
Definition valid_instar_label (label : str) (year month : Z) : Prop :=
  exists mes anio,
    label = mes ++ py "/" ++ anio /\ free_of "/" mes /\ free_of "/" anio /\
    month_of_name (strip mes) month /\ py_int (strip anio) = Some year.

(** The first two parts of the formatted value read as integers. *)
Definition admedia_key (value : str) (year month : Z) : Prop :=
  exists p0 p1 rest,
    split_ws (format_admedia_stored value) = p0 :: p1 :: rest /\
    py_int p0 = Some year /\ py_int p1 = Some month.

Definition VALID_ABBREVIATIONS : list str := map fst MONTHS_ABBR.

(** A label [Abbr/Year]: one of the twelve abbreviations, a slash, and a
    year written in digits. *)
Definition well_formed_admedia_label (x : str) : Prop :=
  exists abbr year,
    In abbr VALID_ABBREVIATIONS /\ year <> [] /\ all_digits year /\
    x = abbr ++ py "/" ++ year.

Definition nonempty (s : str) : bool := negb (is_empty s).

(** The stored form of a trimmed value: labels (with a slash) through
    [admedia_label_to_stored], the others through [format_admedia_stored]. *)
Definition admedia_canonical (raw : str) : str :=
  if contains "/" raw then admedia_label_to_stored raw
  else format_admedia_stored raw.

(** *** Order *)

Definition key_lt (a b : Z * Z) : Prop :=
  fst a < fst b \/ (fst a = fst b /\ snd a < snd b).

(** [x] may stand before [y] in a list sorted by [key]. *)
Definition key_le (key : str -> Z * Z) (x y : str) : Prop :=
  ~ key_lt (key y) (key x).

(** [x] stands before [y] in [l]. *)
Definition before (x y : str) (l : list str) : Prop :=
  exists l1 l2 l3, l = l1 ++ x :: l2 ++ y :: l3.

(** Every value with the sentinel key stands after every value with
    another key. *)
Definition unknown_last (key : str -> Z * Z) (out : list str) : Prop :=
  forall x y, In x out -> In y out ->
    key x <> SENTINEL -> key y = SENTINEL -> before x y out.

(** *** Regular languages *)

Inductive Lang : regex -> str -> Prop :=
| LEps : Lang Eps []
| LClass p c : p c = true -> Lang (Class p) [c]
| LSeq r1 r2 s1 s2 : Lang r1 s1 -> Lang r2 s2 -> Lang (Seq r1 r2) (s1 ++ s2)
| LAltL r1 r2 s : Lang r1 s -> Lang (Alt r1 r2) s
| LAltR r1 r2 s : Lang r2 s -> Lang (Alt r1 r2) s
| LStarNil r : Lang (Star r) []
| LStarCons r c s1 s2 :
    Lang r (c :: s1) -> Lang (Star r) s2 -> Lang (Star r) (c :: s1 ++ s2).

(** *** Table references *)

(** The characters the error message of [_validate_table_reference]
    names. *)
Definition allowed_char (c : ascii) : bool :=
  is_alnum c || Ascii.eqb c "_" || Ascii.eqb c "-" || Ascii.eqb c "$".

(** [project.dataset.table], made of allowed characters only. *)
Definition fully_qualified_name (s : str) : Prop :=
  exists p d t,
    s = p ++ dot ++ d ++ dot ++ t /\
    (p <> [] /\ all_in allowed_char p) /\
    (d <> [] /\ all_in allowed_char d) /\
    (t <> [] /\ all_in allowed_char t).

(** What the pattern accepts: the dash only in the project, the underscore
    only in the dataset and the table, the dollar only in the table. *)
Definition table_reference (s : str) : Prop :=
  exists p d t,
    s = p ++ dot ++ d ++ dot ++ t /\
    (p <> [] /\ all_in project_char p) /\
    (d <> [] /\ all_in dataset_char d) /\
    (t <> [] /\ all_in table_char t).

(** *** Operations *)

Definition invalid_table_reference {TS : TableStore} {A : Type}
    (w : world TS) : result A * world TS :=
  (Raise (BigQueryServiceError InvalidTableReference), w).

(** The project of a dataset, or the general one, is configured. *)
Definition project_resolves (settings : Settings) (specific : option str)
  : bool :=
  truthy (py_or specific (bigquery_project_id settings)).

(** Every exception the operation can raise satisfies [P]. *)
Definition raises_only {TS : TableStore} {A : Type} (P : exn -> Prop)
    (m : M TS A) : Prop :=
  forall w e w', m w = (Raise e, w') -> P e.

(** The error raised for an empty month list is raised for no other. *)
Definition not_month_error (e : exn) : Prop :=
  e <> BigQueryServiceError NoMonthSelected.

(** The columns asked for, when there are some. *)
Definition requested (sel : option (list str)) : list str :=
  match sel with Some l => l | None => [] end.

End Vocabulary.

Import Vocabulary.

(* ================================================================= *)
(** ** Order and selection in lists of values *)

Module Notions.

(** [a] is [b] with some values left out, the others in the same order. *)
Inductive subseq : list str -> list str -> Prop :=
| subseq_nil : subseq [] []
| subseq_skip x a b : subseq a b -> subseq a (x :: b)
| subseq_keep x a b : subseq a b -> subseq (x :: a) (x :: b).

(** Sorted by [key], as [sorted] leaves a list. *)
Definition sorted_by (key : str -> Z * Z) (l : list str) : Prop :=
  StronglySorted (key_le key) l.

Definition key_eqb (a b : Z * Z) : bool :=
  (fst a =? fst b) && (snd a =? snd b).

(** The values of [l] whose key is [k], in the order of [l]. *)
Definition with_key (key : str -> Z * Z) (k : Z * Z) (l : list str)
  : list str :=
  filter (fun v => key_eqb (key v) k) l.

Definition all_space (s : str) : Prop :=
  Forall (fun c => is_space c = true) s.

(** The value is what [strip] returns for it, and is not empty. *)
Definition tidy (v : str) : Prop := v <> [] /\ strip v = v.

End Notions.

Import Notions.

(* ================================================================= *)
(** ** Two more stores *)

Module MoreSim.

Import Sim.

(** A store whose load fails, with an exception whose message is empty. *)
Definition LoadFailsStore : TableStore := {|
  Store := list str;
  Row := unit;
  DataFrame := unit;
  store_query := sim_query;
  store_get_table := sim_get_table;
  store_load_table :=
    fun _ _ _ tables =>
      (Failed (GoogleAPICallError false [] (py "400 ")), tables);
  store_delete_table := sim_delete_table;
  store_has_table := fun tables t => mem t tables;
  credentials_file := fun _ => inr (py "No such file")
|}.

(** A store whose tables all have the columns [A] and [B]. *)
Definition TwoColumnStore : TableStore := {|
  Store := list str;
  Row := unit;
  DataFrame := unit;
  store_query := sim_query;
  store_get_table :=
    fun _ tables =>
      (Done {| schema := [{| field_name := py "A"; field_type := py "STRING" |};
                          {| field_name := py "B"; field_type := py "STRING" |}];
               num_rows := Some 0 |}, tables);
  store_load_table := sim_load_table;
  store_delete_table := sim_delete_table;
  store_has_table := fun tables t => mem t tables;
  credentials_file := fun _ => inr (py "No such file")
|}.

End MoreSim.

Import MoreSim.

(* ================================================================= *)
(** ** [app/main.py]: the checks of [import_instar] on the upload *)

Module Upload.

Import Regex.

Definition name_char (c : ascii) : bool := is_alnum c || Ascii.eqb c "_".

(** [main.py], line 33: [^[A-Za-z0-9_]+$] *)
Definition TABLE_NAME_PATTERN : regex := Plus (Class name_char).

(** [main.py], lines 34-37 *)
Definition ALLOWED_EXCEL_CONTENT_TYPES : list str :=
  [py "application/vnd.openxmlformats-officedocument.spreadsheetml.sheet";
   py "application/vnd.ms-excel"].

(** The 400 errors of these checks, by the place that raises them. *)
Inductive upload_error :=
| TableNameMissing
| TableNameInvalid
| NotAnExcelFile
| FileEmpty.

(** [main.py], lines 185-202: the name of the temporary table, the content
    type of the file and its bytes; the name is returned trimmed. *)
Definition check_upload (table_name : str) (content_type : option str)
    (content : list Init.Byte.byte) : upload_error + str :=
  let sanitized_name := strip table_name in
  if is_empty sanitized_name then inl TableNameMissing
  else if negb (re_match TABLE_NAME_PATTERN sanitized_name)
  then inl TableNameInvalid
  else if negb (match content_type with
                | Some t => mem t ALLOWED_EXCEL_CONTENT_TYPES
                | None => false
                end)
  then inl NotAnExcelFile
  else if is_nil content then inl FileEmpty
  else inr sanitized_name.

Inductive columns_error :=
| MissingColumns (missing : list str)
| UnknownColumns (extra : list str).

(** [main.py], lines 215-232: the names of the columns of the upload (each
    the [str] of a column label) against those of the schema; the names
    are returned trimmed. *)
Definition check_columns (expected_columns columns : list str)
  : columns_error + list str :=
  let columns := map strip columns in
  let missing :=
    filter (fun column => negb (mem column columns)) expected_columns in
  let extra :=
    filter (fun column => negb (mem column expected_columns)) columns in
  if negb (is_nil missing) then inl (MissingColumns missing)
  else if negb (is_nil extra) then inl (UnknownColumns extra)
  else inr columns.

End Upload.

Import Upload.

(* ================================================================= *)
(** ** [app/services/bigquery_service.py]: the operations that read *)

Module Reads.

(** The texts of the errors these operations add to those above. *)
Inductive read_message :=
| ErrorFetchingMonths (fq : str) (exc : str)
| ErrorReadingSchema (candidate : str) (exc : str)
| TableNotAccessible (candidate : str)
| ErrorQueryingTable (candidate : str) (exc : str).

(** What they raise: an exception of the operations above, or a
    [BigQueryServiceError] with one of these texts. *)
Inductive read_exn :=
| Earlier (e : exn)
| BigQueryServiceErrorOf (m : read_message).

Inductive read_result (A : Type) :=
| Returned (a : A)
| Raised (e : read_exn).
Arguments Returned {A} a.
Arguments Raised {A} e.

(** A value of the month column in a row of a result: [None], a string, or
    a value of another type, given by its [str]. *)
Inductive cell :=
| NoneCell
| StrCell (s : str)
| OtherCell (text : str).

Record TableInfo := { info_table : str; row_count : Z }.

Section Reads.

Variable TS : TableStore.
Variable settings : Settings.

(** [row["month_value"]] *)
Variable month_value : Row TS -> cell.

Definition R (A : Type) : Type := world TS -> read_result A * world TS.

Definition earlier {A : Type} (m : M TS A) : R A :=
  fun w => match m w with
           | (Ok a, w') => (Returned a, w')
           | (Raise e, w') => (Raised (Earlier e), w')
           end.

Definition rbind {A B : Type} (m : R A) (k : A -> R B) : R B :=
  fun w => match m w with
           | (Returned a, w') => k a w'
           | (Raised e, w') => (Raised e, w')
           end.

Notation "x <=- m ;; k" := (rbind m (fun x => k))
  (at level 61, m at next level, right associativity).

(** [try: m  except GoogleAPICallError as exc: raise
    BigQueryServiceError(text)], with an [except NotFound] clause before it
    when [not_found] is given; [text] is made from [exc.message] and
    [str(exc)]. *)
Definition wrapped {A : Type} (m : M TS A) (not_found : option read_message)
    (text : str -> str -> read_message) : R A :=
  fun w => match m w with
           | (Ok a, w') => (Returned a, w')
           | (Raise (StoreError (GoogleAPICallError nf msg exc_text)), w') =>
               match nf, not_found with
               | true, Some m' => (Raised (BigQueryServiceErrorOf m'), w')
               | _, _ =>
                   (Raised (BigQueryServiceErrorOf (text msg exc_text)), w')
               end
           | (Raise e, w') => (Raised (Earlier e), w')
           end.

(** The values of the rows that are not [None]. *)
Definition not_none (c : cell) : bool :=
  match c with NoneCell => false | _ => true end.

(** [bigquery_service.py], lines 103-117 *)
Definition _fetch_distinct_months (config : TableConfig) : R (list cell) :=
  client <=- earlier (_get_client TS settings) ;;
  let query :=
    py "SELECT DISTINCT " ++ month_column config ++ py " AS month_value " ++
    py "FROM `" ++ fq_table config ++ py "` " ++
    py "WHERE " ++ month_column config ++ py " IS NOT NULL" in
  wrapped
    (mbind TS (client_query TS query [])
       (fun job => ret TS (filter not_none (map month_value (fst job)))))
    None (fun exc_message _ =>
            ErrorFetchingMonths (fq_table config) exc_message).

(** [isinstance(value, str)] *)
Definition strings (values : list cell) : list str :=
  flat_map (fun c => match c with StrCell s => [s] | _ => [] end) values.

(** [str(value)] *)
Definition texts (values : list cell) : list str :=
  flat_map (fun c => match c with
                     | StrCell s => [s]
                     | OtherCell t => [t]
                     | NoneCell => [py "None"]
                     end) values.

(** [bigquery_service.py], lines 119-128 *)
Definition fetch_instar_months : R (list str) :=
  config <=- earlier (instar_config TS settings) ;;
  raw_values <=- _fetch_distinct_months config ;;
  let filtered := strings raw_values in
  fun w => (Returned (sort_instar_months filtered), w).

(** [bigquery_service.py], lines 130-139 *)
Definition fetch_admedia_months : R (list str) :=
  config <=- earlier (admedia_config TS settings) ;;
  raw_values <=- _fetch_distinct_months config ;;
  let normalized := normalize_admedia_months (texts raw_values) in
  fun w => (Returned (sort_admedia_months normalized), w).

(** [bigquery_service.py], lines 252-262 *)
Definition get_table_schema (tbl : str) : R (list SchemaField) :=
  candidate <=- earlier (_validate_table_reference TS tbl) ;;
  client <=- earlier (_get_client TS settings) ;;
  wrapped
    (mbind TS (client_get_table TS candidate)
       (fun table_obj => ret TS (schema table_obj)))
    None (fun exc_message exc_text =>
            ErrorReadingSchema candidate
              (message_or_str exc_message exc_text)).

(** [bigquery_service.py], lines 267-280 *)
Definition get_table_info (tbl : str) : R TableInfo :=
  candidate <=- earlier (_validate_table_reference TS tbl) ;;
  client <=- earlier (_get_client TS settings) ;;
  table_obj <=- wrapped (client_get_table TS candidate)
                  (Some (TableNotAccessible candidate))
                  (fun exc_message exc_text =>
                     ErrorQueryingTable candidate
                       (message_or_str exc_message exc_text)) ;;
  fun w => (Returned {| info_table := candidate;
                        row_count := affected_rows (num_rows table_obj) |},
            w).

End Reads.

End Reads.

Import Reads.

Module ReadSim.

Import Sim.

(** [str(value)] of the values that are not [None]. *)
Definition cell_text (c : cell) : option str :=
  match c with
  | NoneCell => None
  | StrCell s => Some s
  | OtherCell t => Some t
  end.

(** A store whose rows are the values of their month column, and whose
    queries all answer the same five rows. *)
Definition MonthStore : TableStore := {|
  Store := list str;
  Row := cell;
  DataFrame := unit;
  store_query :=
    fun _ _ tables =>
      (Done ([StrCell (py "Marzo/2024"); NoneCell; StrCell (py "Enero/2024");
              OtherCell (py "7"); StrCell (py "Marzo/2024")], None), tables);
  store_get_table := sim_get_table;
  store_load_table := sim_load_table;
  store_delete_table := sim_delete_table;
  store_has_table := fun tables t => mem t tables;
  credentials_file := fun _ => inr (py "No such file")
|}.

(** A store that finds no table, and says so with an exception whose
    message is empty. *)
Definition MuteStore : TableStore := {|
  Store := list str;
  Row := unit;
  DataFrame := unit;
  store_query := sim_query;
  store_get_table :=
    fun _ tables => (Failed (GoogleAPICallError true [] (py "404 ")), tables);
  store_load_table := sim_load_table;
  store_delete_table := sim_delete_table;
  store_has_table := fun tables t => mem t tables;
  credentials_file := fun _ => inr (py "No such file")
|}.

End ReadSim.

Import ReadSim.

(* ================================================================= *)
(** ** Facts about the string primitives *)

Module PyStrFacts.

Ltac char_cases c :=
  destruct c as [[] [] [] [] [] [] [] []]; vm_compute;
  intros; try reflexivity; try discriminate; try tauto.

Lemma digit_not_space c : is_digit c = true -> is_space c = false.
Proof. char_cases c. Qed.

Lemma digit_not_int_space c : is_digit c = true -> is_int_space c = false.
Proof. char_cases c. Qed.

Lemma digit_not_dash c : is_digit c = true -> Ascii.eqb c "-" = false.
Proof. char_cases c. Qed.

Lemma digit_not_plus c : is_digit c = true -> Ascii.eqb c "+" = false.
Proof. char_cases c. Qed.

Lemma digit_not_underscore c : is_digit c = true -> Ascii.eqb c "_" = false.
Proof. char_cases c. Qed.

Lemma digit_not_slash c : is_digit c = true -> Ascii.eqb c "/" = false.
Proof. char_cases c. Qed.

Lemma digit_val_nonneg c : is_digit c = true -> 0 <= digit_val c.
Proof. char_cases c. Qed.

Lemma int_space_is_space c : is_int_space c = true -> is_space c = true.
Proof. char_cases c. Qed.

(** *** [strip] *)

Lemma lstrip_head c t : is_space c = false -> lstrip (c :: t) = c :: t.
Proof. intros H. simpl. now rewrite H. Qed.

Lemma lstrip_idem s : lstrip (lstrip s) = lstrip s.
Proof.
  induction s as [|c t IH]; simpl; [reflexivity|].
  destruct (is_space c) eqn:E; [exact IH|]. simpl. now rewrite E.
Qed.

Lemma lstrip_app_head u c v :
  is_space c = false ->
  exists u', lstrip (u ++ c :: v) = u' ++ c :: v /\ lstrip u = u'.
Proof.
  intros H. induction u as [|a u IH]; simpl.
  - exists []. now rewrite H.
  - destruct (is_space a); [exact IH|]. now exists (a :: u).
Qed.

Lemma rstrip_idem s : rstrip (rstrip s) = rstrip s.
Proof. unfold rstrip. now rewrite rev_involutive, lstrip_idem. Qed.

Lemma rstrip_cons_head c t :
  is_space c = false -> rstrip (c :: t) = c :: rstrip t.
Proof.
  intros H. unfold rstrip. simpl.
  destruct (lstrip_app_head (rev t) c [] H) as (u' & E1 & E2).
  rewrite E1, <- E2, rev_app_distr. reflexivity.
Qed.

Lemma lstrip_length u : (List.length (lstrip u) <= List.length u)%nat.
Proof.
  induction u as [|a u IH]; simpl; [lia|].
  destruct (is_space a); simpl; lia.
Qed.

Lemma lstrip_rstrip s : lstrip s = s -> lstrip (rstrip s) = rstrip s.
Proof.
  destruct s as [|c t]; [reflexivity|].
  simpl. destruct (is_space c) eqn:E.
  - intros H. exfalso.
    pose proof (lstrip_length t) as L. rewrite H in L. simpl in L. lia.
  - intros _. rewrite rstrip_cons_head by exact E. now apply lstrip_head.
Qed.

Lemma strip_idem s : strip (strip s) = strip s.
Proof.
  unfold strip.
  rewrite (lstrip_rstrip (lstrip s)) by apply lstrip_idem.
  apply rstrip_idem.
Qed.

Lemma rstrip_last t c : is_space c = false -> rstrip (t ++ [c]) = t ++ [c].
Proof.
  intros H. unfold rstrip. rewrite rev_app_distr. simpl. rewrite H.
  simpl. now rewrite rev_involutive.
Qed.

(** A string that neither starts nor ends with white space is its own
    [strip]. *)
Lemma strip_trimmed c t d :
  is_space c = false -> is_space d = false ->
  strip (c :: t ++ [d]) = c :: t ++ [d].
Proof.
  intros Hc Hd. unfold strip. rewrite lstrip_head by exact Hc.
  change (c :: t ++ [d]) with ((c :: t) ++ [d]). now apply rstrip_last.
Qed.

Lemma strip_single c : is_space c = false -> strip [c] = [c].
Proof.
  intros H. unfold strip. rewrite lstrip_head by exact H.
  now apply (rstrip_last []).
Qed.

Lemma trimmed_strip s : trimmed s -> strip s = s.
Proof.
  intros [|c H|c t d Hc Hd]; [reflexivity|now apply strip_single|].
  now apply strip_trimmed.
Qed.

Lemma lstrip_nil_or_head s :
  lstrip s = [] \/ exists c t, lstrip s = c :: t /\ is_space c = false.
Proof.
  induction s as [|c t IH]; simpl; [now left|].
  destruct (is_space c) eqn:E; [exact IH|]. right. now exists c, t.
Qed.

Lemma strip_is_trimmed s : trimmed (strip s).
Proof.
  unfold strip.
  destruct (lstrip_nil_or_head s) as [E | (c & t & E & Hc)]; rewrite E.
  - constructor.
  - rewrite rstrip_cons_head by exact Hc.
    unfold rstrip.
    destruct (lstrip_nil_or_head (rev t)) as [E' | (d & u & E' & Hd)];
      rewrite E'; simpl.
    + now constructor.
    + now constructor.
Qed.


(** *** [split()] *)

Lemma words_run w rest :
  no_space w ->
  words (w ++ rest) = (w ++ fst (words rest), snd (words rest)).
Proof.
  induction 1 as [|c w Hc _ IH]; simpl.
  - now destruct (words rest).
  - rewrite IH, Hc. reflexivity.
Qed.

Lemma split_ws_run w : no_space w -> w <> [] -> split_ws w = [w].
Proof.
  intros H Hne. unfold split_ws.
  rewrite <- (app_nil_r w) at 1. rewrite (words_run w [] H). simpl.
  rewrite app_nil_r. destruct w; [contradiction|reflexivity].
Qed.

Lemma split_ws_space c rest :
  is_space c = true -> split_ws (c :: rest) = split_ws rest.
Proof.
  intros H. unfold split_ws. simpl. destruct (words rest) as [w ws].
  now rewrite H.
Qed.

Lemma split_ws_run_space w c rest :
  no_space w -> w <> [] -> is_space c = true ->
  split_ws (w ++ c :: rest) = w :: split_ws rest.
Proof.
  intros H Hne Hc. unfold split_ws at 1. rewrite (words_run w _ H).
  simpl. fold (split_ws rest).
  destruct (words rest) as [w' ws'] eqn:E. rewrite Hc. simpl.
  rewrite app_nil_r. unfold split_ws. rewrite E.
  destruct w; [contradiction|reflexivity].
Qed.

(** Every part is a non-empty run without white space, made of characters
    of the string. *)
Lemma words_parts (P : ascii -> Prop) s :
  Forall P s ->
  Forall P (fst (words s)) /\ no_space (fst (words s)) /\
  Forall (fun w => w <> [] /\ no_space w /\ Forall P w) (snd (words s)).
Proof.
  induction 1 as [|c t Hc _ IH]; simpl.
  - repeat split; constructor.
  - destruct (words t) as [w ws]. simpl in IH.
    destruct IH as (IH1 & IH2 & IH3).
    destruct (is_space c) eqn:E; simpl.
    + repeat split; try constructor.
      destruct w as [|a w]; simpl; [exact IH3|].
      constructor; [|exact IH3]. repeat split; [discriminate|exact IH2|exact IH1].
    + repeat split; try (constructor; assumption). exact IH3.
Qed.

Lemma split_ws_parts (P : ascii -> Prop) s :
  Forall P s ->
  Forall (fun w => w <> [] /\ no_space w /\ Forall P w) (split_ws s).
Proof.
  intros H. destruct (words_parts P s H) as (H1 & H2 & H3).
  unfold split_ws. destruct (words s) as [w ws]. simpl in *.
  destruct w as [|a w]; simpl; [exact H3|].
  constructor; [|exact H3]. repeat split; [discriminate|exact H2|exact H1].
Qed.

Lemma filter_nonempty_parts s :
  filter (fun part => negb (is_empty part)) (split_ws s) = split_ws s.
Proof.
  pose proof (split_ws_parts (fun _ => True) s) as H.
  assert (HT : Forall (fun _ : ascii => True) s) by (apply Forall_forall; auto).
  specialize (H HT). clear HT.
  induction H as [|w l (Hne & _) _ IH]; simpl; [reflexivity|].
  destruct w; [contradiction|]. simpl. now rewrite IH.
Qed.

(** *** [replace] *)

Lemma replace_none a b s :
  Forall (fun c => Ascii.eqb c a = false) s -> replace a b s = s.
Proof.
  unfold replace. induction 1 as [|c t Hc _ IH]; simpl; [reflexivity|].
  rewrite Hc. now f_equal.
Qed.

Lemma replace_dash_free s :
  Forall (fun c => Ascii.eqb c "-" = false) (replace "-" " " s).
Proof.
  unfold replace. induction s as [|c t IH]; simpl; constructor; [|exact IH].
  destruct (Ascii.eqb c "-") eqn:E; [reflexivity|exact E].
Qed.

(** *** [split(sep)] *)

Lemma fields_run sep a rest :
  free_of sep a ->
  fields sep (a ++ rest) = (a ++ fst (fields sep rest), snd (fields sep rest)).
Proof.
  induction 1 as [|c t Hc _ IH]; simpl.
  - now destruct (fields sep rest).
  - rewrite IH, Hc. reflexivity.
Qed.

Lemma split_free sep a : free_of sep a -> split sep a = [a].
Proof.
  intros H. unfold split. rewrite <- (app_nil_r a) at 1.
  rewrite (fields_run sep a [] H). simpl. now rewrite app_nil_r.
Qed.

Lemma split_app sep a rest :
  free_of sep a -> split sep (a ++ sep :: rest) = a :: split sep rest.
Proof.
  intros H. unfold split. rewrite (fields_run sep a _ H). simpl.
  destruct (fields sep rest) as [w ws]. rewrite Ascii.eqb_refl. simpl.
  now rewrite app_nil_r.
Qed.

Lemma fields_free sep s : free_of sep (fst (fields sep s)).
Proof.
  induction s as [|c t IH]; simpl; [constructor|].
  destruct (fields sep t) as [w ws]. simpl in IH.
  destruct (Ascii.eqb c sep) eqn:E; simpl; constructor; assumption.
Qed.

(** [split] undoes [join]: the string is its fields joined by [sep], and no
    field contains [sep]. *)
Lemma fields_join sep s :
  s = join sep (fst (fields sep s) :: snd (fields sep s)) /\
  Forall (free_of sep) (snd (fields sep s)).
Proof.
  induction s as [|c t IH]; simpl; [split; [reflexivity|constructor]|].
  pose proof (fields_free sep t) as Hf.
  destruct (fields sep t) as [w ws]. simpl in IH, Hf. destruct IH as [IH1 IH2].
  destruct (Ascii.eqb c sep) eqn:E; simpl.
  - apply Ascii.eqb_eq in E. subst c. split.
    + f_equal. exact IH1.
    + constructor; assumption.
  - split; [|exact IH2]. destruct ws; simpl in *; now f_equal.
Qed.

(** Exactly two fields: one separator, between them. *)
Lemma split_two sep s a b :
  split sep s = [a; b] <->
  s = a ++ sep :: b /\ free_of sep a /\ free_of sep b.
Proof.
  split.
  - unfold split. intros H.
    pose proof (fields_join sep s) as [J1 J2].
    pose proof (fields_free sep s) as J3.
    destruct (fields sep s) as [w ws]. simpl in *.
    injection H as -> ->. simpl in J1.
    inversion J2; subst. auto.
  - intros (-> & Ha & Hb). rewrite split_app by exact Ha.
    now rewrite split_free.
Qed.

Lemma contains_free sep s : contains sep s = false <-> free_of sep s.
Proof.
  unfold contains, free_of. induction s as [|c t IH]; simpl.
  - split; [constructor|reflexivity].
  - rewrite orb_false_iff, IH, (Ascii.eqb_sym sep c). split.
    + intros [H1 H2]. now constructor.
    + intros H. inversion H; subst. now split.
Qed.


(** *** [int] and [f"{n:02d}"] *)

Lemma digit_char_spec d :
  0 <= d < 10 ->
  is_digit (digit_char d) = true /\ digit_val (digit_char d) = d.
Proof.
  intros H.
  assert (C : d = 0 \/ d = 1 \/ d = 2 \/ d = 3 \/ d = 4 \/ d = 5 \/ d = 6
              \/ d = 7 \/ d = 8 \/ d = 9) by lia.
  repeat (destruct C as [-> | C]; [split; reflexivity|]).
  subst d. split; reflexivity.
Qed.

Lemma digits_fuel_all_digits fuel : forall n tail,
  0 <= n -> all_digits tail -> all_digits (digits_fuel fuel n tail).
Proof.
  induction fuel as [|f IH]; intros n tail Hn Ht; simpl; [exact Ht|].
  destruct (n <? 10) eqn:E.
  - apply Z.ltb_lt in E. constructor; [|exact Ht].
    apply digit_char_spec. lia.
  - apply IH.
    + apply Z.div_pos; lia.
    + constructor; [|exact Ht]. apply digit_char_spec.
      apply Z.mod_pos_bound. lia.
Qed.

Lemma digits_fuel_length fuel : forall n tail,
  (List.length tail <= List.length (digits_fuel fuel n tail))%nat.
Proof.
  induction fuel as [|f IH]; intros n tail; simpl; [lia|].
  destruct (n <? 10); simpl; [lia|].
  specialize (IH (n / 10) (digit_char (n mod 10) :: tail)). simpl in IH. lia.
Qed.

Lemma digits_fuel_value fuel : forall n tail,
  0 <= n < 2 ^ Z.of_nat fuel ->
  fold_left digit_step (digits_fuel fuel n tail) 0 =
  fold_left digit_step tail n.
Proof.
  induction fuel as [|f IH]; intros n tail Hn.
  - simpl in *. assert (n = 0) by lia. now subst.
  - simpl digits_fuel. destruct (n <? 10) eqn:E.
    + apply Z.ltb_lt in E. simpl. unfold digit_step at 2.
      destruct (digit_char_spec n) as [_ ->]; [lia|]. reflexivity.
    + apply Z.ltb_ge in E. rewrite IH.
      * simpl. unfold digit_step at 2.
        destruct (digit_char_spec (n mod 10)) as [_ ->].
        { apply Z.mod_pos_bound. lia. }
        f_equal. pose proof (Z.div_mod n 10). lia.
      * rewrite Nat2Z.inj_succ, Z.pow_succ_r in Hn by lia.
        split; [apply Z.div_pos; lia|].
        apply Z.div_lt_upper_bound; lia.
Qed.

Lemma decimal_fuel n : 0 <= n -> n < 2 ^ Z.of_nat (S (Z.to_nat (Z.log2 n))).
Proof.
  intros Hn. rewrite Nat2Z.inj_succ, Z2Nat.id by apply Z.log2_nonneg.
  destruct (Z.eq_dec n 0) as [->|Hz]; [reflexivity|].
  apply Z.log2_spec. lia.
Qed.

Lemma decimal_value n : 0 <= n -> fold_left digit_step (decimal n) 0 = n.
Proof.
  intros Hn. unfold decimal. rewrite digits_fuel_value; [reflexivity|].
  split; [exact Hn|now apply decimal_fuel].
Qed.

Lemma decimal_all_digits n : 0 <= n -> all_digits (decimal n).
Proof. intros Hn. apply digits_fuel_all_digits; [exact Hn|constructor]. Qed.

Lemma decimal_nonempty n : decimal n <> [].
Proof.
  unfold decimal. simpl. destruct (n <? 10); [discriminate|].
  intros E.
  pose proof (digits_fuel_length (Z.to_nat (Z.log2 n)) (n / 10)
                [digit_char (n mod 10)]) as L.
  rewrite E in L. simpl in L. lia.
Qed.

Lemma fmt02d_all_digits n : 0 <= n -> all_digits (fmt02d n).
Proof.
  intros Hn. unfold fmt02d.
  destruct (n <? 0) eqn:E; [apply Z.ltb_lt in E; lia|].
  destruct (n <? 10); [constructor; [reflexivity|]|]; now apply decimal_all_digits.
Qed.

Lemma fmt02d_nonempty n : fmt02d n <> [].
Proof.
  unfold fmt02d. destruct (n <? 0); [discriminate|].
  destruct (n <? 10); [discriminate|]. apply decimal_nonempty.
Qed.

Lemma int_digits_all s : forall acc,
  all_digits s -> int_digits acc false s = Some (fold_left digit_step s acc).
Proof.
  induction s as [|c t IH]; intros acc H; simpl; [reflexivity|].
  inversion H as [|? ? Hc Ht]; subst.
  rewrite (digit_not_underscore c Hc), Hc. now apply IH.
Qed.

Lemma int_lskip_head c t : is_int_space c = false -> int_lskip (c :: t) = c :: t.
Proof. intros H. simpl. now rewrite H. Qed.

Lemma int_lskip_digits s : all_digits s -> int_lskip s = s.
Proof.
  intros [|c t Hc _]; [reflexivity|].
  apply int_lskip_head. now apply digit_not_int_space.
Qed.

Lemma int_literal_digits s :
  s <> [] -> all_digits s -> int_literal s = Some (fold_left digit_step s 0).
Proof.
  intros Hne H. unfold int_literal.
  rewrite (int_lskip_digits s H).
  rewrite (int_lskip_digits (rev s)) by now apply Forall_rev.
  rewrite rev_involutive.
  destruct s as [|c t]; [contradiction|].
  inversion H as [|? ? Hc Ht]; subst.
  rewrite (digit_not_dash c Hc), (digit_not_plus c Hc).
  unfold int_unsigned. rewrite (digit_not_underscore c Hc).
  now apply int_digits_all.
Qed.

(** Reading back what [f"{n:02d}"] prints. *)
Lemma int_literal_fmt02d n : 0 <= n -> int_literal (fmt02d n) = Some n.
Proof.
  intros Hn.
  rewrite int_literal_digits
    by (apply fmt02d_nonempty || now apply fmt02d_all_digits).
  f_equal. unfold fmt02d.
  destruct (n <? 0) eqn:E; [apply Z.ltb_lt in E; lia|].
  destruct (n <? 10); simpl; now apply decimal_value.
Qed.

(** [int] reads the literal, or raises. *)
Lemma py_int_cases s : py_int s = int_literal s \/ py_int s = None.
Proof.
  unfold py_int. destruct (default_max_str_digits <? str_digits s); auto.
Qed.

Lemma py_int_literal s m : py_int s = Some m -> int_literal s = Some m.
Proof.
  intros H. destruct (py_int_cases s) as [E|E]; rewrite E in H;
    [exact H|discriminate].
Qed.

Lemma py_int_long s : default_max_str_digits < str_digits s -> py_int s = None.
Proof. intros H. unfold py_int. apply Z.ltb_lt in H. now rewrite H. Qed.

Lemma py_int_short s :
  str_digits s <= default_max_str_digits -> py_int s = int_literal s.
Proof. intros H. unfold py_int. apply Z.ltb_ge in H. now rewrite H. Qed.

Lemma filter_all_digits s : all_digits s -> filter is_digit s = s.
Proof.
  induction 1 as [|c t Hc _ IH]; simpl; [reflexivity|].
  rewrite Hc. now f_equal.
Qed.

(** The length of what [digits_fuel] prints. *)
Lemma digits_fuel_short fuel : forall n tail k,
  1 <= k -> 0 <= n < 10 ^ k ->
  Z.of_nat (List.length (digits_fuel fuel n tail)) <= k + Z.of_nat (List.length tail).
Proof.
  induction fuel as [|f IH]; intros n tail k Hk Hn; simpl digits_fuel.
  - lia.
  - destruct (n <? 10) eqn:E.
    + simpl List.length. lia.
    + apply Z.ltb_ge in E.
      assert (Hk2 : 2 <= k).
      { destruct (Z.eq_dec k 1) as [->|]; [|lia]. simpl in Hn. lia. }
      specialize (IH (n / 10) (digit_char (n mod 10) :: tail) (k - 1)).
      simpl List.length in IH. rewrite Nat2Z.inj_succ in IH.
      assert (Hp : 10 ^ k = 10 * 10 ^ (k - 1)).
      { rewrite <- Z.pow_succ_r by lia. f_equal. lia. }
      assert (Hq : 0 <= n / 10 < 10 ^ (k - 1)).
      { split; [apply Z.div_pos; lia|].
        apply Z.div_lt_upper_bound; lia. }
      specialize (IH ltac:(lia) Hq). lia.
Qed.

Lemma fmt02d_short n :
  0 <= n < 10 ^ default_max_str_digits ->
  str_digits (fmt02d n) <= default_max_str_digits.
Proof.
  intros Hn. unfold str_digits.
  rewrite filter_all_digits by (apply fmt02d_all_digits; lia).
  unfold fmt02d.
  destruct (n <? 0) eqn:E; [apply Z.ltb_lt in E; lia|].
  destruct (n <? 10) eqn:E10.
  - unfold decimal. simpl digits_fuel. rewrite E10. discriminate.
  - unfold decimal.
    pose proof (digits_fuel_short (S (Z.to_nat (Z.log2 n))) n []
                  default_max_str_digits) as H.
    simpl List.length in H. rewrite Z.add_0_r in H.
    apply H; [discriminate|exact Hn].
Qed.

(** A number of at most [default_max_str_digits] digits is read back. *)
Lemma py_int_fmt02d n :
  0 <= n < 10 ^ default_max_str_digits -> py_int (fmt02d n) = Some n.
Proof.
  intros Hn. rewrite py_int_short by now apply fmt02d_short.
  apply int_literal_fmt02d. lia.
Qed.

(** Read back or not, the number printed is the only one read. *)
Lemma py_int_fmt02d_cases n :
  0 <= n -> py_int (fmt02d n) = Some n \/ py_int (fmt02d n) = None.
Proof.
  intros Hn. destruct (py_int_cases (fmt02d n)) as [E|E]; [left|now right].
  rewrite E. now apply int_literal_fmt02d.
Qed.

Lemma int_digits_nonneg s : forall acc b m,
  0 <= acc -> int_digits acc b s = Some m -> 0 <= m.
Proof.
  induction s as [|c t IH]; intros acc b m Ha; simpl.
  - destruct b; [discriminate|]. now intros [= <-].
  - destruct (Ascii.eqb c "_").
    + destruct b; [discriminate|]. now apply IH.
    + destruct (is_digit c) eqn:Hc; [|discriminate].
      apply IH. unfold digit_step. pose proof (digit_val_nonneg c Hc). lia.
Qed.

Lemma int_unsigned_nonneg s m : int_unsigned s = Some m -> 0 <= m.
Proof.
  destruct s as [|c t]; simpl; [discriminate|].
  destruct (Ascii.eqb c "_"); [discriminate|].
  destruct (is_digit c) eqn:Hc; [|discriminate].
  apply int_digits_nonneg. unfold digit_step.
  pose proof (digit_val_nonneg c Hc). lia.
Qed.

Lemma int_lskip_incl s c : In c (int_lskip s) -> In c s.
Proof.
  induction s as [|a t IH]; simpl; [auto|].
  destruct (is_int_space a); [auto|]. simpl. auto.
Qed.

(** Without a minus sign, [int] cannot return a negative number. *)
Lemma py_int_nonneg s m : free_of "-" s -> py_int s = Some m -> 0 <= m.
Proof.
  intros Hs Hm. apply py_int_literal in Hm. revert Hm. unfold int_literal.
  destruct (rev (int_lskip (rev (int_lskip s)))) as [|c r] eqn:E; [discriminate|].
  assert (Hc : In c s).
  { apply int_lskip_incl. apply in_rev. apply int_lskip_incl. apply in_rev.
    rewrite E. now left. }
  unfold free_of in Hs. rewrite Forall_forall in Hs. rewrite (Hs c Hc).
  destruct (Ascii.eqb c "+"); apply int_unsigned_nonneg.
Qed.

End PyStrFacts.

Import PyStrFacts.

(* ================================================================= *)
(** ** The month normaliser *)

Module MonthsFacts.

Arguments strip : simpl never.
Arguments split_ws : simpl never.
Arguments split : simpl never.
Arguments replace : simpl never.
Arguments py_int : simpl never.
Arguments fmt02d : simpl never.
Arguments dict_get : simpl never.

Lemma all_digits_clean s : s <> [] -> all_digits s -> clean s.
Proof.
  intros Hne H. repeat split; [exact Hne| |].
  - eapply Forall_impl; [|exact H]. apply digit_not_space.
  - eapply Forall_impl; [|exact H]. apply digit_not_dash.
Qed.

Lemma fmt02d_clean n : 0 <= n -> clean (fmt02d n).
Proof.
  intros Hn. apply all_digits_clean;
    [apply fmt02d_nonempty|now apply fmt02d_all_digits].
Qed.

Lemma admedia_parts_clean value : Forall clean (admedia_parts value).
Proof.
  unfold admedia_parts. rewrite filter_nonempty_parts.
  eapply Forall_impl;
    [|apply (split_ws_parts (fun c => Ascii.eqb c "-" = false));
      apply replace_dash_free].
  intros w (H1 & H2 & H3). now repeat split.
Qed.

Lemma month_abbr_clean m a :
  dict_get Z.eqb MONTH_NUM_TO_ABBR m = Some a -> clean a.
Proof.
  cbv [dict_get MONTH_NUM_TO_ABBR MONTHS_ABBR map fst snd].
  repeat (match goal with
          | |- (if ?b then _ else _) = _ -> _ => destruct b
          end;
          [intros [= <-]; repeat split;
           [discriminate|repeat constructor|repeat constructor]|]).
  discriminate.
Qed.

Lemma default_abbr_clean m : 0 <= m -> clean (default_abbr m).
Proof.
  intros Hm. unfold default_abbr, dict_get_default.
  destruct (dict_get Z.eqb MONTH_NUM_TO_ABBR m) as [a|] eqn:E.
  - now apply (month_abbr_clean m).
  - now apply fmt02d_clean.
Qed.

(** [format_admedia_stored] by cases on the parts of the value. *)
Lemma format_by_parts value :
  format_admedia_stored value =
  match admedia_parts value with
  | [] => strip value
  | [year] => year ++ sp ++ fmt02d 0 ++ sp ++ fmt02d 0
  | year :: p1 :: rest =>
      match py_int p1 with
      | None => strip value
      | Some month_num =>
          year ++ sp ++ fmt02d month_num ++ sp ++
          match rest with
          | [] => default_abbr month_num
          | p2 :: _ => p2
          end
      end
  end.
Proof.
  unfold format_admedia_stored, admedia_parts.
  destruct (filter _ _) as [|year [|p1 [|p2 rest]]]; simpl; try reflexivity.
  - destruct (py_int p1) as [m|]; [|reflexivity].
    unfold default_abbr, dict_get_default.
    now destruct (dict_get Z.eqb MONTH_NUM_TO_ABBR m).
Qed.

Lemma format_strip value :
  format_admedia_stored (strip value) = format_admedia_stored value.
Proof. unfold format_admedia_stored. now rewrite strip_idem. Qed.

Lemma strip_between w1 mid w2 :
  clean w1 -> clean w2 -> strip (w1 ++ mid ++ w2) = w1 ++ mid ++ w2.
Proof.
  intros (N1 & S1 & _) (N2 & S2 & _).
  destruct w1 as [|c y]; [contradiction|].
  destruct (exists_last N2) as (a & d & ->).
  inversion S1; subst.
  apply Forall_app in S2 as [_ Sd]. inversion Sd; subst.
  replace ((c :: y) ++ mid ++ a ++ [d]) with (c :: (y ++ mid ++ a) ++ [d])
    by (simpl; now rewrite <- !app_assoc).
  now apply strip_trimmed.
Qed.

Lemma strip_three w1 w2 w3 :
  clean w1 -> clean w3 ->
  strip (w1 ++ sp ++ w2 ++ sp ++ w3) = w1 ++ sp ++ w2 ++ sp ++ w3.
Proof.
  intros H1 H3. pose proof (strip_between w1 (sp ++ w2 ++ sp) w3 H1 H3) as E.
  rewrite <- !app_assoc in E. exact E.
Qed.

Lemma split_ws_three w1 w2 w3 :
  clean w1 -> clean w2 -> clean w3 ->
  split_ws (w1 ++ sp ++ w2 ++ sp ++ w3) = [w1; w2; w3].
Proof.
  intros (N1 & S1 & _) (N2 & S2 & _) (N3 & S3 & _). unfold sp. simpl.
  rewrite split_ws_run_space by (assumption || reflexivity).
  rewrite split_ws_run_space by (assumption || reflexivity).
  now rewrite split_ws_run.
Qed.

Lemma dash_free_three w1 w2 w3 :
  clean w1 -> clean w2 -> clean w3 ->
  free_of "-" (w1 ++ sp ++ w2 ++ sp ++ w3).
Proof.
  intros (_ & _ & D1) (_ & _ & D2) (_ & _ & D3). unfold free_of in *.
  repeat (apply Forall_app; split); try assumption; now repeat constructor.
Qed.

(** A canonical value is a fixed point of [format_admedia_stored]. *)
Lemma format_canonical year m abbr :
  clean year -> 0 <= m -> clean abbr ->
  format_admedia_stored (year ++ sp ++ fmt02d m ++ sp ++ abbr) =
  year ++ sp ++ fmt02d m ++ sp ++ abbr.
Proof.
  intros Hy Hm Ha. pose proof (fmt02d_clean m Hm) as Hf.
  rewrite format_by_parts. unfold admedia_parts.
  rewrite strip_three by assumption.
  rewrite replace_none by now apply dash_free_three.
  rewrite filter_nonempty_parts, split_ws_three by assumption.
  destruct (py_int_fmt02d_cases m Hm) as [E|E]; now rewrite E.
Qed.

(** The value is returned trimmed, or in canonical form. *)
Lemma format_cases value :
  format_admedia_stored value = strip value \/
  exists year m abbr,
    clean year /\ 0 <= m /\ clean abbr /\
    format_admedia_stored value = year ++ sp ++ fmt02d m ++ sp ++ abbr.
Proof.
  rewrite format_by_parts. pose proof (admedia_parts_clean value) as H.
  destruct (admedia_parts value) as [|year [|p1 rest]]; [now left| |].
  - right. exists year, 0, (fmt02d 0). inversion H; subst.
    split; [assumption|]. split; [lia|].
    split; [now apply fmt02d_clean|reflexivity].
  - inversion H as [|? ? Hy H']; subst. inversion H' as [|? ? Hp Hr]; subst.
    destruct (py_int p1) as [m|] eqn:E; [|now left].
    assert (Hm : 0 <= m) by (apply (py_int_nonneg p1); [apply Hp|exact E]).
    right.
    exists year, m, (match rest with [] => default_abbr m | p2 :: _ => p2 end).
    split; [exact Hy|]. split; [exact Hm|]. split; [|reflexivity].
    destruct rest as [|p2 rest'].
    + now apply default_abbr_clean.
    + inversion Hr; subst. assumption.
Qed.


(** *** Letter case *)

Lemma str_eqb_eq a b : str_eqb a b = true <-> a = b.
Proof.
  unfold str_eqb. destruct (list_eq_dec ascii_dec a b); split; congruence.
Qed.

Lemma str_eqb_refl a : str_eqb a a = true.
Proof. now apply str_eqb_eq. Qed.

Lemma to_lower_upper c : to_lower (to_upper c) = to_lower c.
Proof. char_cases c. Qed.

Lemma to_upper_lower c : to_upper (to_lower c) = to_upper c.
Proof. char_cases c. Qed.

Lemma capitalize_eq_nocase a b : capitalize a = capitalize b <-> eq_nocase a b.
Proof.
  unfold eq_nocase.
  destruct a as [|x a], b as [|y b]; simpl; try (split; discriminate);
    [tauto|].
  split; intros [= H1 H2]; f_equal; try assumption.
  - now rewrite <- (to_lower_upper x), H1, to_lower_upper.
  - now rewrite <- (to_upper_lower x), H1, to_upper_lower.
Qed.

Lemma months_full_capitalized name :
  In name MONTHS_FULL -> capitalize name = name.
Proof.
  unfold MONTHS_FULL. simpl.
  intros H. repeat (destruct H as [<- | H]; [reflexivity|]). contradiction.
Qed.

Lemma months_full_lookup t month :
  dict_get str_eqb MONTHS_FULL_INDEX (capitalize t) = Some month <->
  month_of_name t month.
Proof.
  unfold month_of_name. split.
  - cbv [dict_get MONTHS_FULL_INDEX MONTHS_FULL enumerate_from map fst snd].
    repeat (match goal with
            | |- (if ?b then _ else _) = _ -> _ => destruct b eqn:E
            end;
            [intros [= <-]; apply str_eqb_eq in E;
             eexists; split; [reflexivity|]; split; [lia|];
             apply capitalize_eq_nocase; now rewrite <- E|clear E]).
    discriminate.
  - intros (name & Hn & Hm & He).
    apply capitalize_eq_nocase in He.
    assert (C : month = 1 \/ month = 2 \/ month = 3 \/ month = 4 \/ month = 5
                \/ month = 6 \/ month = 7 \/ month = 8 \/ month = 9
                \/ month = 10 \/ month = 11 \/ month = 12) by lia.
    repeat (destruct C as [-> | C];
            [injection Hn as <-; rewrite He; reflexivity|]).
    subst month. injection Hn as <-. rewrite He. reflexivity.
Qed.

(** *** [dedupe_preserve_order] *)

Lemma mem_In x l : mem x l = true <-> In x l.
Proof.
  unfold mem. rewrite existsb_exists. split.
  - intros (y & Hy & E). apply str_eqb_eq in E. now subst.
  - intros H. exists x. split; [exact H|apply str_eqb_refl].
Qed.

Lemma dedupe_state l :
  let st := fold_left dedupe_step l ([], []) in
  (forall x, In x (fst st) <-> In x l) /\
  (forall x, In x (snd st) <-> In x l) /\ NoDup (snd st).
Proof.
  induction l as [|v l IH] using rev_ind; simpl.
  - repeat split; auto; constructor.
  - rewrite fold_left_app. simpl in *.
    destruct (fold_left dedupe_step l ([], [])) as [seen ordered].
    simpl in *. destruct IH as (I1 & I2 & I3).
    destruct (mem v seen) eqn:E; simpl.
    + apply mem_In, I1 in E.
      split; [|split]; [| |exact I3]; intros x; rewrite in_app_iff; simpl;
        [rewrite I1|rewrite I2];
        (split; [tauto|intros [H | [<- | []]]; assumption]).
    + assert (Hv : ~ In v l).
      { intros H. apply I1, mem_In in H. congruence. }
      split; [|split].
      * intros x. simpl. rewrite in_app_iff, I1. simpl. tauto.
      * intros x. rewrite !in_app_iff, I2. tauto.
      * apply NoDup_app; [exact I3|repeat constructor; auto|].
        intros x Hx [<- | []]. apply Hv. now apply I2.
Qed.

Lemma dedupe_NoDup l : NoDup (dedupe_preserve_order l).
Proof. apply (dedupe_state l). Qed.

Lemma dedupe_In l x : In x (dedupe_preserve_order l) <-> In x l.
Proof. apply (dedupe_state l). Qed.

(** A value is appended when it is seen for the first time. *)
Lemma dedupe_snoc l x :
  dedupe_preserve_order (l ++ [x]) =
  if mem x l then dedupe_preserve_order l else dedupe_preserve_order l ++ [x].
Proof.
  unfold dedupe_preserve_order. rewrite fold_left_app. simpl.
  destruct (dedupe_state l) as (I1 & _ & _).
  destruct (fold_left dedupe_step l ([], [])) as [seen ordered].
  simpl in *.
  assert (E : mem x seen = mem x l).
  { apply eq_true_iff_eq. now rewrite !mem_In. }
  rewrite E. now destruct (mem x l).
Qed.

(** *** [normalize_admedia_months], [normalize_instar_months] *)

Lemma normalize_admedia_loop months : forall acc,
  fold_left normalize_admedia_step months acc =
  acc ++ map admedia_canonical (filter nonempty (map strip months)).
Proof.
  induction months as [|v l IH]; intros acc; simpl.
  - now rewrite app_nil_r.
  - rewrite IH. unfold normalize_admedia_step, nonempty, admedia_canonical.
    destruct (is_empty (strip v)); simpl; [reflexivity|].
    destruct (contains "/" (strip v)); now rewrite <- app_assoc.
Qed.

Lemma normalize_instar_loop months : forall acc,
  fold_left normalize_instar_step months acc =
  acc ++ filter nonempty (map strip months).
Proof.
  induction months as [|v l IH]; intros acc; simpl.
  - now rewrite app_nil_r.
  - rewrite IH. unfold normalize_instar_step, nonempty.
    destruct (is_empty (strip v)); simpl; [reflexivity|].
    now rewrite <- app_assoc.
Qed.


(** *** [sorted] *)

Lemma key_ltb_lt a b : key_ltb a b = true <-> key_lt a b.
Proof.
  unfold key_ltb, key_lt.
  rewrite orb_true_iff, andb_true_iff, !Z.ltb_lt, Z.eqb_eq. tauto.
Qed.

Lemma key_ltb_ge a b : key_ltb a b = false <-> ~ key_lt a b.
Proof. rewrite <- key_ltb_lt. now destruct (key_ltb a b). Qed.

Section SortedFacts.
Variable key : str -> Z * Z.

Lemma key_le_trans x y z : key_le key x y -> key_le key y z -> key_le key x z.
Proof. unfold key_le, key_lt. lia. Qed.

Lemma insert_In x l z : In z (insert key x l) <-> z = x \/ In z l.
Proof.
  induction l as [|y l IH]; simpl; [intuition congruence|].
  destruct (key_ltb (key y) (key x)); simpl; [rewrite IH|];
    intuition congruence.
Qed.

Lemma insert_sorted x l :
  StronglySorted (key_le key) l -> StronglySorted (key_le key) (insert key x l).
Proof.
  induction 1 as [|y l Hs IH Hy]; simpl.
  - repeat constructor.
  - destruct (key_ltb (key y) (key x)) eqn:E.
    + apply key_ltb_lt in E. constructor; [exact IH|].
      apply Forall_forall. intros z Hz. apply insert_In in Hz as [-> | Hz].
      * unfold key_le, key_lt in *. lia.
      * rewrite Forall_forall in Hy. now apply Hy.
    + apply key_ltb_ge in E. constructor; [now constructor|].
      constructor; [exact E|].
      eapply Forall_impl; [|exact Hy]. intros z Hz.
      now apply (key_le_trans x y z).
Qed.

Lemma sorted_sorted l : StronglySorted (key_le key) (sorted key l).
Proof.
  induction l as [|x l IH]; simpl; [constructor|now apply insert_sorted].
Qed.

Lemma sorted_In l z : In z (sorted key l) <-> In z l.
Proof.
  induction l as [|x l IH]; simpl; [tauto|].
  rewrite insert_In, IH. intuition congruence.
Qed.

Lemma strongly_sorted_after l1 y l2 :
  StronglySorted (key_le key) (l1 ++ y :: l2) -> Forall (key_le key y) l2.
Proof.
  induction l1 as [|a l1 IH]; simpl; intros H; inversion H; subst; auto.
Qed.

(** In the sorted list nothing with a smaller key comes after [y]. *)
Lemma sorted_after l l1 y l2 x :
  sorted key l = l1 ++ y :: l2 -> In x l2 -> ~ key_lt (key x) (key y).
Proof.
  intros E Hx. pose proof (sorted_sorted l) as H. rewrite E in H.
  apply strongly_sorted_after in H. rewrite Forall_forall in H.
  now apply H.
Qed.
End SortedFacts.

(** *** [parse_instar_label] *)

Lemma parse_instar_label_valid label year month :
  valid_instar_label label year month ->
  parse_instar_label label = (year, month).
Proof.
  intros (mes & anio & -> & Hm & Ha & Hn & Hy).
  unfold parse_instar_label. simpl.
  rewrite split_app by exact Hm. rewrite split_free by exact Ha.
  apply months_full_lookup in Hn. now rewrite Hn, Hy.
Qed.

Lemma parse_instar_label_cases label :
  (exists year month, valid_instar_label label year month) \/
  parse_instar_label label = SENTINEL.
Proof.
  unfold parse_instar_label.
  destruct (split "/" label) as [|mes [|anio [|x l]]] eqn:E; try now right.
  apply split_two in E as (-> & Hm & Ha).
  destruct (dict_get _ _ _) as [month|] eqn:Em; [|now right].
  destruct (py_int (strip anio)) as [year|] eqn:Ey; [|now right].
  left. exists year, month, mes, anio.
  apply months_full_lookup in Em. now repeat split.
Qed.

(** *** [parse_admedia_stored] *)

Lemma parse_admedia_stored_cases value :
  (exists year month, admedia_key value year month /\
                      parse_admedia_stored value = (year, month)) \/
  ((forall year month, ~ admedia_key value year month) /\
   parse_admedia_stored value = SENTINEL).
Proof.
  unfold parse_admedia_stored, admedia_key.
  destruct (split_ws (format_admedia_stored value)) as [|p0 [|p1 rest]];
    simpl.
  - right. split; [|reflexivity]. intros y m (? & ? & ? & [=] & _).
  - right. split; [|now destruct (py_int p0)].
    intros y m (? & ? & ? & [=] & _).
  - destruct (py_int p0) as [y|] eqn:E0; simpl.
    + destruct (py_int p1) as [m|] eqn:E1; simpl.
      * left. exists y, m. split; [|reflexivity]. now exists p0, p1, rest.
      * right. split; [|reflexivity].
        intros y' m' (? & ? & ? & [= <- <- <-] & _ & H). congruence.
    + right. split; [|reflexivity].
      intros y' m' (? & ? & ? & [= <- <- <-] & H & _). congruence.
Qed.

End MonthsFacts.

Import MonthsFacts.

(* ================================================================= *)
(** ** Properties of the month normaliser *)

Lemma valid_abbreviation abbr :
  In abbr VALID_ABBREVIATIONS ->
  clean abbr /\ free_of "/" abbr /\ strip abbr = abbr /\
  capitalize abbr = abbr /\
  exists m, dict_get str_eqb MONTHS_ABBR abbr = Some m /\ 0 <= m <= 12.
Proof.
  unfold VALID_ABBREVIATIONS, MONTHS_ABBR. simpl. intros H.
  repeat (destruct H as [<- | H];
          [split; [repeat split; [discriminate|repeat constructor..]|];
           split; [repeat constructor|];
           split; [reflexivity|]; split; [reflexivity|];
           eexists; split; [reflexivity|lia]|]).
  contradiction.
Qed.

Lemma label_to_stored_well_formed abbr year :
  In abbr VALID_ABBREVIATIONS -> year <> [] -> all_digits year ->
  exists m, 0 <= m <= 12 /\
    admedia_label_to_stored (abbr ++ py "/" ++ year) =
    year ++ sp ++ fmt02d m ++ sp ++ abbr.
Proof.
  intros Ha Hne Hd.
  destruct (valid_abbreviation abbr Ha) as (Hc & Hf & Hs & Hcap & m & Hm & Hpos).
  pose proof (all_digits_clean year Hne Hd) as Hy.
  assert (Hfy : free_of "/" year).
  { eapply Forall_impl; [|exact Hd]. apply digit_not_slash. }
  exists m. split; [exact Hpos|].
  unfold admedia_label_to_stored.
  rewrite (strip_between abbr (py "/") year Hc Hy).
  assert (E : contains "/" (abbr ++ py "/" ++ year) = true).
  { unfold contains. rewrite existsb_app. simpl. apply orb_true_r. }
  rewrite E. simpl negb. cbv iota.
  change (abbr ++ py "/" ++ year) with (abbr ++ "/"%char :: year).
  rewrite split_app by exact Hf. rewrite split_free by exact Hfy.
  rewrite Hs, Hcap, Hm.
  replace (strip year) with year; [reflexivity|].
  symmetry. destruct Hy as (_ & Hsp & _).
  destruct year as [|c y]; [contradiction|].
  destruct (exists_last (l := c :: y)) as (a & d & E'); [discriminate|].
  rewrite E' in *. apply Forall_app in Hsp as [Ha' Hd'].
  inversion Hd'; subst.
  destruct a as [|c' a]; [now apply strip_single|].
  inversion Ha'; subst. now apply strip_trimmed.
Qed.

(** The number of a month has few digits. *)
Lemma month_short m :
  0 <= m <= 12 -> 0 <= m < 10 ^ default_max_str_digits.
Proof.
  intros Hm. unfold default_max_str_digits.
  assert (H : 10 ^ 2 <= 10 ^ 4300)
    by (apply Z.pow_le_mono_r; [reflexivity|discriminate]).
  change (10 ^ 2) with 100 in H.
  set (limit := 10 ^ 4300) in *. clearbody limit. lia.
Qed.

Lemma stored_to_label_canonical year m abbr :
  clean year -> 0 <= m < 10 ^ default_max_str_digits -> clean abbr ->
  admedia_stored_to_label (year ++ sp ++ fmt02d m ++ sp ++ abbr) =
  abbr ++ py "/" ++ year.
Proof.
  intros Hy Hm Ha. unfold admedia_stored_to_label.
  rewrite format_canonical by (assumption || lia).
  rewrite split_ws_three by (assumption || apply fmt02d_clean; lia).
  simpl. now rewrite py_int_fmt02d.
Qed.

(** C9: formatting a formatted value changes nothing, for every input
    string, the values returned trimmed included. *)
Theorem format_admedia_stored_idempotent (s : str) :
  format_admedia_stored (format_admedia_stored s) = format_admedia_stored s.
Proof.
  destruct (format_cases s) as [E | (year & m & abbr & Hy & Hm & Ha & E)].
  - rewrite E at 1. now rewrite format_strip.
  - rewrite E. now apply format_canonical.
Qed.

(** C1, as the code has it: with [year] the first part of the value, the
    result is [year], the month number in two digits and the abbreviation;
    the month number is 0 when there is no second part and the integer
    read from the second part when [int] reads one; when [int] does not
    read the second part, because it is not the literal of an integer or
    has more than 4300 digits, the value is returned trimmed. *)
Theorem format_admedia_stored_parts (value year : str) (rest : list str) :
  admedia_parts value = year :: rest ->
  match rest with
  | [] =>
      format_admedia_stored value = year ++ sp ++ fmt02d 0 ++ sp ++ default_abbr 0
  | p1 :: rest' =>
      match py_int p1 with
      | Some month_num =>
          format_admedia_stored value =
          year ++ sp ++ fmt02d month_num ++ sp ++
          match rest' with [] => default_abbr month_num | p2 :: _ => p2 end
      | None => format_admedia_stored value = strip value
      end
  end.
Proof.
  intros E. rewrite format_by_parts, E.
  destruct rest as [|p1 rest']; [reflexivity|].
  now destruct (py_int p1).
Qed.

Lemma format_admedia_stored_parts_witness :
  format_admedia_stored (py "2024-3") = py "2024 03 Mar".
Proof.
  exact (format_admedia_stored_parts (py "2024-3") (py "2024") [py "3"]
           eq_refl).
Defined.

(** C1 as stated fails: the second part of ["2024 abc"] is not an integer,
    and the result is not the year followed by month 00. *)
Lemma format_admedia_stored_no_month_default :
  admedia_parts (py "2024 abc") = [py "2024"; py "abc"] /\
  py_int (py "abc") = None /\
  ~ exists abbr,
      format_admedia_stored (py "2024 abc") =
      py "2024" ++ sp ++ fmt02d 0 ++ sp ++ abbr.
Proof.
  split; [reflexivity|]. split; [reflexivity|].
  intros (abbr & H). vm_compute in H. discriminate H.
Qed.

(** C2: [admedia_label_to_stored "Mar/2024"] is ["2024 03 Mar"], and a
    well-formed label comes back unchanged from the stored form. *)
Theorem admedia_label_round_trip :
  admedia_label_to_stored (py "Mar/2024") = py "2024 03 Mar" /\
  forall x, well_formed_admedia_label x ->
            admedia_stored_to_label (admedia_label_to_stored x) = x.
Proof.
  split; [reflexivity|].
  intros x (abbr & year & Ha & Hne & Hd & ->).
  destruct (label_to_stored_well_formed abbr year Ha Hne Hd) as (m & Hm & ->).
  apply stored_to_label_canonical;
    [now apply all_digits_clean|now apply month_short|].
  apply (valid_abbreviation abbr Ha).
Qed.

Lemma admedia_label_round_trip_witness :
  admedia_stored_to_label (admedia_label_to_stored (py "Ene/1999")) =
  py "Ene/1999".
Proof.
  apply (proj2 admedia_label_round_trip (py "Ene/1999")).
  exists (py "Ene"), (py "1999").
  split; [now left|]. split; [discriminate|].
  split; [repeat constructor|reflexivity].
Defined.


(** [int] at its limit: 4300 digits are read, with a sign, underscores and
    white space or without, and 4301 digits are not; the label with such a
    year has the sentinel for key, and the value with such a month number
    is returned as it is. *)
Lemma int_digit_limit :
  let ones := repeat "1"%char in
  py_int (ones 4300%nat) <> None /\
  py_int (py " -1_" ++ ones 4299%nat ++ py " ") <> None /\
  py_int (ones 4301%nat) = None /\
  parse_instar_label (py "Enero/" ++ ones 4301%nat) = (9999, 99) /\
  format_admedia_stored (py "2024 " ++ ones 4301%nat) =
  py "2024 " ++ ones 4301%nat /\
  parse_admedia_stored (py "2024 " ++ ones 4301%nat) = (9999, 99).
Proof.
  cbv zeta.
  split; [vm_compute; discriminate|].
  split; [vm_compute; discriminate|].
  split; [vm_compute; reflexivity|].
  split; [vm_compute; reflexivity|].
  split; vm_compute; reflexivity.
Qed.



(** C4: [normalize_admedia_months] trims each value, drops the empty ones,
    converts the labels with [admedia_label_to_stored] and the other values
    with [format_admedia_stored], and keeps the first occurrence of each
    converted value, in the order of these first occurrences; the three
    spellings of March 2024 give one value. *)
Theorem normalize_admedia_months_spec :
  (forall months,
     normalize_admedia_months months =
     dedupe_preserve_order
       (map admedia_canonical (filter nonempty (map strip months)))) /\
  (forall values,
     NoDup (dedupe_preserve_order values) /\
     forall v, In v (dedupe_preserve_order values) <-> In v values) /\
  (dedupe_preserve_order [] = [] /\
   forall values v,
     dedupe_preserve_order (values ++ [v]) =
     if mem v values then dedupe_preserve_order values
     else dedupe_preserve_order values ++ [v]) /\
  normalize_admedia_months [py "Mar/2024"; py "2024 03 Mar"; py "mar/2024"] =
  [py "2024 03 Mar"].
Proof.
  split; [|split; [|split; [split|]]].
  - intros months. unfold normalize_admedia_months.
    now rewrite normalize_admedia_loop.
  - intros values. split; [apply dedupe_NoDup|apply dedupe_In].
  - reflexivity.
  - apply dedupe_snoc.
  - reflexivity.
Qed.

(** C5, as the code has it: a value that cannot be parsed has the sentinel
    key, and in the output of both sorts every value with the sentinel key
    stands after every value whose key is below the sentinel, that is with
    a year up to 9999. *)
Theorem sentinel_after_smaller_keys :
  (forall label,
     (forall year month, ~ valid_instar_label label year month) ->
     parse_instar_label label = SENTINEL) /\
  (forall value,
     (forall year month, ~ admedia_key value year month) ->
     parse_admedia_stored value = SENTINEL) /\
  (forall months x y,
     In x (sort_instar_months months) -> In y (sort_instar_months months) ->
     key_lt (parse_instar_label x) SENTINEL ->
     parse_instar_label y = SENTINEL ->
     before x y (sort_instar_months months)) /\
  (forall months x y,
     In x (sort_admedia_months months) -> In y (sort_admedia_months months) ->
     key_lt (parse_admedia_stored x) SENTINEL ->
     parse_admedia_stored y = SENTINEL ->
     before x y (sort_admedia_months months)).
Proof.
  assert (B : forall key l x y,
             In x (sorted key l) -> In y (sorted key l) ->
             key_lt (key x) SENTINEL -> key y = SENTINEL ->
             before x y (sorted key l)).
  { intros key l x y Hx Hy Kx Ky.
    destruct (in_split y _ Hy) as (l1 & l2 & E).
    rewrite E in Hx. apply in_app_or in Hx as [Hx | [-> | Hx]].
    - destruct (in_split x _ Hx) as (l3 & l4 & ->).
      exists l3, l4, l2. rewrite E, <- app_assoc. reflexivity.
    - rewrite Ky in Kx. unfold key_lt, SENTINEL in Kx. simpl in Kx. lia.
    - exfalso. apply (sorted_after key l l1 y l2 x E Hx). now rewrite Ky. }
  split; [|split; [|split]].
  - intros label H.
    destruct (parse_instar_label_cases label) as [(y & m & V) | E];
      [now destruct (H y m)|exact E].
  - intros value H.
    destruct (parse_admedia_stored_cases value) as [(y & m & V & _) | [_ E]];
      [now destruct (H y m)|exact E].
  - intros months. apply B.
  - intros months. apply B.
Qed.

Lemma sentinel_after_smaller_keys_witness :
  before (py "Marzo/2024") (py "foo")
    (sort_instar_months [py "foo"; py "Marzo/2024"]).
Proof.
  apply (proj1 (proj2 (proj2 sentinel_after_smaller_keys))).
  - vm_compute. left. reflexivity.
  - vm_compute. right. left. reflexivity.
  - left. vm_compute. reflexivity.
  - reflexivity.
Defined.

(** C5 as stated fails: a label of the year 10000 has a key above the
    sentinel, and the value that cannot be parsed is sorted before it. *)
Lemma sentinel_not_always_last :
  sort_instar_months [py "Enero/10000"; py "foo"] =
  [py "foo"; py "Enero/10000"] /\
  parse_instar_label (py "foo") = SENTINEL /\
  parse_instar_label (py "Enero/10000") = (10000, 1) /\
  ~ unknown_last parse_instar_label
      (sort_instar_months [py "Enero/10000"; py "foo"]).
Proof.
  split; [reflexivity|]. split; [reflexivity|]. split; [reflexivity|].
  intros H.
  destruct (H (py "Enero/10000") (py "foo")) as (l1 & l2 & l3 & E).
  - vm_compute. right. left. reflexivity.
  - vm_compute. left. reflexivity.
  - discriminate.
  - reflexivity.
  - change (sort_instar_months [py "Enero/10000"; py "foo"])
      with [py "foo"; py "Enero/10000"] in E.
    pose proof (f_equal (@List.length str) E) as L.
    rewrite length_app in L. simpl in L. rewrite length_app in L.
    simpl in L.
    destruct l1; [|simpl in L; lia]. destruct l2; [|simpl in L; lia].
    destruct l3; [|simpl in L; lia]. discriminate E.
Qed.

(* ================================================================= *)
(** ** Regular expressions: the matcher decides the language *)

Module RegexFacts.

Import Regex.

Lemma nullable_spec r : nullable r = true <-> Lang r [].
Proof.
  induction r as [| |p|r1 IH1 r2 IH2|r1 IH1 r2 IH2|r IH]; simpl.
  - split; [discriminate|]. intros H. inversion H.
  - split; [constructor|reflexivity].
  - split; [discriminate|]. intros H. inversion H.
  - rewrite andb_true_iff, IH1, IH2. split.
    + intros [H1 H2]. now apply (LSeq r1 r2 [] []).
    + intros H. inversion H; subst.
      match goal with
      | E : _ ++ _ = [] |- _ => apply app_eq_nil in E as [-> ->]
      end. now split.
  - rewrite orb_true_iff, IH1, IH2. split.
    + intros [H | H]; [now apply LAltL|now apply LAltR].
    + intros H. inversion H; subst; auto.
  - split; [constructor|reflexivity].
Qed.

Lemma deriv_spec c r : forall s, Lang (deriv c r) s <-> Lang r (c :: s).
Proof.
  induction r as [| |p|r1 IH1 r2 IH2|r1 IH1 r2 IH2|r IH]; intros s; simpl.
  - split; intros H; inversion H.
  - split; intros H; inversion H.
  - destruct (p c) eqn:E; split; intros H; inversion H; subst.
    + now constructor.
    + constructor.
    + congruence.
  - assert (Fwd : Lang (Seq (deriv c r1) r2) s -> Lang (Seq r1 r2) (c :: s)).
    { intros H. inversion H; subst.
      match goal with
      | H1 : Lang (deriv c r1) ?s1 |- Lang _ (c :: ?s1 ++ ?s2) =>
          apply IH1 in H1; now apply (LSeq r1 r2 (c :: s1) s2)
      end. }
    assert (Bwd : Lang (Seq r1 r2) (c :: s) ->
                  Lang (Seq (deriv c r1) r2) s \/
                  (Lang r1 [] /\ Lang (deriv c r2) s)).
    { intros H. inversion H; subst.
      match goal with
      | E : ?s1 ++ ?s2 = c :: s, H1 : Lang r1 ?s1, H2 : Lang r2 ?s2 |- _ =>
          destruct s1 as [|a s1]; simpl in E;
          [subst s2; right; split; [exact H1|now apply IH2]
          |injection E as -> <-; left;
           constructor; [now apply IH1|exact H2]]
      end. }
    destruct (nullable r1) eqn:N.
    + split.
      * intros H. inversion H; subst; [now apply Fwd|].
        apply (LSeq r1 r2 [] (c :: s)); [now apply nullable_spec|now apply IH2].
      * intros H. apply Bwd in H as [H | [_ H]];
          [now apply LAltL|now apply LAltR].
    + split; [exact Fwd|]. intros H. apply Bwd in H as [H | [H _]];
        [exact H|]. apply nullable_spec in H. congruence.
  - split; intros H; inversion H; subst;
      [apply LAltL|apply LAltR|apply LAltL|apply LAltR];
      now (apply IH1 || apply IH2).
  - split.
    + intros H. inversion H; subst.
      match goal with
      | H1 : Lang (deriv c r) _ |- _ => apply IH in H1; now constructor
      end.
    + intros H. inversion H; subst.
      constructor; [now apply IH|assumption].
Qed.

Theorem accepts_spec s : forall r, accepts r s = true <-> Lang r s.
Proof.
  induction s as [|c s IH]; intros r; simpl.
  - apply nullable_spec.
  - rewrite IH. apply deriv_spec.
Qed.

(** The languages of the pieces of a pattern. *)

Lemma lang_class p s : Lang (Class p) s <-> exists c, s = [c] /\ p c = true.
Proof.
  split.
  - intros H. inversion H; subst. now exists c.
  - intros (c & -> & H). now constructor.
Qed.

Lemma lang_seq r1 r2 s :
  Lang (Seq r1 r2) s <-> exists s1 s2, s = s1 ++ s2 /\ Lang r1 s1 /\ Lang r2 s2.
Proof.
  split.
  - intros H. inversion H; subst. now exists s1, s2.
  - intros (s1 & s2 & -> & H1 & H2). now constructor.
Qed.

Lemma lang_star_class p s : Lang (Star (Class p)) s <-> all_in p s.
Proof.
  split.
  - intros H. remember (Star (Class p)) as r eqn:E.
    induction H as [| | | | | |r c s1 s2 H1 _ H2 IH2]; try discriminate.
    + constructor.
    + injection E as ->. inversion H1; subst. simpl.
      constructor; [assumption|now apply IH2].
  - induction 1 as [|c s Hc _ IH]; [constructor|].
    apply (LStarCons (Class p) c [] s); [now constructor|exact IH].
Qed.

Lemma lang_plus_class p s :
  Lang (Plus (Class p)) s <-> s <> [] /\ all_in p s.
Proof.
  unfold Plus. rewrite lang_seq. split.
  - intros (s1 & s2 & -> & H1 & H2).
    apply lang_class in H1 as (c & -> & Hc). apply lang_star_class in H2.
    split; [discriminate|now constructor].
  - intros [Hne H]. destruct H as [|c s Hc Hs]; [contradiction|].
    exists [c], s. split; [reflexivity|].
    split; [now constructor|now apply lang_star_class].
Qed.

(** [$] at the end of a pattern: the body matches the string, or the
    string without its final newline. *)
Lemma re_match_spec body s :
  re_match body s = true <->
  Lang body s \/ exists s', s = s' ++ ["010"%char] /\ Lang body s'.
Proof.
  unfold re_match, Dollar. rewrite accepts_spec, lang_seq. split.
  - intros (s1 & s2 & -> & H1 & H2). inversion H2; subst.
    + match goal with H : Lang Eps _ |- _ => inversion H; subst end.
      left. now rewrite app_nil_r.
    + match goal with
      | H : Lang (Class _) _ |- _ => apply lang_class in H as (c & -> & Hc)
      end.
      apply Ascii.eqb_eq in Hc. subst c. right. now exists s1.
  - intros [H | (s' & -> & H)].
    + exists s, []. rewrite app_nil_r. repeat split; [exact H|].
      apply LAltL. constructor.
    + exists s', ["010"%char]. repeat split; [exact H|].
      apply LAltR. constructor. reflexivity.
Qed.

End RegexFacts.

Import RegexFacts.

(* ================================================================= *)
(** ** The table operations *)

Module ServiceFacts.

Import Regex.

(** *** Table references *)

Lemma lang_dot s : Lang (Class (Ascii.eqb ".")) s <-> s = dot.
Proof.
  rewrite lang_class. split.
  - intros (c & -> & H). apply Ascii.eqb_eq in H. now subst.
  - intros ->. now exists "."%char.
Qed.

Lemma lang_table_pattern s : Lang _TABLE_PATTERN s <-> table_reference s.
Proof.
  unfold _TABLE_PATTERN, table_reference. split.
  - intros H.
    apply lang_seq in H as (p & r1 & -> & Hp & H).
    apply lang_seq in H as (d1 & r2 & -> & H1 & H).
    apply lang_seq in H as (d & r3 & -> & Hd & H).
    apply lang_seq in H as (d2 & t & -> & H2 & Ht).
    apply lang_dot in H1, H2. subst d1 d2.
    apply lang_plus_class in Hp, Hd, Ht. now exists p, d, t.
  - intros (p & d & t & -> & Hp & Hd & Ht).
    apply lang_plus_class in Hp, Hd, Ht.
    repeat (apply LSeq; try assumption); now apply lang_dot.
Qed.

Lemma trimmed_last s c : trimmed (s ++ [c]) -> is_space c = false.
Proof.
  intros H. inversion H as [E|a Ha E|a t d Ha Hd E].
  - now destruct s.
  - destruct s as [|b [|? ?]]; try discriminate. now injection E as ->.
  - rewrite app_comm_cons in E. apply app_inj_tail in E as [_ ->]. exact Hd.
Qed.

Lemma table_pattern_match tbl :
  re_match _TABLE_PATTERN (strip tbl) = true <-> table_reference (strip tbl).
Proof.
  rewrite re_match_spec, lang_table_pattern. split; [|now left].
  intros [H | (s' & E & _)]; [exact H|].
  pose proof (strip_is_trimmed tbl) as T. rewrite E in T.
  apply trimmed_last in T. discriminate T.
Qed.

Lemma table_reference_fully_qualified s :
  table_reference s -> fully_qualified_name s.
Proof.
  intros (p & d & t & -> & (Np & Hp) & (Nd & Hd) & (Nt & Ht)).
  exists p, d, t. split; [reflexivity|].
  repeat split; try assumption; unfold all_in in *;
    (eapply Forall_impl; [|eassumption]); intros c;
    unfold allowed_char, project_char, dataset_char, table_char;
    destruct (is_alnum c), (Ascii.eqb c "_"), (Ascii.eqb c "-"),
      (Ascii.eqb c "$"); simpl; congruence.
Qed.

Section Operations.

Variable TS : TableStore.
Variable settings : Settings.

Lemma validate_table_reference_spec tbl w :
  (table_reference (strip tbl) /\
   _validate_table_reference TS tbl w = (Ok (strip tbl), w)) \/
  (~ table_reference (strip tbl) /\
   _validate_table_reference TS tbl w = invalid_table_reference w).
Proof.
  unfold _validate_table_reference.
  destruct (re_match _TABLE_PATTERN (strip tbl)) eqn:E; simpl.
  - left. split; [now apply table_pattern_match|reflexivity].
  - right. split; [|reflexivity]. intros H.
    apply table_pattern_match in H. congruence.
Qed.

Lemma append_rows_invalid src dst col months dt w :
  ~ table_reference (strip src) \/ ~ table_reference (strip dst) ->
  append_rows TS settings src dst col months dt w = invalid_table_reference w.
Proof.
  intros H. unfold append_rows, mbind.
  destruct (validate_table_reference_spec src w) as [[Hs ->] | [_ ->]];
    [|reflexivity].
  destruct (validate_table_reference_spec dst w) as [[Hd ->] | [_ ->]];
    [tauto|reflexivity].
Qed.

(** *** Project resolution *)

Lemma build_table_config_spec project ds tbl col w :
  if project_resolves settings project
  then exists p,
      _build_table_config TS settings project ds tbl col w =
      (Ok {| project_id := p; dataset := ds; table := tbl;
             month_column := col |}, w)
  else _build_table_config TS settings project ds tbl col w =
       (Raise (BigQueryServiceError ProjectIdNotConfigured), w).
Proof.
  unfold project_resolves, _build_table_config, _resolve_project_id, mbind.
  destruct (py_or project (bigquery_project_id settings)) as [[|c p]|]; simpl;
    try reflexivity.
  now exists (c :: p).
Qed.

Lemma delete_instar_months_empty months w :
  normalize_instar_months months = [] ->
  delete_instar_months TS settings months w =
  if project_resolves settings (instar_project_id settings) then (Ok 0, w)
  else (Raise (BigQueryServiceError ProjectIdNotConfigured), w).
Proof.
  intros E. unfold delete_instar_months, instar_config, mbind.
  pose proof (build_table_config_spec (instar_project_id settings)
                (instar_dataset settings) (instar_table settings)
                (instar_month_column settings) w) as H.
  destruct (project_resolves settings (instar_project_id settings)).
  - destruct H as (p & ->). now rewrite E.
  - now rewrite H.
Qed.

Lemma delete_admedia_months_empty months w :
  normalize_admedia_months months = [] ->
  delete_admedia_months TS settings months w =
  if project_resolves settings (admedia_project_id settings) then (Ok 0, w)
  else (Raise (BigQueryServiceError ProjectIdNotConfigured), w).
Proof.
  intros E. unfold delete_admedia_months, admedia_config, mbind.
  pose proof (build_table_config_spec (admedia_project_id settings)
                (admedia_dataset settings) (admedia_table settings)
                (admedia_month_column settings) w) as H.
  destruct (project_resolves settings (admedia_project_id settings)).
  - destruct H as (p & ->). now rewrite E.
  - now rewrite H.
Qed.

(** *** The exceptions an operation can raise *)

Lemma raises_only_ret {A : Type} P (a : A) : raises_only P (ret TS a).
Proof. intros w e w' H. discriminate H. Qed.

Lemma raises_only_raise {A : Type} (P : exn -> Prop) e :
  P e -> raises_only P (@raise TS A e).
Proof. intros H w e' w' [= <- _]. exact H. Qed.

Lemma raises_only_bind {A B : Type} P (m : M TS A) (k : A -> M TS B) :
  raises_only P m -> (forall a, raises_only P (k a)) ->
  raises_only P (mbind TS m k).
Proof.
  intros Hm Hk w e w'. unfold mbind.
  destruct (m w) as [[a|e0] w0] eqn:E.
  - apply Hk.
  - intros [= <- <-]. now apply (Hm w e0 w0).
Qed.

Lemma raises_only_call {A : Type} (P : exn -> Prop) c
    (f : Store TS -> store_result A * Store TS) :
  (forall e, P (StoreError e)) -> raises_only P (call TS c f).
Proof.
  intros H w e w'. unfold call. destruct (f (store w)) as [[a|e0] s'];
    simpl; intros [= <- _]. apply H.
Qed.

Lemma raises_only_try_except {A : Type} (P Q : exn -> Prop) (m : M TS A) h :
  raises_only Q m ->
  (forall e, Q e ->
     match h e with Some k => raises_only P k | None => P e end) ->
  raises_only P (try_except TS m h).
Proof.
  intros Hm Hh w e w'. unfold try_except.
  destruct (m w) as [[a|e0] w0] eqn:E; [discriminate|].
  specialize (Hh e0 (Hm w e0 w0 E)). destruct (h e0) as [k|].
  - apply Hh.
  - now intros [= <- _].
Qed.

Lemma raises_only_get_client (P : exn -> Prop) :
  (forall m, m <> NoMonthSelected -> P (BigQueryServiceError m)) ->
  raises_only P (_get_client TS settings).
Proof.
  intros H w e w'. unfold _get_client, mbind, set_client, ret, raise.
  destruct (self_client w); [discriminate|].
  destruct (bigquery_credentials_path settings) as [[|c p]|];
    try destruct (credentials_file TS (c :: p)); simpl;
    repeat match goal with
           | |- context [match ?x with _ => _ end] => destruct x; simpl
           end;
    try discriminate; intros [= <- _]; apply H; discriminate.
Qed.

End Operations.

End ServiceFacts.

Import ServiceFacts.

(* ================================================================= *)
(** ** Properties of the table operations *)

Section FacadeProperties.

Variable TS : TableStore.
Variable settings : Settings.

Ltac store_try :=
  apply raises_only_try_except
    with (Q := fun e => match e with StoreError _ => True | _ => False end);
  [apply raises_only_bind;
   [apply raises_only_call; intros; exact I|intros; apply raises_only_ret]
  |intros [m0|? ?|[nf msg|x]] HQ; try contradiction; simpl;
   [apply raises_only_raise; discriminate|discriminate]].

Lemma list_columns_not_month_error tbl :
  raises_only not_month_error (list_columns TS settings tbl).
Proof.
  unfold list_columns, not_month_error.
  apply raises_only_bind.
  - unfold _validate_table_reference.
    destruct (negb _); [apply raises_only_raise; discriminate|].
    apply raises_only_ret.
  - intros candidate. apply raises_only_bind.
    + apply raises_only_get_client. congruence.
    + intros client. store_try.
Qed.

Lemma export_rows_not_month_error config m months dt sel :
  raises_only not_month_error
    (export_rows TS settings config (m :: months) dt sel).
Proof.
  unfold export_rows. change (is_nil (m :: months)) with false. cbv iota.
  apply raises_only_bind.
  { apply raises_only_get_client. unfold not_month_error. congruence. }
  intros client. apply raises_only_bind.
  { apply list_columns_not_month_error. }
  intros available. unfold not_month_error. apply raises_only_bind.
  { destruct sel as [[|c cs]|]; try apply raises_only_ret.
    destruct (negb _); [apply raises_only_raise; discriminate|].
    apply raises_only_ret. }
  intros cols. store_try.
Qed.

Lemma no_invalid_columns sel available :
  (forall col, In col sel -> In col available) ->
  filter (fun col => negb (mem col available)) sel = [].
Proof.
  induction sel as [|c cs IH]; intros H; simpl; [reflexivity|].
  assert (E : mem c available = true) by (apply mem_In, H; now left).
  rewrite E. simpl. apply IH. intros col Hc. apply H. now right.
Qed.

Lemma export_rows_query config months dt sel w client w1 available w2 :
  months <> [] ->
  normalize_for dt months = [] ->
  _get_client TS settings w = (Ok client, w1) ->
  list_columns TS settings (fq_table config) w1 = (Ok available, w2) ->
  (forall col, In col (requested sel) -> In col available) ->
  exists query,
    trace (snd (export_rows TS settings config months dt sel w)) =
    trace w2 ++ [Query query [(py "months", [])]].
Proof.
  intros Hne Hn Hc Hl Hsel. unfold export_rows.
  destruct months as [|m months]; [contradiction|].
  change (is_nil (m :: months)) with false. cbv iota.
  rewrite Hn. unfold mbind at 1. rewrite Hc.
  unfold mbind at 1. rewrite Hl. unfold mbind at 1.
  match goal with
  | |- context [match ?c w2 with _ => _ end] =>
      assert (E : exists cols, c w2 = (Ok cols, w2))
  end.
  { destruct sel as [[|c cs]|]; try (eexists; reflexivity).
    simpl in Hsel. rewrite (no_invalid_columns (c :: cs) available Hsel).
    eexists. reflexivity. }
  destruct E as (cols & ->).
  eexists. unfold try_except, mbind, client_query, call, months_parameter.
  destruct (store_query TS _ _ (store w2)) as [[job|[nf msg|x]] s'];
    reflexivity.
Qed.

(** *** The end of [import_instar] *)



End FacadeProperties.


Import Sim.

Lemma fully_qualified_name_chars s :
  fully_qualified_name s ->
  Forall (fun c => allowed_char c = true \/ c = "."%char) s.
Proof.
  intros (p & d & t & -> & (_ & Hp) & (_ & Hd) & (_ & Ht)).
  unfold all_in, dot in *.
  repeat (apply Forall_app; split);
    try (eapply Forall_impl; [|eassumption]; intros c H; now left);
    constructor; auto.
Qed.


(** C6, as the code has it: when the normalized months are empty, the
    delete operations send nothing to the Table Store; they return 0 rows
    when the project of the dataset is configured, and fail with the
    configuration error when it is not. *)
Theorem delete_months_empty_set (TS : TableStore) (settings : Settings)
    (months : list str) (w : world TS) :
  (normalize_instar_months months = [] ->
   delete_instar_months TS settings months w =
   if project_resolves settings (instar_project_id settings)
   then (Ok 0, w)
   else (Raise (BigQueryServiceError ProjectIdNotConfigured), w)) /\
  (normalize_admedia_months months = [] ->
   delete_admedia_months TS settings months w =
   if project_resolves settings (admedia_project_id settings)
   then (Ok 0, w)
   else (Raise (BigQueryServiceError ProjectIdNotConfigured), w)).
Proof.
  split; [apply delete_instar_months_empty|apply delete_admedia_months_empty].
Qed.

Lemma delete_months_empty_set_witness :
  delete_instar_months SimStore project_settings [py "  "; py ""]
    (start SimStore []) = (Ok 0, start SimStore []) /\
  delete_admedia_months SimStore project_settings [py "  "; py ""]
    (start SimStore []) = (Ok 0, start SimStore []).
Proof.
  split.
  - exact (proj1 (delete_months_empty_set SimStore project_settings
                    [py "  "; py ""] (start SimStore [])) eq_refl).
  - exact (proj2 (delete_months_empty_set SimStore project_settings
                    [py "  "; py ""] (start SimStore [])) eq_refl).
Defined.

(** C6 as stated fails: with no project configured, the delete of an empty
    month list raises the configuration error instead of returning 0. *)
Lemma delete_months_without_project :
  normalize_instar_months [] = [] /\
  delete_instar_months SimStore default_settings [] (start SimStore []) =
  (Raise (BigQueryServiceError ProjectIdNotConfigured), start SimStore []) /\
  fst (delete_instar_months SimStore default_settings [] (start SimStore []))
  <> Ok 0.
Proof. split; [reflexivity|]. split; [reflexivity|discriminate]. Qed.

(** C7: [append_rows] raises the error of [_validate_table_reference], and
    sends nothing to the store, unless both references, trimmed, are of the
    form [project.dataset.table] with letters, digits, [_], [-] and [$]
    only; the validator accepts exactly the references of the pattern, among
    them ["proj-1.ds_2.tbl$20240101"], and neither ["proj 1.ds.tbl"] nor
    ["proj;drop.ds.tbl"]. *)
Theorem append_rows_validates_table_references :
  (forall TS settings src dst col months dt (w : world TS),
     ~ fully_qualified_name (strip src) \/
     ~ fully_qualified_name (strip dst) ->
     append_rows TS settings src dst col months dt w =
     (Raise (BigQueryServiceError InvalidTableReference), w)) /\
  (forall TS tbl (w : world TS),
     (table_reference (strip tbl) /\
      _validate_table_reference TS tbl w = (Ok (strip tbl), w)) \/
     (~ table_reference (strip tbl) /\
      _validate_table_reference TS tbl w =
      (Raise (BigQueryServiceError InvalidTableReference), w))) /\
  (forall TS (w : world TS),
     _validate_table_reference TS (py "proj-1.ds_2.tbl$20240101") w =
     (Ok (py "proj-1.ds_2.tbl$20240101"), w) /\
     _validate_table_reference TS (py "proj 1.ds.tbl") w =
     (Raise (BigQueryServiceError InvalidTableReference), w) /\
     _validate_table_reference TS (py "proj;drop.ds.tbl") w =
     (Raise (BigQueryServiceError InvalidTableReference), w)).
Proof.
  split; [|split].
  - intros TS settings src dst col months dt w H.
    apply append_rows_invalid.
    destruct H as [H | H]; [left|right]; intros T; apply H;
      now apply table_reference_fully_qualified.
  - intros TS tbl w. apply validate_table_reference_spec.
  - intros TS w. repeat split.
Qed.

Lemma append_rows_validates_table_references_witness :
  append_rows SimStore project_settings (py "proj.ds.src")
    (py "proj 1.ds.tbl") (py "Mes") None (py "instar") (start SimStore []) =
  (Raise (BigQueryServiceError InvalidTableReference), start SimStore []).
Proof.
  apply (proj1 append_rows_validates_table_references).
  right. intros H. apply fully_qualified_name_chars in H.
  rewrite Forall_forall in H. destruct (H " "%char) as [E | E].
  - vm_compute. tauto.
  - discriminate E.
  - discriminate E.
Defined.




(** C10, as the code has it: for a month list that is not empty and whose
    normalized set is empty, [export_rows] does not raise the error of the
    empty selection; when the client, the listing of the columns and the
    check of the requested columns succeed, it sends the store a query whose
    [months] parameter is the empty list.  [_delete_months] with the same
    normalized months returns 0 and sends nothing. *)
Theorem export_rows_empty_normalized_months (TS : TableStore)
    (settings : Settings) (config : TableConfig) (months : list str)
    (dt : str) (sel : option (list str)) (w : world TS) :
  months <> [] ->
  normalize_for dt months = [] ->
  (forall e w', export_rows TS settings config months dt sel w = (Raise e, w') ->
                e <> BigQueryServiceError NoMonthSelected) /\
  (forall client w1 available w2,
     _get_client TS settings w = (Ok client, w1) ->
     list_columns TS settings (fq_table config) w1 = (Ok available, w2) ->
     (forall col, In col (requested sel) -> In col available) ->
     exists query,
       trace (snd (export_rows TS settings config months dt sel w)) =
       trace w2 ++ [Query query [(py "months", [])]]) /\
  _delete_months TS settings config (normalize_for dt months) w = (Ok 0, w).
Proof.
  intros Hne Hn. split; [|split].
  - destruct months as [|m months]; [contradiction|]. intros e w'.
    apply (export_rows_not_month_error TS settings config m months dt sel).
  - intros client w1 available w2.
    now apply export_rows_query.
  - now rewrite Hn.
Qed.

Lemma export_rows_empty_normalized_months_witness :
  exists query,
    trace (snd (export_rows SimStore project_settings instar_table_config
                  [py "  "] (py "instar") None
                  (start SimStore [py "proj.bayer.instar_historico"]))) =
    [GetTable (py "proj.bayer.instar_historico")] ++
    [Query query [(py "months", [])]].
Proof.
  refine (proj1 (proj2
            (export_rows_empty_normalized_months SimStore project_settings
               instar_table_config [py "  "] (py "instar") None
               (start SimStore [py "proj.bayer.instar_historico"])
               _ eq_refl)) _ _ _ _ eq_refl eq_refl _).
  - discriminate.
  - intros col [].
Defined.

(** C10 as stated fails: the export of a blank month raises when the store
    does not know the table, and no query is sent. *)
Lemma export_rows_blank_month_raises :
  [py "  "] <> [] /\ normalize_for (py "instar") [py "  "] = [] /\
  export_rows SimStore project_settings instar_table_config [py "  "]
    (py "instar") None (start SimStore []) =
  (Raise (BigQueryServiceError
            (ErrorFetchingSchema (py "proj.bayer.instar_historico")
               (py "Not found"))),
   Build_world SimStore
     (Some {| client_project := py "proj"; client_credentials := None;
              client_location := None |})
     []
     [GetTable (py "proj.bayer.instar_historico")]).
Proof. split; [discriminate|]. split; reflexivity. Qed.

(* ================================================================= *)
(** ** Further properties of the month normaliser *)

Module MonthsMore.

(** *** Subsequences *)

Lemma subseq_nil_l l : subseq [] l.
Proof. induction l; constructor; assumption. Qed.

Lemma subseq_refl l : subseq l l.
Proof. induction l; constructor; assumption. Qed.

Lemma subseq_app a b c d : subseq a b -> subseq c d -> subseq (a ++ c) (b ++ d).
Proof.
  induction 1 as [|x a b _ IH|x a b _ IH]; simpl; intros Hcd.
  - exact Hcd.
  - apply subseq_skip. now apply IH.
  - apply subseq_keep. now apply IH.
Qed.

Lemma subseq_In a b x : subseq a b -> In x a -> In x b.
Proof.
  induction 1 as [|y a b _ IH|y a b _ IH]; simpl; auto.
  intros [-> | H]; auto.
Qed.

Lemma subseq_trans a b c : subseq a b -> subseq b c -> subseq a c.
Proof.
  intros Hab Hbc. revert a Hab.
  induction Hbc as [|x b c _ IH|x b c _ IH]; intros a Hab.
  - exact Hab.
  - apply subseq_skip. now apply IH.
  - inversion Hab; subst; [apply subseq_skip|apply subseq_keep]; now apply IH.
Qed.

Lemma subseq_filter (p : str -> bool) l : subseq (filter p l) l.
Proof.
  induction l as [|x l IH]; simpl; [constructor|].
  destruct (p x); constructor; exact IH.
Qed.

(** *** [dedupe_preserve_order] *)

Lemma dedupe_NoDup_id l : NoDup l -> dedupe_preserve_order l = l.
Proof.
  induction l as [|x l IH] using rev_ind; intros H; [reflexivity|].
  apply NoDup_remove in H as [H1 H2]. rewrite app_nil_r in H1, H2.
  rewrite dedupe_snoc.
  destruct (mem x l) eqn:E; [apply mem_In in E; contradiction|].
  now rewrite IH.
Qed.

Lemma dedupe_subseq l : subseq (dedupe_preserve_order l) l.
Proof.
  induction l as [|x l IH] using rev_ind; [constructor|].
  rewrite dedupe_snoc. destruct (mem x l).
  - rewrite <- (app_nil_r (dedupe_preserve_order l)).
    apply subseq_app; [exact IH|apply subseq_nil_l].
  - apply subseq_app; [exact IH|apply subseq_refl].
Qed.

Lemma mem_filter_other v x l :
  str_eqb v x = false ->
  mem x (filter (fun u => negb (str_eqb v u)) l) = mem x l.
Proof.
  intros Hvx. apply eq_true_iff_eq. rewrite !mem_In, filter_In.
  split; [now intros [H _]|]. intros H. split; [exact H|].
  now rewrite Hvx.
Qed.

(** The first value is kept, and its later occurrences are not. *)
Lemma dedupe_cons v l :
  dedupe_preserve_order (v :: l) =
  v :: dedupe_preserve_order (filter (fun u => negb (str_eqb v u)) l).
Proof.
  induction l as [|x l IH] using rev_ind; [reflexivity|].
  change (v :: l ++ [x]) with ((v :: l) ++ [x]).
  rewrite dedupe_snoc, IH, filter_app. simpl.
  destruct (str_eqb v x) eqn:Hvx; simpl.
  - apply str_eqb_eq in Hvx. subst x.
    unfold mem at 1. simpl. rewrite str_eqb_refl. simpl.
    now rewrite app_nil_r.
  - rewrite dedupe_snoc, mem_filter_other by exact Hvx.
    unfold mem at 1. simpl.
    assert (Hxv : str_eqb x v = false).
    { destruct (str_eqb x v) eqn:E; [|reflexivity].
      apply str_eqb_eq in E. subst x. now rewrite str_eqb_refl in Hvx. }
    rewrite Hxv. simpl. fold (mem x l). now destruct (mem x l).
Qed.

(** *** [sorted] *)

Section SortedMore.
Variable key : str -> Z * Z.

Lemma insert_perm x l : Permutation (insert key x l) (x :: l).
Proof.
  induction l as [|y l IH]; simpl; [reflexivity|].
  destruct (key_ltb (key y) (key x)); [|reflexivity].
  rewrite IH. apply perm_swap.
Qed.

Lemma sorted_perm l : Permutation (sorted key l) l.
Proof.
  induction l as [|x l IH]; simpl; [reflexivity|].
  rewrite insert_perm. now constructor.
Qed.

Lemma insert_least x l : Forall (key_le key x) l -> insert key x l = x :: l.
Proof.
  intros [|y r Hy _]; simpl; [reflexivity|].
  apply key_ltb_ge in Hy. now rewrite Hy.
Qed.

Lemma sorted_fixed l : sorted_by key l -> sorted key l = l.
Proof.
  induction 1 as [|x l _ IH Hx]; simpl; [reflexivity|].
  rewrite IH. now apply insert_least.
Qed.

Lemma key_eqb_eq a b : key_eqb a b = true <-> a = b.
Proof.
  unfold key_eqb. rewrite andb_true_iff, !Z.eqb_eq.
  destruct a, b; simpl. split; [intros [-> ->]; reflexivity|].
  now intros [= -> ->].
Qed.

Lemma with_key_insert k x l :
  with_key key k (insert key x l) = with_key key k (x :: l).
Proof.
  unfold with_key. induction l as [|y l IH]; simpl; [reflexivity|].
  destruct (key_ltb (key y) (key x)) eqn:E; simpl; [|reflexivity].
  rewrite IH. simpl.
  destruct (key_eqb (key x) k) eqn:Ex, (key_eqb (key y) k) eqn:Ey;
    try reflexivity.
  apply key_eqb_eq in Ex, Ey. apply key_ltb_lt in E.
  rewrite Ex, Ey in E. unfold key_lt in E. lia.
Qed.

Lemma with_key_sorted k l : with_key key k (sorted key l) = with_key key k l.
Proof.
  induction l as [|x l IH]; simpl; [reflexivity|].
  rewrite with_key_insert. unfold with_key in *. simpl. now rewrite IH.
Qed.
End SortedMore.

(** *** [format_admedia_stored] *)

Lemma format_format value :
  format_admedia_stored (format_admedia_stored value) =
  format_admedia_stored value.
Proof.
  destruct (format_cases value) as [E | (y & m & a & Hy & Hm & Ha & E)].
  - rewrite E at 1. now rewrite format_strip.
  - rewrite E. now apply format_canonical.
Qed.

Lemma map_fixed {A : Type} (f : A -> A) l :
  (forall x, In x l -> f x = x) -> map f l = l.
Proof.
  induction l as [|a l IH]; simpl; intros H; [reflexivity|].
  rewrite H by now left. f_equal. apply IH. intros x Hx. apply H. now right.
Qed.

Lemma filter_all {A : Type} (p : A -> bool) l :
  (forall x, In x l -> p x = true) -> filter p l = l.
Proof.
  induction l as [|a l IH]; simpl; intros H; [reflexivity|].
  rewrite H by now left. f_equal. apply IH. intros x Hx. apply H. now right.
Qed.

(** *** [normalize_instar_months], [sort_*_months] *)

Lemma normalize_instar_eq months :
  normalize_instar_months months =
  dedupe_preserve_order (filter nonempty (map strip months)).
Proof. unfold normalize_instar_months. now rewrite normalize_instar_loop. Qed.

(** A value is appended, trimmed, exactly when it is not blank and has not
    been seen. *)
Lemma normalize_instar_snoc months v :
  normalize_instar_months (months ++ [v]) =
  if is_empty (strip v) || mem (strip v) (normalize_instar_months months)
  then normalize_instar_months months
  else normalize_instar_months months ++ [strip v].
Proof.
  rewrite !normalize_instar_eq, map_app, filter_app. simpl.
  unfold nonempty at 2. destruct (is_empty (strip v)); simpl.
  - now rewrite app_nil_r.
  - rewrite dedupe_snoc.
    assert (E : mem (strip v)
                  (dedupe_preserve_order
                     (filter nonempty (map strip months))) =
                mem (strip v) (filter nonempty (map strip months))).
    { apply eq_true_iff_eq. rewrite !mem_In. apply dedupe_In. }
    now rewrite E.
Qed.

Lemma normalize_instar_In months v :
  In v (normalize_instar_months months) <->
  v <> [] /\ exists u, In u months /\ v = strip u.
Proof.
  rewrite normalize_instar_eq, dedupe_In, filter_In, in_map_iff.
  unfold nonempty. split.
  - intros [(u & <- & Hu) Hv]. split; [|now exists u].
    now destruct (strip u).
  - intros [Hv (u & Hu & ->)]. split; [now exists u|].
    now destruct (strip u).
Qed.

Lemma normalize_instar_all_tidy months :
  Forall tidy (normalize_instar_months months).
Proof.
  apply Forall_forall. intros v Hv.
  apply normalize_instar_In in Hv as [Hne (u & _ & ->)].
  split; [exact Hne|apply strip_idem].
Qed.

Lemma normalize_instar_NoDup months : NoDup (normalize_instar_months months).
Proof. rewrite normalize_instar_eq. apply dedupe_NoDup. Qed.

Lemma sort_instar_NoDup months : NoDup (sort_instar_months months).
Proof.
  unfold sort_instar_months.
  eapply Permutation_NoDup; [symmetry; apply sorted_perm|apply dedupe_NoDup].
Qed.

Lemma sort_admedia_NoDup months : NoDup (sort_admedia_months months).
Proof.
  unfold sort_admedia_months.
  eapply Permutation_NoDup; [symmetry; apply sorted_perm|apply dedupe_NoDup].
Qed.

Lemma sort_admedia_In months v :
  In v (sort_admedia_months months) <->
  exists u, In u months /\ v = format_admedia_stored u.
Proof.
  unfold sort_admedia_months. rewrite sorted_In, dedupe_In, in_map_iff.
  split.
  - intros (u & E & H). now exists u.
  - intros (u & H & E). now exists u.
Qed.

Lemma sort_admedia_formatted months v :
  In v (sort_admedia_months months) -> format_admedia_stored v = v.
Proof.
  intros H. apply sort_admedia_In in H as (u & _ & ->). apply format_format.
Qed.

End MonthsMore.

Import MonthsMore.

(** X1: [dedupe_preserve_order] returns its input without the later
    occurrences of each value, in the same order: of an empty list nothing;
    the first value is kept and the rest is treated alike once the other
    occurrences of that value are removed; read from the other end, the
    last value is appended exactly when it has not occurred before.  So
    the result has no duplicate, has the values of the input, is a
    subsequence of it, is the input itself exactly when the input has no
    duplicate, and applying the function twice is applying it once. *)
Theorem dedupe_preserve_order_keeps_order (v : str) (values : list str) :
  dedupe_preserve_order [] = [] /\
  dedupe_preserve_order (v :: values) =
  v :: dedupe_preserve_order (filter (fun u => negb (str_eqb v u)) values) /\
  dedupe_preserve_order (values ++ [v]) =
  (if mem v values then dedupe_preserve_order values
   else dedupe_preserve_order values ++ [v]) /\
  NoDup (dedupe_preserve_order values) /\
  (forall u, In u (dedupe_preserve_order values) <-> In u values) /\
  subseq (dedupe_preserve_order values) values /\
  (dedupe_preserve_order values = values <-> NoDup values) /\
  dedupe_preserve_order (dedupe_preserve_order values) =
  dedupe_preserve_order values.
Proof.
  split; [reflexivity|]. split; [apply dedupe_cons|].
  split; [apply dedupe_snoc|]. split; [apply dedupe_NoDup|].
  split; [intros u; apply dedupe_In|].
  split; [apply dedupe_subseq|]. split.
  - split; [|apply dedupe_NoDup_id].
    intros E. rewrite <- E. apply dedupe_NoDup.
  - apply dedupe_NoDup_id, dedupe_NoDup.
Qed.

(** X2: [sort_instar_months] returns every distinct value of its input
    exactly once, in increasing order of [parse_instar_label]. *)
Theorem sort_instar_months_sorted (months : list str) :
  Permutation (sort_instar_months months) (dedupe_preserve_order months) /\
  NoDup (sort_instar_months months) /\
  (forall v, In v (sort_instar_months months) <-> In v months) /\
  sorted_by parse_instar_label (sort_instar_months months).
Proof.
  split; [apply sorted_perm|]. split; [apply sort_instar_NoDup|]. split.
  - intros v. unfold sort_instar_months. rewrite sorted_In. apply dedupe_In.
  - apply sorted_sorted.
Qed.

(** X3: [sort_admedia_months] returns every distinct formatted value of its
    input exactly once, in increasing order of [parse_admedia_stored]; each
    value it returns is left unchanged by [format_admedia_stored]. *)
Theorem sort_admedia_months_sorted (months : list str) :
  Permutation (sort_admedia_months months)
    (dedupe_preserve_order (map format_admedia_stored months)) /\
  NoDup (sort_admedia_months months) /\
  (forall v, In v (sort_admedia_months months) <->
             exists u, In u months /\ v = format_admedia_stored u) /\
  sorted_by parse_admedia_stored (sort_admedia_months months) /\
  Forall (fun v => format_admedia_stored v = v) (sort_admedia_months months).
Proof.
  split; [apply sorted_perm|]. split; [apply sort_admedia_NoDup|].
  split; [apply sort_admedia_In|]. split; [apply sorted_sorted|].
  apply Forall_forall. apply sort_admedia_formatted.
Qed.

(** X4: sorting a sorted list of months again changes nothing, for both
    families. *)
Theorem sort_months_idempotent (months : list str) :
  sort_instar_months (sort_instar_months months) = sort_instar_months months /\
  sort_admedia_months (sort_admedia_months months) =
  sort_admedia_months months.
Proof.
  split.
  - unfold sort_instar_months at 1.
    rewrite dedupe_NoDup_id by apply sort_instar_NoDup.
    apply sorted_fixed. apply sorted_sorted.
  - unfold sort_admedia_months at 1.
    rewrite map_fixed by apply sort_admedia_formatted.
    rewrite dedupe_NoDup_id by apply sort_admedia_NoDup.
    apply sorted_fixed. apply sorted_sorted.
Qed.

(** X5: both sorts are stable: the values that have the same key, among
    them all the values that cannot be parsed, stay in the order in which
    they were first seen. *)
Theorem sort_months_stable (months : list str) (k : Z * Z) :
  with_key parse_instar_label k (sort_instar_months months) =
  with_key parse_instar_label k (dedupe_preserve_order months) /\
  with_key parse_admedia_stored k (sort_admedia_months months) =
  with_key parse_admedia_stored k
    (dedupe_preserve_order (map format_admedia_stored months)).
Proof. split; apply with_key_sorted. Qed.

(** X6: [normalize_instar_months] returns, without duplicates and in the
    order of their first occurrence, the values of its input trimmed, the
    empty ones left out: of an empty list nothing, and a last value is
    appended, trimmed, exactly when it is not blank and its trimmed form
    has not been returned for the values before it.  Normalizing twice is
    normalizing once. *)
Theorem normalize_instar_months_tidy (v : str) (months : list str) :
  normalize_instar_months [] = [] /\
  normalize_instar_months (months ++ [v]) =
  (if is_empty (strip v) || mem (strip v) (normalize_instar_months months)
   then normalize_instar_months months
   else normalize_instar_months months ++ [strip v]) /\
  normalize_instar_months months =
  dedupe_preserve_order (filter nonempty (map strip months)) /\
  NoDup (normalize_instar_months months) /\
  (forall x, In x (normalize_instar_months months) <->
             x <> [] /\ exists u, In u months /\ x = strip u) /\
  Forall tidy (normalize_instar_months months) /\
  subseq (normalize_instar_months months) (map strip months) /\
  normalize_instar_months (normalize_instar_months months) =
  normalize_instar_months months.
Proof.
  pose proof (normalize_instar_all_tidy months) as T.
  split; [reflexivity|]. split; [apply normalize_instar_snoc|].
  split; [apply normalize_instar_eq|].
  split; [apply normalize_instar_NoDup|].
  split; [apply normalize_instar_In|]. split; [exact T|]. split.
  - rewrite normalize_instar_eq.
    eapply subseq_trans; [apply dedupe_subseq|apply subseq_filter].
  - rewrite (normalize_instar_eq (normalize_instar_months months)).
    rewrite Forall_forall in T.
    rewrite map_fixed by (intros u Hu; apply (T u Hu)).
    rewrite filter_all.
    + apply dedupe_NoDup_id, normalize_instar_NoDup.
    + intros u Hu. destruct (T u Hu) as [Hne _].
      unfold nonempty. now destruct u.
Qed.

(* ================================================================= *)
(** ** Labels and stored values *)

Module LabelFacts.

Lemma months_abbr_key abbr m :
  dict_get str_eqb MONTHS_ABBR abbr = Some m -> In abbr VALID_ABBREVIATIONS.
Proof.
  cbv [dict_get MONTHS_ABBR VALID_ABBREVIATIONS map fst].
  repeat (match goal with
          | |- (if ?b then _ else _) = _ -> _ => destruct b eqn:E
          end;
          [intros _; apply str_eqb_eq in E; rewrite <- E; simpl; tauto
          |clear E]).
  discriminate.
Qed.

Lemma to_lower_space c : is_space (to_lower c) = is_space c.
Proof. char_cases c. Qed.

Lemma to_lower_slash c : Ascii.eqb (to_lower c) "/" = Ascii.eqb c "/".
Proof. char_cases c. Qed.

Lemma to_lower_dash c : Ascii.eqb (to_lower c) "-" = Ascii.eqb c "-".
Proof. char_cases c. Qed.

(** A property of characters that the case does not change holds for all
    the characters of a string when it does for a string equal to it up to
    case. *)
Lemma eq_nocase_Forall (f : ascii -> bool) a : forall b,
  (forall c, f (to_lower c) = f c) ->
  eq_nocase a b ->
  Forall (fun c => f c = false) b -> Forall (fun c => f c = false) a.
Proof.
  unfold eq_nocase. induction a as [|x a IH]; intros [|y b] Hf E Hb;
    try discriminate; [constructor|].
  injection E as E1 E2. inversion Hb; subst.
  constructor; [|now apply (IH b)].
  now rewrite <- Hf, E1, Hf.
Qed.

Lemma eq_nocase_clean a b : eq_nocase a b -> clean b -> clean a.
Proof.
  intros E (Hne & Hs & Hd). repeat split.
  - intros ->. destruct b; [contradiction|discriminate].
  - apply (eq_nocase_Forall is_space a b to_lower_space E Hs).
  - apply (eq_nocase_Forall (fun c => Ascii.eqb c "-") a b to_lower_dash E Hd).
Qed.

Lemma no_space_strip w : no_space w -> strip w = w.
Proof.
  intros H. destruct w as [|c t]; [reflexivity|].
  destruct (exists_last (l := c :: t)) as (a & d & E); [discriminate|].
  rewrite E in *. apply Forall_app in H as [Ha Hd]. inversion Hd; subst.
  destruct a as [|c' a]; [now apply strip_single|].
  inversion Ha; subst. now apply strip_trimmed.
Qed.

(** The stored value of a label whose abbreviation is written in any
    case. *)
Lemma label_to_stored_nocase abbr' abbr year m :
  eq_nocase abbr' abbr ->
  dict_get str_eqb MONTHS_ABBR abbr = Some m ->
  year <> [] -> all_digits year ->
  admedia_label_to_stored (abbr' ++ py "/" ++ year) =
  year ++ sp ++ fmt02d m ++ sp ++ abbr.
Proof.
  intros He Hm Hne Hd.
  pose proof (months_abbr_key abbr m Hm) as Ha.
  destruct (valid_abbreviation abbr Ha) as (Hc & Hf & _ & Hcap & _).
  pose proof (eq_nocase_clean abbr' abbr He Hc) as Hc'.
  assert (Hf' : free_of "/" abbr').
  { apply (eq_nocase_Forall (fun c => Ascii.eqb c "/") abbr' abbr
             to_lower_slash He Hf). }
  pose proof (all_digits_clean year Hne Hd) as Hy.
  assert (Hfy : free_of "/" year).
  { eapply Forall_impl; [|exact Hd]. apply digit_not_slash. }
  unfold admedia_label_to_stored.
  rewrite (strip_between abbr' (py "/") year Hc' Hy).
  assert (E : contains "/" (abbr' ++ py "/" ++ year) = true).
  { unfold contains. rewrite existsb_app. simpl. apply orb_true_r. }
  rewrite E. simpl negb. cbv iota.
  change (abbr' ++ py "/" ++ year) with (abbr' ++ "/"%char :: year).
  rewrite split_app by exact Hf'. rewrite split_free by exact Hfy.
  rewrite (no_space_strip abbr') by apply Hc'.
  apply capitalize_eq_nocase in He. rewrite He, Hcap, Hm.
  rewrite (no_space_strip year) by apply Hy. reflexivity.
Qed.

(** *** White space around a label *)

Lemma space_not_slash c : is_space c = true -> Ascii.eqb c "/" = false.
Proof. char_cases c. Qed.

Lemma lstrip_spaces a s : all_space a -> lstrip (a ++ s) = lstrip s.
Proof. induction 1 as [|c a Hc _ IH]; simpl; [reflexivity|now rewrite Hc]. Qed.

Lemma rstrip_spaces s b : all_space b -> rstrip (s ++ b) = rstrip s.
Proof.
  intros H. unfold rstrip. rewrite rev_app_distr.
  rewrite lstrip_spaces; [reflexivity|now apply Forall_rev].
Qed.

Lemma lstrip_decomp s : exists a, all_space a /\ s = a ++ lstrip s.
Proof.
  induction s as [|c t (a & Ha & E)]; simpl;
    [exists []; split; [constructor|reflexivity]|].
  destruct (is_space c) eqn:Hc.
  - exists (c :: a). split; [now constructor|]. simpl. now f_equal.
  - exists []. split; [constructor|reflexivity].
Qed.

Lemma rstrip_decomp s : exists b, all_space b /\ s = rstrip s ++ b.
Proof.
  destruct (lstrip_decomp (rev s)) as (a & Ha & E).
  exists (rev a). split; [now apply Forall_rev|].
  unfold rstrip. rewrite <- rev_app_distr, <- E. now rewrite rev_involutive.
Qed.

Lemma lstrip_app_nonspace a c b :
  is_space c = false -> lstrip (a ++ c :: b) = lstrip a ++ c :: b.
Proof.
  intros H. destruct (lstrip_app_head a c b H) as (u & E1 & E2).
  now rewrite E1, E2.
Qed.

Lemma rstrip_app_nonspace a c b :
  is_space c = false -> rstrip (a ++ c :: b) = a ++ c :: rstrip b.
Proof.
  intros H. unfold rstrip. rewrite rev_app_distr. simpl.
  rewrite <- app_assoc. simpl.
  rewrite lstrip_app_nonspace by exact H.
  rewrite rev_app_distr. simpl. rewrite rev_involutive.
  now rewrite <- app_assoc.
Qed.

Lemma strip_decomp s : exists a b, all_space a /\ all_space b /\ s = a ++ strip s ++ b.
Proof.
  destruct (lstrip_decomp s) as (a & Ha & E).
  destruct (rstrip_decomp (lstrip s)) as (b & Hb & E').
  exists a, b. split; [exact Ha|]. split; [exact Hb|].
  unfold strip. now rewrite <- E', <- E.
Qed.

(** White space before and after a string does not change its [strip]. *)
Lemma strip_padded a s b :
  all_space a -> all_space b -> strip (a ++ s ++ b) = strip s.
Proof.
  intros Ha Hb. unfold strip. rewrite lstrip_spaces by exact Ha.
  destruct (lstrip_nil_or_head s) as [E | (c & t & E & Hc)].
  - destruct (lstrip_decomp s) as (a' & Ha' & Es). rewrite E, app_nil_r in Es.
    subst s. rewrite lstrip_spaces by exact Ha'. rewrite E.
    assert (L : lstrip b = []).
    { clear -Hb. induction Hb as [|c b Hc _ IH]; simpl; [reflexivity|].
      now rewrite Hc. }
    now rewrite L.
  - destruct (lstrip_decomp s) as (a' & Ha' & Es). rewrite E in Es.
    rewrite Es at 1. rewrite <- app_assoc, lstrip_spaces by exact Ha'.
    simpl. rewrite Hc, E. change (c :: t ++ b) with ((c :: t) ++ b).
    now apply rstrip_spaces.
Qed.

Lemma strip_padded_l a s : all_space a -> strip (a ++ s) = strip s.
Proof.
  intros Ha. rewrite <- (app_nil_r s) at 1.
  apply strip_padded; [exact Ha|constructor].
Qed.

Lemma strip_padded_r s b : all_space b -> strip (s ++ b) = strip s.
Proof. intros Hb. apply (strip_padded [] s b); [constructor|exact Hb]. Qed.

Lemma valid_instar_label_strip label year month :
  valid_instar_label (strip label) year month <->
  valid_instar_label label year month.
Proof.
  destruct (strip_decomp label) as (a & b & Ha & Hb & E).
  assert (Sa : free_of "/" a).
  { eapply Forall_impl; [|exact Ha]. apply space_not_slash. }
  assert (Sb : free_of "/" b).
  { eapply Forall_impl; [|exact Hb]. apply space_not_slash. }
  split.
  - intros (mes & anio & Es & Hm & Hy & Hn & Hi).
    exists (a ++ mes), (anio ++ b). split; [|split; [|split; [|split]]].
    + rewrite E, Es. simpl. now rewrite <- !app_assoc.
    + now apply Forall_app.
    + now apply Forall_app.
    + now rewrite strip_padded_l.
    + now rewrite strip_padded_r.
  - intros (mes & anio & El & Hm & Hy & Hn & Hi).
    exists (lstrip mes), (rstrip anio).
    assert (Es : strip label = lstrip mes ++ py "/" ++ rstrip anio).
    { rewrite El. unfold strip. simpl.
      rewrite lstrip_app_nonspace by reflexivity.
      now rewrite rstrip_app_nonspace by reflexivity. }
    destruct (lstrip_decomp mes) as (a' & Ha' & Em).
    destruct (rstrip_decomp anio) as (b' & Hb' & Ea).
    split; [exact Es|]. split; [|split; [|split]].
    + rewrite Em in Hm. now apply Forall_app in Hm as [_ Hm].
    + rewrite Ea in Hy. now apply Forall_app in Hy as [Hy _].
    + rewrite Em in Hn. now rewrite strip_padded_l in Hn.
    + rewrite Ea in Hi. now rewrite strip_padded_r in Hi.
Qed.

End LabelFacts.

Import LabelFacts.

(** X7: what [format_admedia_stored] returns has no white space at either
    end, and is empty only for a value that is empty once trimmed. *)
Theorem format_admedia_stored_trimmed (value : str) :
  strip (format_admedia_stored value) = format_admedia_stored value /\
  (format_admedia_stored value = [] <-> strip value = []).
Proof.
  destruct (format_cases value) as [E | (y & m & a & Hy & Hm & Ha & E)].
  - rewrite E. split; [apply strip_idem|tauto].
  - rewrite E. split; [now apply strip_three|]. split.
    + intros H. destruct Hy as [Hne _]. destruct y; [contradiction|].
      discriminate H.
    + intros H. rewrite format_by_parts in E. unfold admedia_parts in E.
      rewrite H in E. vm_compute in E. destruct Hy as [Hne _].
      destruct y; [contradiction|discriminate E].
Qed.

(** X8: the sort key of a value is the sort key of its formatted form, so
    [sort_admedia_months] orders the formatted values as it would the
    values themselves. *)
Theorem parse_admedia_stored_format (value : str) :
  parse_admedia_stored (format_admedia_stored value) =
  parse_admedia_stored value.
Proof. unfold parse_admedia_stored. now rewrite format_format. Qed.

(** X9: the sort key of a stored value [year mm abbr] whose year [int]
    reads is the year and the month number it shows, whatever the
    abbreviation, as long as the month number has at most 4300 digits, the
    most that [int] converts; when it has more, the key is the sentinel. *)
Theorem parse_admedia_stored_canonical (year abbr : str) (y m : Z) :
  clean year -> py_int year = Some y -> 0 <= m -> clean abbr ->
  (m < 10 ^ default_max_str_digits ->
   parse_admedia_stored (year ++ sp ++ fmt02d m ++ sp ++ abbr) = (y, m)) /\
  (default_max_str_digits < str_digits (fmt02d m) ->
   parse_admedia_stored (year ++ sp ++ fmt02d m ++ sp ++ abbr) = SENTINEL).
Proof.
  intros Hy Ey Hm Ha. unfold parse_admedia_stored.
  rewrite format_canonical by assumption.
  rewrite split_ws_three by (assumption || now apply fmt02d_clean).
  simpl. rewrite Ey. simpl. split; intros Hlim.
  - now rewrite py_int_fmt02d.
  - now rewrite py_int_long.
Qed.

Lemma parse_admedia_stored_canonical_witness :
  parse_admedia_stored (py "2024 03 Mar") = (2024, 3).
Proof.
  apply (parse_admedia_stored_canonical (py "2024") (py "Mar") 2024 3).
  - split; [discriminate|]. split; repeat constructor.
  - reflexivity.
  - lia.
  - split; [discriminate|]. split; repeat constructor.
  - reflexivity.
Defined.

(** X10: a label whose abbreviation is a valid one written in any case has
    the stored value of the label with the abbreviation capitalised: the
    year, the month number in two digits, the abbreviation. *)
Theorem admedia_label_to_stored_any_case (abbr' abbr year : str) (m : Z) :
  eq_nocase abbr' abbr ->
  dict_get str_eqb MONTHS_ABBR abbr = Some m ->
  year <> [] -> all_digits year ->
  admedia_label_to_stored (abbr' ++ py "/" ++ year) =
  year ++ sp ++ fmt02d m ++ sp ++ abbr.
Proof. apply label_to_stored_nocase. Qed.

Lemma admedia_label_to_stored_any_case_witness :
  admedia_label_to_stored (py "dIC/2023") = py "2023 12 Dic".
Proof.
  apply (admedia_label_to_stored_any_case (py "dIC") (py "Dic") (py "2023") 12).
  - reflexivity.
  - reflexivity.
  - discriminate.
  - repeat constructor.
Defined.

(** X11: a stored value made of a year in digits, the number of a month and
    the abbreviation of that month comes back unchanged from its label. *)
Theorem admedia_stored_round_trip (year abbr : str) (m : Z) :
  year <> [] -> all_digits year ->
  dict_get str_eqb MONTHS_ABBR abbr = Some m ->
  admedia_label_to_stored
    (admedia_stored_to_label (year ++ sp ++ fmt02d m ++ sp ++ abbr)) =
  year ++ sp ++ fmt02d m ++ sp ++ abbr.
Proof.
  intros Hne Hd Hm.
  pose proof (months_abbr_key abbr m Hm) as Ha.
  destruct (valid_abbreviation abbr Ha) as (Hc & _ & _ & _ & m' & Hm' & Hpos).
  assert (m' = m) by congruence. subst m'.
  rewrite stored_to_label_canonical;
    [|now apply all_digits_clean|now apply month_short|exact Hc].
  apply label_to_stored_nocase; try assumption. reflexivity.
Qed.

Lemma admedia_stored_round_trip_witness :
  admedia_label_to_stored (admedia_stored_to_label (py "2024 11 Nov")) =
  py "2024 11 Nov".
Proof.
  apply (admedia_stored_round_trip (py "2024") (py "Nov") 11).
  - discriminate.
  - repeat constructor.
  - reflexivity.
Defined.

(** X12: white space around a label does not change its sort key, so the
    trimming of [normalize_instar_months] keeps the order of the values. *)
Theorem parse_instar_label_strip (label : str) :
  parse_instar_label (strip label) = parse_instar_label label.
Proof.
  destruct (parse_instar_label_cases label) as [(y & m & V) | E].
  - rewrite (parse_instar_label_valid label y m V).
    apply parse_instar_label_valid.
    now apply (proj2 (valid_instar_label_strip label y m)).
  - rewrite E.
    destruct (parse_instar_label_cases (strip label)) as [(y & m & V) | E'];
      [|exact E'].
    apply (proj1 (valid_instar_label_strip label y m)) in V.
    rewrite (parse_instar_label_valid label y m V) in E.
    destruct V as (_ & _ & _ & _ & _ & (_ & _ & Hm & _) & _).
    unfold SENTINEL in E. injection E as _ E. lia.
Qed.

(* ================================================================= *)
(** ** Further properties of the table operations *)

Module OperationFacts.

Section Worlds.

Variable TS : TableStore.
Variable settings : Settings.

Lemma get_client_world w :
  store (snd (_get_client TS settings w)) = store w /\
  trace (snd (_get_client TS settings w)) = trace w /\
  (forall c, fst (_get_client TS settings w) = Ok c ->
             self_client (snd (_get_client TS settings w)) = Some c) /\
  (forall e, fst (_get_client TS settings w) = Raise e ->
             snd (_get_client TS settings w) = w).
Proof.
  unfold _get_client, mbind, set_client, ret, raise.
  destruct (self_client w) as [c0|] eqn:Ec; simpl.
  - repeat split; try discriminate. now intros c [= <-].
  - destruct (bigquery_credentials_path settings) as [[|ch p]|];
      try destruct (credentials_file TS (ch :: p)); simpl;
      repeat match goal with
             | |- context [match ?x with _ => _ end] => destruct x; simpl
             end;
      repeat split; try discriminate; try reflexivity;
      now intros c [= <-].
Qed.

Lemma get_client_ok w c w1 :
  _get_client TS settings w = (Ok c, w1) ->
  store w1 = store w /\ trace w1 = trace w /\ self_client w1 = Some c.
Proof.
  intros E. pose proof (get_client_world w) as (H1 & H2 & H3 & _).
  rewrite E in *. simpl in *. auto.
Qed.

Lemma get_client_raise w e w1 :
  _get_client TS settings w = (Raise e, w1) -> w1 = w.
Proof.
  intros E. pose proof (get_client_world w) as (_ & _ & _ & H).
  rewrite E in *. simpl in *. now apply (H e).
Qed.

Lemma delete_months_trace config months w :
  trace (snd (_delete_months TS settings config months w)) = trace w \/
  (months <> [] /\
   exists q,
     trace (snd (_delete_months TS settings config months w)) =
     trace w ++ [Query q [(py "months", months)]]).
Proof.
  unfold _delete_months. destruct months as [|m l]; [now left|].
  change (is_nil (m :: l)) with false. cbv iota zeta.
  unfold try_except, mbind, client_query, call, months_parameter.
  destruct (_get_client TS settings w) as [[c|e] w1] eqn:Ec.
  - apply get_client_ok in Ec as (_ & Et & _).
    right. split; [discriminate|]. eexists.
    rewrite <- Et.
    match goal with
    | |- context [store_query TS ?q ?ps (store w1)] =>
        destruct (store_query TS q ps (store w1)) as [[job|[nf msg|x]] s']
    end; reflexivity.
  - apply get_client_raise in Ec. subst w1. now left.
Qed.

Lemma class_not_dot c :
  (project_char c = true \/ dataset_char c = true \/ table_char c = true) ->
  c <> "."%char /\ c <> "`"%char /\ allowed_char c = true.
Proof.
  unfold project_char, dataset_char, table_char, allowed_char, is_alnum.
  char_cases c; repeat split; try discriminate; intuition discriminate.
Qed.

Lemma count_dots_none (p : ascii -> bool) s :
  (forall c, p c = true -> c <> "."%char) ->
  all_in p s -> count_occ ascii_dec s "."%char = 0%nat.
Proof.
  intros Hp. induction 1 as [|c s Hc _ IH]; simpl; [reflexivity|].
  destruct (ascii_dec c "."); [now apply Hp in Hc|exact IH].
Qed.

Lemma table_reference_chars s :
  table_reference s ->
  Forall (fun ch => allowed_char ch = true \/ ch = "."%char) s /\
  count_occ ascii_dec s "."%char = 2%nat /\ ~ In "`"%char s.
Proof.
  intros (p & d & t & -> & (_ & Hp) & (_ & Hd) & (_ & Ht)).
  assert (Ap : Forall (fun ch => allowed_char ch = true /\ ch <> "."%char
                                 /\ ch <> "`"%char) p).
  { eapply Forall_impl; [|exact Hp]. intros c Hc.
    destruct (class_not_dot c) as (H1 & H2 & H3); auto. }
  assert (Ad : Forall (fun ch => allowed_char ch = true /\ ch <> "."%char
                                 /\ ch <> "`"%char) d).
  { eapply Forall_impl; [|exact Hd]. intros c Hc.
    destruct (class_not_dot c) as (H1 & H2 & H3); auto. }
  assert (At : Forall (fun ch => allowed_char ch = true /\ ch <> "."%char
                                 /\ ch <> "`"%char) t).
  { eapply Forall_impl; [|exact Ht]. intros c Hc.
    destruct (class_not_dot c) as (H1 & H2 & H3); auto. }
  split; [|split].
  - unfold dot. repeat (apply Forall_app; split);
      try (eapply Forall_impl; [|eassumption]; intros c H; left; apply H);
      constructor; auto.
  - unfold dot. rewrite !count_occ_app. simpl.
    rewrite (count_dots_none project_char p), (count_dots_none dataset_char d),
      (count_dots_none table_char t); try assumption; try reflexivity;
      intros c Hc; apply (class_not_dot c); auto.
  - unfold dot. rewrite !in_app_iff. simpl.
    rewrite Forall_forall in Ap, Ad, At.
    intros [H | [[H | []] | [H | [[H | []] | H]]]]; try discriminate H;
      [apply Ap in H|apply Ad in H|apply At in H]; now destruct H as (_ & _ & H).
Qed.

End Worlds.

End OperationFacts.

Import OperationFacts.

(** X13: [_get_client] never sends anything to the store; once it has
    returned a client, that client is kept in the service and every later
    call returns it and changes nothing; when it raises, nothing has
    changed. *)
Theorem get_client_cached (TS : TableStore) (settings : Settings)
    (w : world TS) :
  store (snd (_get_client TS settings w)) = store w /\
  trace (snd (_get_client TS settings w)) = trace w /\
  (forall e, fst (_get_client TS settings w) = Raise e ->
             snd (_get_client TS settings w) = w) /\
  (forall c w1, _get_client TS settings w = (Ok c, w1) ->
                self_client w1 = Some c /\
                _get_client TS settings w1 = (Ok c, w1)).
Proof.
  destruct (get_client_world TS settings w) as (H1 & H2 & H3 & H4).
  repeat split; try assumption.
  - rewrite H in H3. now apply H3.
  - apply get_client_ok in H as (_ & _ & E).
    unfold _get_client. now rewrite E.
Qed.

(** X14: a table reference that [_validate_table_reference] returns is the
    reference trimmed; it has exactly two dots, no backquote, and apart
    from the dots only letters, digits, [_], [-] and [$]; the validation
    changes nothing in the service or the store. *)
Theorem validate_table_reference_safe (TS : TableStore) (tbl c : str)
    (w w' : world TS) :
  _validate_table_reference TS tbl w = (Ok c, w') ->
  w' = w /\ c = strip tbl /\
  Forall (fun ch => allowed_char ch = true \/ ch = "."%char) c /\
  count_occ ascii_dec c "."%char = 2%nat /\ ~ In "`"%char c.
Proof.
  intros E.
  destruct (validate_table_reference_spec TS tbl w) as [[T E'] | [_ E']];
    rewrite E' in E; [|discriminate E].
  injection E as <- <-. split; [reflexivity|]. split; [reflexivity|].
  now apply table_reference_chars.
Qed.

Lemma validate_table_reference_safe_witness :
  count_occ ascii_dec (strip (py " proj-1.ds_2.tbl$20240101 ")) "."%char
  = 2%nat.
Proof.
  apply (validate_table_reference_safe SimStore
           (py " proj-1.ds_2.tbl$20240101 ")
           (strip (py " proj-1.ds_2.tbl$20240101 "))
           (start SimStore []) (start SimStore []) eq_refl).
Defined.

(** X15: whatever months are asked for, the delete operations send the
    store at most one call, a query whose [months] parameter is the
    normalized list: never empty, without duplicates and, for instar, made
    of trimmed values that are not empty. *)
Theorem delete_months_filter (TS : TableStore) (settings : Settings)
    (months : list str) (w : world TS) :
  (trace (snd (delete_instar_months TS settings months w)) = trace w \/
   exists q,
     trace (snd (delete_instar_months TS settings months w)) =
     trace w ++ [Query q [(py "months", normalize_instar_months months)]] /\
     normalize_instar_months months <> [] /\
     NoDup (normalize_instar_months months) /\
     Forall tidy (normalize_instar_months months)) /\
  (trace (snd (delete_admedia_months TS settings months w)) = trace w \/
   exists q,
     trace (snd (delete_admedia_months TS settings months w)) =
     trace w ++ [Query q [(py "months", normalize_admedia_months months)]] /\
     normalize_admedia_months months <> [] /\
     NoDup (normalize_admedia_months months)).
Proof.
  split.
  - unfold delete_instar_months, instar_config, mbind.
    pose proof (build_table_config_spec TS settings
                  (instar_project_id settings) (instar_dataset settings)
                  (instar_table settings) (instar_month_column settings) w)
      as H.
    destruct (project_resolves settings (instar_project_id settings)).
    + destruct H as (p & ->).
      destruct (delete_months_trace TS settings
                  {| project_id := p; dataset := instar_dataset settings;
                     table := instar_table settings;
                     month_column := instar_month_column settings |}
                  (normalize_instar_months months) w)
        as [E | (Hne & q & E)]; [now left|].
      right. exists q. split; [exact E|]. split; [exact Hne|].
      split; [apply normalize_instar_NoDup|apply normalize_instar_all_tidy].
    + rewrite H. now left.
  - unfold delete_admedia_months, admedia_config, mbind.
    pose proof (build_table_config_spec TS settings
                  (admedia_project_id settings) (admedia_dataset settings)
                  (admedia_table settings) (admedia_month_column settings) w)
      as H.
    destruct (project_resolves settings (admedia_project_id settings)).
    + destruct H as (p & ->).
      destruct (delete_months_trace TS settings
                  {| project_id := p; dataset := admedia_dataset settings;
                     table := admedia_table settings;
                     month_column := admedia_month_column settings |}
                  (normalize_admedia_months months) w)
        as [E | (Hne & q & E)]; [now left|].
      right. exists q. split; [exact E|]. split; [exact Hne|].
      apply dedupe_NoDup.
    + rewrite H. now left.
Qed.

Lemma normalize_for_nil dt : normalize_for dt [] = [].
Proof. unfold normalize_for. now destruct (dataset_is_admedia dt). Qed.

Lemma dot_free_split p r p' r' :
  free_of "." p -> free_of "." p' ->
  p ++ "."%char :: r = p' ++ "."%char :: r' -> p = p' /\ r = r'.
Proof.
  intros Hp. revert p'. induction Hp as [|c p Hc _ IH]; intros p' Hp' E.
  - destruct Hp' as [|c' p' Hc' _]; simpl in E.
    + now injection E as ->.
    + injection E as <- _. discriminate Hc'.
  - destruct Hp' as [|c' p' Hc' Hp']; simpl in E.
    + injection E as -> _. discriminate Hc.
    + injection E as -> E. destruct (IH p' Hp' E) as [-> ->]. now split.
Qed.

Lemma count_zero_free s : count_occ ascii_dec s "."%char = 0%nat -> free_of "." s.
Proof.
  induction s as [|c s IH]; simpl; intros H; constructor.
  - destruct (ascii_dec c "."); [discriminate H|]. now apply Ascii.eqb_neq.
  - apply IH. destruct (ascii_dec c "."); [discriminate H|exact H].
Qed.

(** The three names of a reference are its parts between the dots. *)
Lemma table_reference_parts p d t :
  table_reference (p ++ dot ++ d ++ dot ++ t) <->
  (p <> [] /\ all_in project_char p) /\
  (d <> [] /\ all_in dataset_char d) /\
  (t <> [] /\ all_in table_char t).
Proof.
  split.
  - intros T. pose proof (table_reference_chars _ T) as (_ & C & _).
    destruct T as (p' & d' & t' & E & Hp & Hd & Ht).
    unfold dot in *. rewrite !count_occ_app in C. simpl in C.
    assert (F1 : free_of "." p) by (apply count_zero_free; lia).
    assert (F2 : free_of "." d) by (apply count_zero_free; lia).
    assert (G1 : free_of "." p').
    { eapply Forall_impl; [|apply Hp]. intros c Hc. apply Ascii.eqb_neq.
      apply (class_not_dot c). auto. }
    assert (G2 : free_of "." d').
    { eapply Forall_impl; [|apply Hd]. intros c Hc. apply Ascii.eqb_neq.
      apply (class_not_dot c). auto. }
    simpl in E. apply dot_free_split in E as [-> E]; try assumption.
    apply dot_free_split in E as [-> ->]; try assumption. auto.
  - intros (Hp & Hd & Ht). now exists p, d, t.
Qed.

(** Trimming a dotted name trims its first and its last part. *)
Lemma strip_dotted p d t :
  strip (p ++ dot ++ d ++ dot ++ t) = lstrip p ++ dot ++ d ++ dot ++ rstrip t.
Proof.
  unfold strip, dot. simpl.
  rewrite lstrip_app_nonspace by reflexivity.
  replace (lstrip p ++ "."%char :: d ++ "."%char :: t)
    with ((lstrip p ++ "."%char :: d) ++ "."%char :: t)
    by (rewrite <- app_assoc; reflexivity).
  rewrite rstrip_app_nonspace by reflexivity.
  rewrite <- app_assoc. reflexivity.
Qed.

(** X16: [_validate_table_reference] trims the fully-qualified name of a
    table configuration, which removes the white space before the project
    and after the table, and accepts it exactly when the project so
    trimmed is made of letters, digits and [-], the dataset of letters,
    digits and [_], the table so trimmed of letters, digits, [_] and [$],
    none of them empty; it returns the trimmed name, and raises the error
    of the invalid reference otherwise.  White space around the project or
    the table of the configuration is thus accepted; white space anywhere
    else is not. *)
Theorem fq_table_valid (TS : TableStore) (config : TableConfig)
    (w : world TS) :
  let p := lstrip (project_id config) in
  let d := dataset config in
  let t := rstrip (table config) in
  let valid :=
    (p <> [] /\ all_in project_char p) /\
    (d <> [] /\ all_in dataset_char d) /\
    (t <> [] /\ all_in table_char t) in
  strip (fq_table config) = p ++ dot ++ d ++ dot ++ t /\
  (_validate_table_reference TS (fq_table config) w =
   (Ok (p ++ dot ++ d ++ dot ++ t), w) <-> valid) /\
  (_validate_table_reference TS (fq_table config) w =
   invalid_table_reference w <-> ~ valid).
Proof.
  intros p d t valid.
  assert (E : strip (fq_table config) = p ++ dot ++ d ++ dot ++ t)
    by apply strip_dotted.
  split; [exact E|].
  pose proof (table_reference_parts p d t) as P. fold valid in P.
  destruct (validate_table_reference_spec TS (fq_table config) w)
    as [[T ->] | [N ->]]; rewrite E in *.
  - apply P in T. split; split; auto.
    + discriminate.
    + intros N. now destruct (N T).
  - rewrite P in N. split; split; auto.
    + discriminate.
    + intros V. now destruct (N V).
Qed.

Lemma fq_table_valid_witness :
  _validate_table_reference SimStore
    (fq_table {| project_id := py " proj"; dataset := py "bayer";
                 table := py "tbl "; month_column := py "Mes" |})
    (start SimStore []) =
  (Ok (py "proj.bayer.tbl"), start SimStore []) /\
  _validate_table_reference SimStore
    (fq_table {| project_id := py "proj"; dataset := py " bayer";
                 table := py "tbl"; month_column := py "Mes" |})
    (start SimStore []) =
  invalid_table_reference (start SimStore []).
Proof.
  split.
  - apply (proj1 (proj2 (fq_table_valid SimStore
                           {| project_id := py " proj"; dataset := py "bayer";
                              table := py "tbl "; month_column := py "Mes" |}
                           (start SimStore [])))).
    repeat split; try discriminate; repeat constructor.
  - apply (proj2 (proj2 (fq_table_valid SimStore
                           {| project_id := py "proj"; dataset := py " bayer";
                              table := py "tbl"; month_column := py "Mes" |}
                           (start SimStore [])))).
    intros (_ & (_ & H) & _). inversion H as [|? ? Hc _]. discriminate Hc.
Defined.

(** X17: [append_rows], given two valid references and a client, sends the
    store one query.  When no month is given, or every month given is
    blank, the query copies the whole source table: it has no [WHERE]
    clause and no parameter.  Otherwise it filters on the normalized
    months. *)
Theorem append_rows_query (TS : TableStore) (settings : Settings)
    (src dst col dt : str) (months : option (list str)) (w w1 : world TS)
    (c : Client) :
  table_reference (strip src) -> table_reference (strip dst) ->
  _get_client TS settings w = (Ok c, w1) ->
  let ps := match months with Some l => normalize_for dt l | None => [] end in
  let insert :=
    py "INSERT INTO `" ++ strip dst ++ py "` SELECT * FROM `" ++ strip src
      ++ py "`" in
  trace (snd (append_rows TS settings src dst col months dt w)) =
  trace w ++
  [if is_nil ps then Query insert []
   else Query (insert ++ py " WHERE " ++ col ++ py " IN UNNEST(@months)")
          [(py "months", ps)]].
Proof.
  intros Hs Hd Hc ps insert. unfold append_rows. unfold mbind at 1.
  destruct (validate_table_reference_spec TS src w) as [[_ ->] | [N _]];
    [|contradiction].
  unfold mbind at 1.
  destruct (validate_table_reference_spec TS dst w) as [[_ ->] | [N _]];
    [|contradiction].
  unfold mbind at 1. rewrite Hc.
  apply get_client_ok in Hc as (_ & Et & _). rewrite <- Et.
  assert (E : match months with
              | Some (m :: ms) => normalize_for dt (m :: ms)
              | _ => []
              end = ps).
  { subst ps. destruct months as [[|m ms]|]; try reflexivity.
    symmetry. apply normalize_for_nil. }
  rewrite E. clear E. cbv zeta.
  unfold try_except, mbind, client_query, call, months_parameter.
  match goal with
  | |- context [store_query TS ?q ?p (store w1)] =>
      destruct (store_query TS q p (store w1)) as [[job|[nf msg|x]] s']
  end; simpl; f_equal; destruct ps; simpl; subst insert;
    repeat (rewrite <- ?app_assoc; simpl); reflexivity.
Qed.

Lemma append_rows_query_witness :
  trace (snd (append_rows SimStore project_settings (py "proj.ds.src")
                (py "proj.ds.dst") (py "Mes") (Some [py "  "; py ""])
                (py "admedia") (start SimStore []))) =
  [Query (py "INSERT INTO `proj.ds.dst` SELECT * FROM `proj.ds.src`") []].
Proof.
  refine (append_rows_query SimStore project_settings (py "proj.ds.src")
            (py "proj.ds.dst") (py "Mes") (py "admedia")
            (Some [py "  "; py ""]) (start SimStore []) _ _ _ _ eq_refl).
  - exists (py "proj"), (py "ds"), (py "src").
    split; [reflexivity|].
    repeat split; try discriminate; repeat constructor.
  - exists (py "proj"), (py "ds"), (py "dst").
    split; [reflexivity|].
    repeat split; try discriminate; repeat constructor.
Defined.

Lemma some_invalid_column sel available :
  (exists col, In col sel /\ ~ In col available) ->
  filter (fun col => negb (mem col available)) sel <> [].
Proof.
  intros (col & Hc & Hn) E.
  assert (H : In col (filter (fun col => negb (mem col available)) sel)).
  { apply filter_In. split; [exact Hc|].
    destruct (mem col available) eqn:M; [|reflexivity].
    apply mem_In in M. contradiction. }
  rewrite E in H. exact H.
Qed.

(** X18: [export_rows] raises the error of the empty selection exactly when
    the month list is empty, and then nothing has been done: no client
    built, no call sent. *)
Theorem export_rows_month_error (TS : TableStore) (settings : Settings)
    (config : TableConfig) (months : list str) (dt : str)
    (sel : option (list str)) (w w' : world TS) :
  export_rows TS settings config months dt sel w =
  (Raise (BigQueryServiceError NoMonthSelected), w') <->
  months = [] /\ w' = w.
Proof.
  split.
  - destruct months as [|m l].
    + now intros [= <-].
    + intros E.
      now destruct (export_rows_not_month_error TS settings config m l dt sel
                      w _ w' E).
  - now intros [-> ->].
Qed.

(** X19: when a requested column is not a column of the table,
    [export_rows] raises the error that names the unknown columns, all of
    them and in the order of the request, and sends no query: the listing
    of the columns is the only call. *)
Theorem export_rows_invalid_columns (TS : TableStore) (settings : Settings)
    (config : TableConfig) (months : list str) (dt : str)
    (sel available : list str) (w w1 w2 : world TS) (c : Client) :
  months <> [] ->
  _get_client TS settings w = (Ok c, w1) ->
  list_columns TS settings (fq_table config) w1 = (Ok available, w2) ->
  (exists col, In col sel /\ ~ In col available) ->
  export_rows TS settings config months dt (Some sel) w =
  (Raise (BigQueryServiceError
            (InvalidColumns
               (filter (fun col => negb (mem col available)) sel))), w2) /\
  forall col,
    In col (filter (fun col => negb (mem col available)) sel) <->
    In col sel /\ ~ In col available.
Proof.
  intros Hne Hc Hl Hx. split.
  - unfold export_rows. destruct months as [|m months]; [contradiction|].
    change (is_nil (m :: months)) with false. cbv iota.
    unfold mbind at 1. rewrite Hc. unfold mbind at 1. rewrite Hl.
    unfold mbind at 1.
    destruct sel as [|s0 sel]; [now destruct Hx as (col & [] & _)|].
    pose proof (some_invalid_column (s0 :: sel) available Hx) as N.
    destruct (filter _ (s0 :: sel)) as [|i l] eqn:F; [contradiction|].
    reflexivity.
  - intros col. rewrite filter_In. split; intros [H1 H2]; split; auto.
    + intros H. apply mem_In in H. now rewrite H in H2.
    + destruct (mem col available) eqn:M; [|reflexivity].
      apply mem_In in M. contradiction.
Qed.

Lemma export_rows_invalid_columns_witness :
  export_rows SimStore project_settings instar_table_config
    [py "Marzo/2024"] (py "instar") (Some [py "Mes_Anio"])
    (start SimStore [py "proj.bayer.instar_historico"]) =
  (Raise (BigQueryServiceError (InvalidColumns [py "Mes_Anio"])),
   Build_world SimStore
     (Some {| client_project := py "proj"; client_credentials := None;
              client_location := None |})
     [py "proj.bayer.instar_historico"]
     [GetTable (py "proj.bayer.instar_historico")]).
Proof.
  refine (proj1 (export_rows_invalid_columns SimStore project_settings
                   instar_table_config [py "Marzo/2024"] (py "instar")
                   [py "Mes_Anio"] _
                   (start SimStore [py "proj.bayer.instar_historico"])
                   _ _ _ _ eq_refl eq_refl _)).
  - discriminate.
  - exists (py "Mes_Anio"). split; [now left|]. intros [].
Defined.

(** X20: when [export_rows] returns, the field names are the requested
    columns, in the order of the request, or all the columns of the table
    when none is requested ([None] or an empty list). *)
Theorem export_rows_fieldnames (TS : TableStore) (settings : Settings)
    (config : TableConfig) (months : list str) (dt : str)
    (sel : option (list str)) (w w1 w2 w3 : world TS) (c : Client)
    (available fieldnames : list str) (rows : list (Row TS)) :
  _get_client TS settings w = (Ok c, w1) ->
  list_columns TS settings (fq_table config) w1 = (Ok available, w2) ->
  export_rows TS settings config months dt sel w =
    (Ok (fieldnames, rows), w3) ->
  fieldnames =
    (if is_nil (requested sel) then available else requested sel) /\
  (forall col, In col (requested sel) -> In col available).
Proof.
  intros Hc Hl. unfold export_rows.
  destruct months as [|m months]; [discriminate|].
  change (is_nil (m :: months)) with false. cbv iota.
  unfold mbind at 1. rewrite Hc. unfold mbind at 1. rewrite Hl.
  unfold mbind at 1.
  destruct sel as [[|s0 sel]|]; simpl requested.
  - unfold ret, try_except, mbind, client_query, call. cbv zeta.
    match goal with
    | |- context [store_query TS ?q ?p (store w2)] =>
        destruct (store_query TS q p (store w2)) as [[job|[nf msg|x]] s']
    end; simpl; try discriminate. intros [= <- _ _]. split; [reflexivity|].
    intros col [].
  - destruct (filter _ (s0 :: sel)) as [|i l] eqn:F.
    + change (negb (is_nil (@nil str))) with false. cbv iota.
      unfold ret, try_except, mbind, client_query, call. cbv zeta.
      match goal with
      | |- context [store_query TS ?q ?p (store w2)] =>
          destruct (store_query TS q p (store w2)) as [[job|[nf msg|x]] s']
      end; simpl; try discriminate. intros [= <- _ _].
      split; [reflexivity|]. intros col Hcol.
      destruct (mem col available) eqn:M; [now apply mem_In|].
      assert (H : In col (filter (fun col => negb (mem col available))
                            (s0 :: sel))).
      { apply filter_In. split; [exact Hcol|]. now rewrite M. }
      rewrite F in H. destruct H.
    + discriminate.
  - unfold ret, try_except, mbind, client_query, call. cbv zeta.
    match goal with
    | |- context [store_query TS ?q ?p (store w2)] =>
        destruct (store_query TS q p (store w2)) as [[job|[nf msg|x]] s']
    end; simpl; try discriminate. intros [= <- _ _]. split; [reflexivity|].
    intros col [].
Qed.

Lemma export_rows_fieldnames_witness :
  [py "B"; py "A"] =
  (if is_nil (requested (Some [py "B"; py "A"])) then [py "A"; py "B"]
   else requested (Some [py "B"; py "A"])) /\
  (forall col, In col (requested (Some [py "B"; py "A"])) ->
               In col [py "A"; py "B"]).
Proof.
  refine (export_rows_fieldnames TwoColumnStore project_settings
            instar_table_config [py "Marzo/2024"] (py "instar")
            (Some [py "B"; py "A"]) (start TwoColumnStore []) _ _ _ _
            [py "A"; py "B"] _ [] eq_refl eq_refl eq_refl).
Defined.

(** X21: when a table with the name of the temporary table already
    exists, the import stops with a 400 error after that look-up: nothing
    is loaded, merged or deleted, so the existing table is left alone. *)
Theorem import_existing_table (TS : TableStore) (settings : Settings)
    (config : TableConfig) (name : str) (df : DataFrame TS)
    (sch : list SchemaField) (w w1 w2 : world TS) (c : Client) (t : Table) :
  _get_client TS settings w = (Ok c, w1) ->
  client_get_table TS (temp_table_of config name) w1 = (Ok t, w2) ->
  import_instar_load_and_merge TS settings config name df sch w =
  (Raise (HTTPException 400 TableAlreadyExists), w2) /\
  trace w2 = trace w ++ [GetTable (temp_table_of config name)].
Proof.
  intros Hc Hg. split.
  - unfold import_instar_load_and_merge. unfold mbind at 1. rewrite Hc.
    unfold mbind at 1. now rewrite Hg.
  - apply get_client_ok in Hc as (_ & Et & _).
    unfold client_get_table, call in Hg.
    destruct (store_get_table TS _ (store w1)) as [r s'].
    injection Hg as _ <-. simpl. now rewrite Et.
Qed.

Lemma import_existing_table_witness :
  import_instar_load_and_merge SimStore project_settings instar_table_config
    (py "instar_historico") tt []
    (start SimStore [py "proj.bayer.instar_historico"]) =
  (Raise (HTTPException 400 TableAlreadyExists),
   Build_world SimStore
     (Some {| client_project := py "proj"; client_credentials := None;
              client_location := None |})
     [py "proj.bayer.instar_historico"]
     [GetTable (py "proj.bayer.instar_historico")]).
Proof.
  refine (proj1 (import_existing_table SimStore project_settings
                   instar_table_config (py "instar_historico") tt []
                   (start SimStore [py "proj.bayer.instar_historico"])
                   _ _ _ _ eq_refl eq_refl)).
Defined.

(** X22: when the load of the temporary table fails in the store, the
    import stops with a 400 error that carries the message of the store's
    exception, or what [str] gives of the exception when its message is
    empty; it has sent the look-up and the load, and neither merges nor
    deletes. *)
Theorem import_load_failure (TS : TableStore) (settings : Settings)
    (config : TableConfig) (name : str) (df : DataFrame TS)
    (sch : list SchemaField) (w w1 w2 w3 : world TS) (c : Client)
    (msg text msg' text' : str) (nf : bool) :
  _get_client TS settings w = (Ok c, w1) ->
  client_get_table TS (temp_table_of config name) w1 =
    (Raise (StoreError (GoogleAPICallError true msg text)), w2) ->
  client_load_table_from_dataframe TS df (temp_table_of config name) sch w2 =
    (Raise (StoreError (GoogleAPICallError nf msg' text')), w3) ->
  import_instar_load_and_merge TS settings config name df sch w =
  (Raise (HTTPException 400
            (ErrorLoadingFile (if is_empty msg' then text' else msg'))),
   w3) /\
  trace w3 =
  trace w ++ [GetTable (temp_table_of config name);
              LoadTable (temp_table_of config name)].
Proof.
  intros Hc Hg Hl. split.
  - unfold import_instar_load_and_merge. unfold mbind at 1. rewrite Hc.
    unfold mbind at 1. rewrite Hg. unfold mbind at 1.
    unfold try_except at 1. now rewrite Hl.
  - apply get_client_ok in Hc as (_ & Et & _).
    unfold client_get_table, call in Hg.
    destruct (store_get_table TS _ (store w1)) as [r s'].
    injection Hg as _ <-.
    unfold client_load_table_from_dataframe, call in Hl. simpl in Hl.
    destruct (store_load_table TS df _ sch s') as [r' s''].
    injection Hl as _ <-. simpl. rewrite Et, <- app_assoc. reflexivity.
Qed.

Lemma import_load_failure_witness :
  fst (import_instar_load_and_merge LoadFailsStore project_settings
         instar_table_config (py "tmp_upload") tt []
         (start LoadFailsStore [])) =
  Raise (HTTPException 400
           (ErrorLoadingFile (if is_empty [] then py "400 " else []))).
Proof.
  refine (f_equal fst
            (proj1 (import_load_failure LoadFailsStore project_settings
                      instar_table_config (py "tmp_upload") tt []
                      (start LoadFailsStore []) _ _ _ _ _ _ _ _ _
                      eq_refl eq_refl eq_refl))).
Defined.

(** X23: once the temporary table is loaded, the import answers as the
    merge did: with the number of rows the merge appended, or, when the
    merge raised a service error, with a 400 error of the same text; an
    error of the deletion that is not a [GoogleAPICallError] replaces
    either. *)
Theorem import_outcome (TS : TableStore) (settings : Settings)
    (config : TableConfig) (name : str) (df : DataFrame TS)
    (sch : list SchemaField) (w w1 w2 w3 : world TS) (c : Client)
    (msg text : str) :
  _get_client TS settings w = (Ok c, w1) ->
  client_get_table TS (temp_table_of config name) w1 =
    (Raise (StoreError (GoogleAPICallError true msg text)), w2) ->
  client_load_table_from_dataframe TS df (temp_table_of config name) sch w2 =
    (Ok tt, w3) ->
  let temp := temp_table_of config name in
  let appended :=
    append_rows TS settings temp (fq_table config) (month_column config)
      (Some []) (py "instar") w3 in
  fst (import_instar_load_and_merge TS settings config name df sch w) =
  match fst (store_delete_table TS temp true (store (snd appended))) with
  | Failed (OtherError x) => Raise (StoreError (OtherError x))
  | _ =>
      match fst appended with
      | Ok rows =>
          Ok {| table_name := fq_table config; temp_table := temp;
                rows_imported := rows |}
      | Raise (BigQueryServiceError m) => Raise (HTTPException 400 m)
      | Raise e => Raise e
      end
  end.
Proof.
  intros Hc Hg Hl temp appended.
  unfold import_instar_load_and_merge. unfold mbind at 1. rewrite Hc.
  unfold mbind at 1. rewrite Hg. unfold mbind at 1.
  unfold try_except at 1. rewrite Hl.
  unfold mbind, try_finally, merge_temp_table, drop_temp_table,
    client_delete_table, try_except, call.
  subst appended temp.
  destruct (append_rows TS settings _ _ _ _ _ w3) as [[rows|[m|st d|e]] w4];
    simpl;
    destruct (store_delete_table TS _ true (store w4)) as [[[]|[nf m'|x]] s'];
    reflexivity.
Qed.

Lemma import_outcome_witness :
  fst (import_instar_load_and_merge SimStore project_settings
         instar_table_config (py "tmp_upload") tt []
         (start SimStore [py "proj.bayer.instar_historico"])) =
  Ok {| table_name := py "proj.bayer.instar_historico";
        temp_table := py "proj.bayer.tmp_upload"; rows_imported := 0 |}.
Proof.
  refine (import_outcome SimStore project_settings instar_table_config
            (py "tmp_upload") tt []
            (start SimStore [py "proj.bayer.instar_historico"])
            _ _ _ _ _ _ eq_refl eq_refl eq_refl).
Defined.

(* ================================================================= *)
(** ** The checks on an upload *)

Module UploadFacts.

Import Regex.

Lemma table_name_match s :
  re_match TABLE_NAME_PATTERN (strip s) = true <->
  strip s <> [] /\ all_in name_char (strip s).
Proof.
  unfold TABLE_NAME_PATTERN. rewrite re_match_spec, lang_plus_class.
  split; [|now left].
  intros [H | (s' & E & _)]; [exact H|].
  pose proof (strip_is_trimmed s) as T. rewrite E in T.
  apply trimmed_last in T. discriminate T.
Qed.

Lemma name_char_table_char c : name_char c = true -> table_char c = true.
Proof.
  unfold name_char, table_char. intros ->. reflexivity.
Qed.

Lemma filter_nil_iff {A : Type} (p : A -> bool) l :
  filter p l = [] <-> forall x, In x l -> p x = false.
Proof.
  induction l as [|a l IH]; simpl.
  - split; [intros _ x []|reflexivity].
  - destruct (p a) eqn:E.
    + split; [discriminate|]. intros H. specialize (H a (or_introl eq_refl)).
      congruence.
    + rewrite IH. split.
      * intros H x [<- | Hx]; auto.
      * intros H x Hx. apply H. now right.
Qed.

Lemma not_mem_iff x l : negb (mem x l) = false <-> In x l.
Proof. rewrite negb_false_iff. apply mem_In. Qed.

(** X24: an upload that passes the first checks of [import_instar] has a
    name that is the given name trimmed, not empty and made of letters,
    digits and [_] only, one of the two Excel content types and some
    content; with a configuration whose project and dataset are valid, the
    temporary table named after it is a reference that
    [_validate_table_reference] accepts. *)
Theorem check_upload_accepts (table_name name : str)
    (content_type : option str) (content : list Init.Byte.byte) :
  check_upload table_name content_type content = inr name ->
  name = strip table_name /\ name <> [] /\ all_in name_char name /\
  (exists t, content_type = Some t /\ In t ALLOWED_EXCEL_CONTENT_TYPES) /\
  content <> [] /\
  forall config,
    project_id config <> [] -> all_in project_char (project_id config) ->
    dataset config <> [] -> all_in dataset_char (dataset config) ->
    table_reference (temp_table_of config name).
Proof.
  unfold check_upload. cbv zeta.
  destruct (is_empty (strip table_name)) eqn:E1; [discriminate|].
  destruct (re_match TABLE_NAME_PATTERN (strip table_name)) eqn:E2;
    [|discriminate]. cbn [negb].
  apply table_name_match in E2 as [Hne Hn].
  destruct content_type as [t|]; [|discriminate].
  destruct (mem t ALLOWED_EXCEL_CONTENT_TYPES) eqn:E3; [|discriminate].
  cbn [negb].
  destruct content as [|b content]; [discriminate|]. cbn [is_nil].
  intros [= <-]. split; [reflexivity|]. split; [exact Hne|].
  split; [exact Hn|]. split; [exists t; split; [reflexivity|now apply mem_In]|].
  split; [discriminate|].
  intros config P1 P2 D1 D2.
  exists (project_id config), (dataset config), (strip table_name).
  split; [reflexivity|]. repeat split; try assumption.
  eapply Forall_impl; [|exact Hn]. apply name_char_table_char.
Qed.

Lemma check_upload_accepts_witness :
  table_reference (temp_table_of instar_table_config (py "tmp_upload_1")).
Proof.
  refine (proj2 (proj2 (proj2 (proj2 (proj2
            (check_upload_accepts (py " tmp_upload_1 ") (py "tmp_upload_1")
               (Some (py "application/vnd.ms-excel")) [Init.Byte.x50]
               eq_refl)))))
            instar_table_config _ _ _ _).
  - discriminate.
  - repeat constructor.
  - discriminate.
  - repeat constructor.
Defined.

(** X25: the column check of [import_instar] passes exactly when the
    column names of the upload, trimmed, and those of the schema are the
    same names.  Otherwise it reports the schema columns that the upload
    lacks, all of them and in the order of the schema, and only when none
    is lacking the columns of the upload that the schema does not have. *)
Theorem check_columns_exact (expected columns : list str) :
  (check_columns expected columns = inr (map strip columns) <->
   forall c, In c expected <-> In c (map strip columns)) /\
  (forall missing,
     check_columns expected columns = inl (MissingColumns missing) <->
     missing <> [] /\
     missing = filter (fun c => negb (mem c (map strip columns))) expected) /\
  (forall extra,
     check_columns expected columns = inl (UnknownColumns extra) <->
     (forall c, In c expected -> In c (map strip columns)) /\
     extra <> [] /\
     extra = filter (fun c => negb (mem c expected)) (map strip columns)).
Proof.
  unfold check_columns. set (cols := map strip columns).
  destruct (filter (fun c => negb (mem c cols)) expected) as [|m ms] eqn:Em.
  - pose proof (proj1 (filter_nil_iff _ _) Em) as Hm.
    assert (Ha : forall c, In c expected -> In c cols).
    { intros c Hc. apply not_mem_iff. now apply Hm. }
    destruct (filter (fun c => negb (mem c expected)) cols) as [|x xs] eqn:Ex.
    + pose proof (proj1 (filter_nil_iff _ _) Ex) as Hx.
      split; [|split].
      * split; [|reflexivity]. intros _ c. split; [apply Ha|].
        intros Hc. apply not_mem_iff. now apply Hx.
      * intros missing. split; [discriminate|]. now intros [N ->].
      * intros extra. split; [discriminate|]. now intros (_ & N & ->).
    + split; [|split].
      * split; [discriminate|]. intros H. exfalso.
        assert (Hin : In x (filter (fun c => negb (mem c expected)) cols))
          by (rewrite Ex; now left).
        apply filter_In in Hin as [Hin Hn]. apply H in Hin.
        apply mem_In in Hin. now rewrite Hin in Hn.
      * intros missing. split; [discriminate|]. now intros [N ->].
      * intros extra. simpl. split.
        -- intros [= <-]. split; [exact Ha|]. split; [discriminate|reflexivity].
        -- now intros (_ & _ & ->).
  - split; [|split].
    + split; [discriminate|]. intros H. exfalso.
      assert (Hin : In m (filter (fun c => negb (mem c cols)) expected))
        by (rewrite Em; now left).
      apply filter_In in Hin as [Hin Hn]. apply H in Hin.
      apply mem_In in Hin. now rewrite Hin in Hn.
    + intros missing. simpl. split.
      * intros [= <-]. split; [discriminate|reflexivity].
      * now intros [_ ->].
    + intros extra. simpl. split; [discriminate|]. intros (Ha & _ & _).
      exfalso.
      assert (Hin : In m (filter (fun c => negb (mem c cols)) expected))
        by (rewrite Em; now left).
      apply filter_In in Hin as [Hin Hn]. apply Ha in Hin.
      apply mem_In in Hin. now rewrite Hin in Hn.
Qed.

End UploadFacts.


(* ================================================================= *)
(** ** The operations that read *)

Module ReadFacts.

Section Worlds.

Variable TS : TableStore.
Variable settings : Settings.
Variable month_value : Row TS -> cell.

Lemma build_table_config_world p d t c w :
  snd (_build_table_config TS settings p d t c w) = w.
Proof.
  unfold _build_table_config, mbind, _resolve_project_id, ret, raise.
  destruct (py_or p (bigquery_project_id settings)) as [[|ch s]|]; reflexivity.
Qed.

Lemma strings_In values v : In v (strings values) <-> In (StrCell v) values.
Proof.
  unfold strings. rewrite in_flat_map. split.
  - intros (c & Hc & Hv). destruct c; simpl in Hv; try tauto.
    destruct Hv as [->|[]]. exact Hc.
  - intros H. exists (StrCell v). split; [exact H|now left].
Qed.

Lemma not_none_In (rows : list (Row TS)) v :
  In (StrCell v) (filter not_none (map month_value rows)) <->
  exists row, In row rows /\ month_value row = StrCell v.
Proof.
  rewrite filter_In, in_map_iff. split.
  - intros ((row & E & H) & _). now exists row.
  - intros (row & H & E). split; [now exists row|reflexivity].
Qed.

(** What [_fetch_distinct_months] does in each case of its one query. *)
Lemma fetch_distinct_months_cases config w :
  let r := _fetch_distinct_months TS settings month_value config w in
  (exists e, fst r = Raised (Earlier e) /\ snd r = w /\
             forall m, e <> StoreError m) \/
  exists q w1,
    store w1 = store w /\ trace w1 = trace w /\
    trace (snd r) = trace w ++ [Query q []] /\
    match store_query TS q [] (store w) with
    | (Done (rows, _), s) =>
        fst r = Returned (filter not_none (map month_value rows)) /\
        store (snd r) = s
    | (Failed (GoogleAPICallError _ msg _), s) =>
        fst r = Raised (BigQueryServiceErrorOf
                          (ErrorFetchingMonths (fq_table config) msg)) /\
        store (snd r) = s
    | (Failed (OtherError what), s) =>
        fst r = Raised (Earlier (StoreError (OtherError what))) /\
        store (snd r) = s
    end.
Proof.
  cbv zeta. unfold _fetch_distinct_months, rbind, earlier.
  destruct (_get_client TS settings w) as [[c|e] w1] eqn:Ec.
  - right. apply get_client_ok in Ec as (Hs & Ht & _).
    unfold wrapped, mbind, client_query, call, ret.
    match goal with
    | |- context [store_query TS ?q [] (store w1)] =>
        exists q, w1; rewrite <- Hs;
        destruct (store_query TS q [] (store w1))
          as [[[rows n]|[[|] msg text|what]] s]
    end; simpl; rewrite ?Ht; auto.
  - left. exists e. simpl. split; [reflexivity|].
    split; [now apply get_client_raise in Ec|].
    intros m ->. revert Ec.
    unfold _get_client, mbind, set_client, ret, raise.
    destruct (self_client w); [discriminate|].
    destruct (bigquery_credentials_path settings) as [[|ch s]|];
      try destruct (credentials_file TS (ch :: s)); simpl;
      try discriminate;
      match goal with
      | |- context [match ?x with _ => _ end] =>
          destruct x as [[|? ?]|]; discriminate
      end.
Qed.

End Worlds.

End ReadFacts.


Module ReadTheorems.

Import ReadFacts.

Lemma texts_In {TS : TableStore} (month_value : Row TS -> cell)
    (rows : list (Row TS)) (u : str) :
  In u (texts (filter not_none (map month_value rows))) <->
  exists row, In row rows /\ cell_text (month_value row) = Some u.
Proof.
  unfold texts. rewrite in_flat_map. split.
  - intros (c & Hc & Hu). apply filter_In in Hc as (Hc & Hn).
    apply in_map_iff in Hc as (row & <- & Hrow). exists row.
    split; [exact Hrow|].
    destruct (month_value row); simpl in *; try discriminate;
      destruct Hu as [->|[]]; reflexivity.
  - intros (row & Hrow & E). exists (month_value row). split.
    + apply filter_In. split; [apply in_map; exact Hrow|].
      now destruct (month_value row).
    + destruct (month_value row); simpl in *; try discriminate;
        injection E as ->; now left.
Qed.

Lemma fetch_distinct_months_returns {TS : TableStore} (settings : Settings)
    (month_value : Row TS -> cell) (config : TableConfig)
    (values : list cell) (w w' : world TS) :
  _fetch_distinct_months TS settings month_value config w =
  (Returned values, w') ->
  exists q rows n,
    store_query TS q [] (store w) = (Done (rows, n), store w') /\
    trace w' = trace w ++ [Query q []] /\
    values = filter not_none (map month_value rows).
Proof.
  intros E.
  pose proof (fetch_distinct_months_cases TS settings month_value config w)
    as H.
  cbv zeta in H. rewrite E in H. simpl in H.
  destruct H as [(e & H & _)|(q & w1 & _ & _ & Ht & H)]; [discriminate|].
  exists q.
  destruct (store_query TS q [] (store w))
    as [[[rows n]|[nf msg text|what]] s];
    destruct H as (H & Hs); try discriminate.
  exists rows, n. injection H as ->. subst s. auto.
Qed.

(** X26: when [fetch_instar_months] returns, it has sent one query without
    parameters to the store, and its result holds the string values of the
    month column of the rows of the answer, each once, in the order of
    [parse_instar_label]; the values that are not strings are left out. *)
Theorem fetch_instar_months_result (TS : TableStore) (settings : Settings)
    (month_value : Row TS -> cell) (months : list str) (w w' : world TS) :
  fetch_instar_months TS settings month_value w = (Returned months, w') ->
  exists q rows n,
    store_query TS q [] (store w) = (Done (rows, n), store w') /\
    trace w' = trace w ++ [Query q []] /\
    NoDup months /\ sorted_by parse_instar_label months /\
    forall v, In v months <->
              exists row, In row rows /\ month_value row = StrCell v.
Proof.
  unfold fetch_instar_months, rbind, earlier, instar_config.
  pose proof (build_table_config_world TS settings
                (instar_project_id settings) (instar_dataset settings)
                (instar_table settings) (instar_month_column settings) w) as Hw.
  destruct (_build_table_config TS settings _ _ _ _ w) as [[config|e] w0];
    simpl in Hw; subst w0; [|discriminate].
  destruct (_fetch_distinct_months TS settings month_value config w)
    as [[values|e] w1] eqn:E; [|discriminate].
  intros [= <- <-].
  apply fetch_distinct_months_returns in E as (q & rows & n & Hq & Ht & ->).
  exists q, rows, n. split; [exact Hq|]. split; [exact Ht|].
  split; [apply MonthsMore.sort_instar_NoDup|].
  split; [apply sorted_sorted|].
  intros v. unfold sort_instar_months.
  rewrite sorted_In, dedupe_In, strings_In. apply not_none_In.
Qed.

Lemma fetch_instar_months_result_witness :
  exists q rows n,
    store_query MonthStore q [] [] = (Done (rows, n), []) /\
    trace (snd (fetch_instar_months MonthStore project_settings (fun c => c)
                  (start MonthStore []))) = [] ++ [Query q []] /\
    NoDup [py "Enero/2024"; py "Marzo/2024"] /\
    sorted_by parse_instar_label [py "Enero/2024"; py "Marzo/2024"] /\
    forall v, In v [py "Enero/2024"; py "Marzo/2024"] <->
              exists row, In row rows /\ row = StrCell v.
Proof.
  exact (fetch_instar_months_result MonthStore project_settings (fun c => c)
           [py "Enero/2024"; py "Marzo/2024"] (start MonthStore [])
           (snd (fetch_instar_months MonthStore project_settings (fun c => c)
                   (start MonthStore [])))
           eq_refl).
Defined.

(** X27: when [fetch_admedia_months] returns, it has sent one query without
    parameters to the store, and its result holds the stored forms of the
    values of the month column that are not blank, strings or not, each
    once, in the order of [parse_admedia_stored]. *)
Theorem fetch_admedia_months_result (TS : TableStore) (settings : Settings)
    (month_value : Row TS -> cell) (months : list str) (w w' : world TS) :
  fetch_admedia_months TS settings month_value w = (Returned months, w') ->
  exists q rows n,
    store_query TS q [] (store w) = (Done (rows, n), store w') /\
    trace w' = trace w ++ [Query q []] /\
    NoDup months /\ sorted_by parse_admedia_stored months /\
    Forall (fun v => format_admedia_stored v = v) months /\
    forall v, In v months <->
              exists row u, In row rows /\
                            cell_text (month_value row) = Some u /\
                            strip u <> [] /\
                            v = format_admedia_stored
                                  (admedia_canonical (strip u)).
Proof.
  unfold fetch_admedia_months, rbind, earlier, admedia_config.
  pose proof (build_table_config_world TS settings
                (admedia_project_id settings) (admedia_dataset settings)
                (admedia_table settings) (admedia_month_column settings) w)
    as Hw.
  destruct (_build_table_config TS settings _ _ _ _ w) as [[config|e] w0];
    simpl in Hw; subst w0; [|discriminate].
  destruct (_fetch_distinct_months TS settings month_value config w)
    as [[values|e] w1] eqn:E; [|discriminate].
  intros [= <- <-].
  apply fetch_distinct_months_returns in E as (q & rows & n & Hq & Ht & ->).
  exists q, rows, n. split; [exact Hq|]. split; [exact Ht|].
  split; [apply MonthsMore.sort_admedia_NoDup|].
  split; [apply sorted_sorted|].
  split; [apply Forall_forall; apply MonthsMore.sort_admedia_formatted|].
  intros v. rewrite MonthsMore.sort_admedia_In. unfold normalize_admedia_months.
  split.
  - intros (c & Hc & ->). apply (proj1 (dedupe_In _ _)) in Hc.
    rewrite normalize_admedia_loop in Hc. simpl in Hc.
    apply in_map_iff in Hc as (raw & <- & Hraw).
    apply filter_In in Hraw as (Hraw & Hne).
    apply in_map_iff in Hraw as (u & <- & Hu).
    apply texts_In in Hu as (row & Hrow & Hcell).
    exists row, u. repeat split; auto.
    unfold nonempty in Hne. now destruct (strip u).
  - intros (row & u & Hrow & Hcell & Hne & ->).
    exists (admedia_canonical (strip u)). split; [|reflexivity].
    apply dedupe_In. rewrite normalize_admedia_loop. simpl.
    apply in_map. apply filter_In. split.
    + apply in_map. apply texts_In. now exists row.
    + unfold nonempty. now destruct (strip u).
Qed.

Lemma fetch_admedia_months_result_witness :
  exists q rows n,
    store_query MonthStore q [] [] = (Done (rows, n), []) /\
    trace (snd (fetch_admedia_months MonthStore project_settings (fun c => c)
                  (start MonthStore []))) = [] ++ [Query q []] /\
    NoDup [py "7 00 00"; py "Marzo/2024 00 00"; py "Enero/2024 00 00"] /\
    sorted_by parse_admedia_stored
      [py "7 00 00"; py "Marzo/2024 00 00"; py "Enero/2024 00 00"] /\
    Forall (fun v => format_admedia_stored v = v)
      [py "7 00 00"; py "Marzo/2024 00 00"; py "Enero/2024 00 00"] /\
    forall v,
      In v [py "7 00 00"; py "Marzo/2024 00 00"; py "Enero/2024 00 00"] <->
      exists row u, In row rows /\ cell_text row = Some u /\
                    strip u <> [] /\
                    v = format_admedia_stored (admedia_canonical (strip u)).
Proof.
  exact (fetch_admedia_months_result MonthStore project_settings (fun c => c)
           [py "7 00 00"; py "Marzo/2024 00 00"; py "Enero/2024 00 00"]
           (start MonthStore [])
           (snd (fetch_admedia_months MonthStore project_settings (fun c => c)
                   (start MonthStore [])))
           eq_refl).
Defined.

Lemma fetch_distinct_months_trace {TS : TableStore} (settings : Settings)
    (month_value : Row TS -> cell) (config : TableConfig) (w : world TS) :
  let w' := snd (_fetch_distinct_months TS settings month_value config w) in
  trace w' = trace w \/ exists q, trace w' = trace w ++ [Query q []].
Proof.
  pose proof (fetch_distinct_months_cases TS settings month_value config w)
    as H.
  cbv zeta in *.
  destruct H as [(e & _ & -> & _)|(q & w1 & _ & _ & Ht & _)];
    [now left|right; now exists q].
Qed.

(** X28: whatever their outcome, [fetch_instar_months] and
    [fetch_admedia_months] send the store at most one call, a query without
    parameters: they load nothing and delete nothing. *)
Theorem fetch_months_one_query (TS : TableStore) (settings : Settings)
    (month_value : Row TS -> cell) (w : world TS) :
  let w1 := snd (fetch_instar_months TS settings month_value w) in
  let w2 := snd (fetch_admedia_months TS settings month_value w) in
  (trace w1 = trace w \/ exists q, trace w1 = trace w ++ [Query q []]) /\
  (trace w2 = trace w \/ exists q, trace w2 = trace w ++ [Query q []]).
Proof.
  cbv zeta. split.
  - unfold fetch_instar_months, rbind, earlier, instar_config.
    pose proof (build_table_config_world TS settings
                  (instar_project_id settings) (instar_dataset settings)
                  (instar_table settings) (instar_month_column settings) w)
      as Hw.
    destruct (_build_table_config TS settings _ _ _ _ w) as [[config|e] w0];
      simpl in Hw; subst w0; [|now left].
    pose proof (fetch_distinct_months_trace settings month_value config w)
      as H. cbv zeta in H.
    now destruct (_fetch_distinct_months TS settings month_value config w)
      as [[values|e] w1].
  - unfold fetch_admedia_months, rbind, earlier, admedia_config.
    pose proof (build_table_config_world TS settings
                  (admedia_project_id settings) (admedia_dataset settings)
                  (admedia_table settings) (admedia_month_column settings) w)
      as Hw.
    destruct (_build_table_config TS settings _ _ _ _ w) as [[config|e] w0];
      simpl in Hw; subst w0; [|now left].
    pose proof (fetch_distinct_months_trace settings month_value config w)
      as H. cbv zeta in H.
    now destruct (_fetch_distinct_months TS settings month_value config w)
      as [[values|e] w1].
Qed.

(** X29: when [get_table_schema] returns the schema of a table,
    [list_columns] returns the names of its fields and [get_table_info] the
    trimmed reference of the table, from the same state and with the same
    single call of [get_table]; the reference is a valid one. *)
Theorem table_reads_agree (TS : TableStore) (settings : Settings)
    (tbl : str) (sch : list SchemaField) (w w' : world TS) :
  get_table_schema TS settings tbl w = (Returned sch, w') ->
  table_reference (strip tbl) /\
  trace w' = trace w ++ [GetTable (strip tbl)] /\
  list_columns TS settings tbl w = (Ok (map field_name sch), w') /\
  exists n,
    get_table_info TS settings tbl w =
    (Returned {| info_table := strip tbl; row_count := n |}, w').
Proof.
  unfold get_table_schema, get_table_info, list_columns, rbind, earlier,
    wrapped, try_except, mbind.
  destruct (validate_table_reference_spec TS tbl w) as [[T ->] | [_ ->]];
    [|discriminate].
  destruct (_get_client TS settings w) as [[c|e] w1] eqn:Ec; [|discriminate].
  apply get_client_ok in Ec as (_ & Ht & _).
  unfold client_get_table, call, ret.
  destruct (store_get_table TS (strip tbl) (store w1))
    as [[t|[[|] msg|what]] s]; simpl; try discriminate.
  intros [= <- <-]. split; [exact T|]. split; [now rewrite <- Ht|].
  split; [reflexivity|]. now eexists.
Qed.

Lemma table_reads_agree_witness :
  table_reference (strip (py " proj.bayer.t ")) /\
  trace (snd (get_table_schema MonthStore project_settings
                (py " proj.bayer.t ")
                (start MonthStore [py "proj.bayer.t"]))) =
  [] ++ [GetTable (strip (py " proj.bayer.t "))] /\
  list_columns MonthStore project_settings (py " proj.bayer.t ")
    (start MonthStore [py "proj.bayer.t"]) =
  (Ok (map field_name []),
   snd (get_table_schema MonthStore project_settings (py " proj.bayer.t ")
          (start MonthStore [py "proj.bayer.t"]))) /\
  exists n,
    get_table_info MonthStore project_settings (py " proj.bayer.t ")
      (start MonthStore [py "proj.bayer.t"]) =
    (Returned {| info_table := strip (py " proj.bayer.t "); row_count := n |},
     snd (get_table_schema MonthStore project_settings (py " proj.bayer.t ")
            (start MonthStore [py "proj.bayer.t"]))).
Proof.
  exact (table_reads_agree MonthStore project_settings (py " proj.bayer.t ")
           [] (start MonthStore [py "proj.bayer.t"])
           (snd (get_table_schema MonthStore project_settings
                   (py " proj.bayer.t ")
                   (start MonthStore [py "proj.bayer.t"])))
           eq_refl).
Defined.

(** X30: when the store's [get_table] fails on a valid reference,
    [list_columns] and [get_table_schema] report the message of the
    store's exception, or what [str] gives of the exception when its
    message is empty, whether the table was not found or not, while
    [get_table_info] reports a table that is not found as one that does
    not exist or is not accessible, with neither of the two. *)
Theorem table_reads_failure (TS : TableStore) (settings : Settings)
    (tbl : str) (w w1 : world TS) (c : Client) (nf : bool) (msg text : str)
    (s : Store TS) :
  table_reference (strip tbl) ->
  _get_client TS settings w = (Ok c, w1) ->
  store_get_table TS (strip tbl) (store w1) =
  (Failed (GoogleAPICallError nf msg text), s) ->
  let message := if is_empty msg then text else msg in
  fst (list_columns TS settings tbl w) =
  Raise (BigQueryServiceError (ErrorFetchingSchema (strip tbl) message)) /\
  fst (get_table_schema TS settings tbl w) =
  Raised (BigQueryServiceErrorOf (ErrorReadingSchema (strip tbl) message)) /\
  fst (get_table_info TS settings tbl w) =
  Raised (BigQueryServiceErrorOf
            (if nf then TableNotAccessible (strip tbl)
             else ErrorQueryingTable (strip tbl) message)).
Proof.
  intros T Ec Eg message.
  unfold get_table_schema, get_table_info, list_columns, rbind, earlier,
    wrapped, try_except, mbind.
  destruct (validate_table_reference_spec TS tbl w) as [[_ ->] | [N _]];
    [|contradiction].
  rewrite Ec. unfold client_get_table, call, ret, raise. rewrite Eg. simpl.
  now destruct nf.
Qed.

Lemma table_reads_failure_witness :
  let message := if is_empty [] then py "404 " else [] in
  fst (list_columns MuteStore project_settings (py "proj.bayer.t")
         (start MuteStore [])) =
  Raise (BigQueryServiceError
           (ErrorFetchingSchema (strip (py "proj.bayer.t")) message)) /\
  fst (get_table_schema MuteStore project_settings (py "proj.bayer.t")
         (start MuteStore [])) =
  Raised (BigQueryServiceErrorOf
            (ErrorReadingSchema (strip (py "proj.bayer.t")) message)) /\
  fst (get_table_info MuteStore project_settings (py "proj.bayer.t")
         (start MuteStore [])) =
  Raised (BigQueryServiceErrorOf
            (if true then TableNotAccessible (strip (py "proj.bayer.t"))
             else ErrorQueryingTable (strip (py "proj.bayer.t")) message)).
Proof.
  refine (table_reads_failure MuteStore project_settings (py "proj.bayer.t")
            (start MuteStore []) _ _ true [] (py "404 ") [] _ eq_refl
            eq_refl).
  exists (py "proj"), (py "bayer"), (py "t").
  split; [reflexivity|].
  repeat split; try discriminate; repeat constructor.
Defined.

End ReadTheorems.
